(** * A shallow embedding of [validate_m3u.py] (radiom3u)

    The validator reads an M3U playlist, probes every stream URL through
    a thread pool and writes the entries whose probe said "playable" to a
    [*_validated.m3u] file.  This file embeds [is_stream_playable],
    [parse_m3u], the runner/writer in [validate_m3u_file] and the
    [ThreadPoolExecutor] admission discipline it relies on.

    Modelling conventions:
    - Python [str] is [String.string]; characters are treated as ASCII, so
      [str.lower] and [str.strip] act on the ASCII letters and the ASCII
      whitespace characters that Python's [str.isspace] accepts.
    - The network ([requests.head] / [requests.get]) is an oracle [Net]
      mapping a request to a response or to a raised exception.
    - Files are written in text mode on a POSIX host: ["\n"] is written as
      is; reading uses universal newlines ("\r\n" and "\r" become "\n"). *)

From Stdlib Require Import ZArith Lia List Bool Permutation Sorting.Sorted.
From Stdlib Require Import Strings.String Strings.Ascii Numbers.DecimalString.
Import ListNotations.
Open Scope string_scope.

(* ------------------------------------------------------------------ *)
(** ** Python string primitives *)

Module Py.

(** [f"{n}"] for a Python [int]. *)
Definition str_of_int (n : Z) : string :=
  NilZero.string_of_int (Z.to_int n).

(** [s.startswith(p)] *)
Definition startswith (s p : string) : bool := String.prefix p s.

(** [needle in hay] for strings (an empty needle is always found). *)
Fixpoint contains (needle hay : string) : bool :=
  String.prefix needle hay ||
  match hay with
  | EmptyString => false
  | String _ rest => contains needle rest
  end.

Definition lower_char (c : ascii) : ascii :=
  let n := nat_of_ascii c in
  if (65 <=? n)%nat && (n <=? 90)%nat then ascii_of_nat (n + 32) else c.

(** [s.lower()] *)
Fixpoint lower (s : string) : string :=
  match s with
  | EmptyString => EmptyString
  | String c rest => String (lower_char c) (lower rest)
  end.

(** ASCII characters for which Python's [str.isspace()] holds:
    \t \n \v \f \r, the separators \x1c-\x1f, and space. *)
Definition is_space (c : ascii) : bool :=
  let n := nat_of_ascii c in
  ((9 <=? n)%nat && (n <=? 13)%nat) || ((28 <=? n)%nat && (n <=? 32)%nat).

Fixpoint lstrip (s : string) : string :=
  match s with
  | EmptyString => EmptyString
  | String c rest => if is_space c then lstrip rest else s
  end.

Fixpoint rstrip (s : string) : string :=
  match s with
  | EmptyString => EmptyString
  | String c rest =>
      match rstrip rest with
      | EmptyString => if is_space c then EmptyString else String c EmptyString
      | r => String c r
      end
  end.

(** [s.strip()] *)
Definition strip (s : string) : string := rstrip (lstrip s).

(** [s.replace(old, new)]: every non-overlapping occurrence of [old],
    scanned from the left, is replaced.  [old] is non-empty at every call
    site of this program (the empty pattern, which Python treats
    specially, does not occur). *)
Fixpoint replace_fuel (fuel : nat) (old new s : string) : string :=
  match fuel with
  | O => s
  | S fuel' =>
      match s with
      | EmptyString => EmptyString
      | String c rest =>
          if String.prefix old s then
            new ++ replace_fuel fuel'
                      old new (String.substring (String.length old)
                                  (String.length s - String.length old) s)
          else String c (replace_fuel fuel' old new rest)
      end
  end.

Definition replace (s old new : string) : string :=
  replace_fuel (String.length s) old new s.

End Py.

(* ------------------------------------------------------------------ *)
(** ** The network, as seen through [requests] *)

(** A response: its status code and its [Content-Type] header, if any. *)
Record Response := mkResponse {
  status_code : Z;
  content_type_header : option string
}.

(** A raised exception.  [requests]' exception classes form a hierarchy
    ([ConnectTimeout] is both a [Timeout] and a [ConnectionError]), so an
    exception is described by the classes it belongs to and by [str(e)]. *)
Record PyException := mkExc {
  exc_is_timeout : bool;           (** isinstance(e, requests.exceptions.Timeout) *)
  exc_is_connection_error : bool;  (** isinstance(e, requests.exceptions.ConnectionError) *)
  exc_str : string                 (** str(e) *)
}.

Inductive Request :=
| HEAD (url : string)        (** requests.head(url, ..., allow_redirects=True) *)
| GET_stream (url : string). (** requests.get(url, ..., stream=True) then r.close() *)

(** The outside world: what each request returns or raises. *)
Definition Net := Request -> PyException + Response.

(** A small writer-and-exception monad: the requests issued so far and
    either a raised exception or a value. *)
Definition Probe (A : Type) : Type := list Request * (PyException + A).

Definition ret {A} (a : A) : Probe A := ([], inr a).

Definition bind {A B} (m : Probe A) (k : A -> Probe B) : Probe B :=
  match m with
  | (log, inl e) => (log, inl e)
  | (log, inr a) => let (log', r) := k a in (app log log', r)
  end.

Notation "x <- m ;; k" := (bind m (fun x => k)) (at level 61, m at next level, right associativity).

Definition send (net : Net) (rq : Request) : Probe Response := ([rq], net rq).

(* ------------------------------------------------------------------ *)
(** ** [is_stream_playable] *)

Definition valid_types : list string :=
  ["audio"; "ogg"; "video/mp2t"; "application/octet-stream"].

(** The body of the [try] block. *)
Definition is_stream_playable_try (net : Net) (url : string) : Probe (bool * string) :=
  r <- send net (HEAD url) ;;
  r <- (if (status_code r =? 405)%Z || (status_code r =? 404)%Z
        then send net (GET_stream url)
        else ret r) ;;
  if (400 <=? status_code r)%Z
  then ret (false, "Status " ++ Py.str_of_int (status_code r))
  else
    let content_type := Py.lower (match content_type_header r with
                                  | Some v => v
                                  | None => ""
                                  end) in
    let is_audio := existsb (fun t => Py.contains t content_type) valid_types in
    if negb is_audio then
      if Py.contains "text/html" content_type
      then ret (false, "HTML Page (Not Audio)")
      else ret (false, "Invalid Type: " ++ content_type)
    else ret (true, "OK").

(** The three [except] clauses, tried in order. *)
Definition handle_exception (e : PyException) : bool * string :=
  if exc_is_timeout e then (false, "Timeout")
  else if exc_is_connection_error e then (false, "Connection Error")
  else (false, exc_str e).

Definition is_stream_playable (net : Net) (url : string) : bool * string :=
  match snd (is_stream_playable_try net url) with
  | inl e => handle_exception e
  | inr res => res
  end.

(** The requests [is_stream_playable] issues, in order. *)
Definition requests_issued (net : Net) (url : string) : list Request :=
  fst (is_stream_playable_try net url).

(** The decision procedure as the specification words it (used to
    compare with the code). *)
Definition spec_classification (r : Response) : bool * string :=
  if (status_code r >=? 400)%Z then (false, "Status " ++ Py.str_of_int (status_code r))
  else
    let ct := Py.lower (match content_type_header r with Some v => v | None => "" end) in
    if Py.contains "audio" ct || Py.contains "ogg" ct
       || Py.contains "video/mp2t" ct || Py.contains "application/octet-stream" ct
    then (true, "OK")
    else if Py.contains "text/html" ct then (false, "HTML Page (Not Audio)")
    else (false, "Invalid Type: " ++ ct).

(* ------------------------------------------------------------------ *)
(** ** Files *)

Definition NL : string := String (ascii_of_nat 10) EmptyString.
Definition CR : ascii := ascii_of_nat 13.

(** The file system as the scripts see it: per path, what opening and
    reading it yields (the decoded text, or the exception raised by
    [open] / [readlines] / UTF-8 decoding), and the exception, if any,
    that [open(path, 'w')] raises (a missing directory, a directory at
    [path], no permission).  Reading and writing fail independently: a
    file that does not exist yet cannot be read but can be created. *)
Record FileSystem := mkFileSystem {
  read_file :> string -> PyException + string;
  open_w_error : string -> option PyException
}.

(** The file system once [open(path, 'w')] has opened [path] and the
    writes of the [with] block have put [text] there: the file's old
    contents are discarded.  The writes themselves are taken to succeed
    once the file is open. *)
Definition write_file (fs : FileSystem) (path text : string) : FileSystem :=
  mkFileSystem (fun p => if String.eqb p path then inr text else fs p) (open_w_error fs).

(** [with open(path, 'w') as f: ...] writing [text]: the exception
    [open] raises, or the file system afterwards. *)
Definition open_write (fs : FileSystem) (path text : string) : PyException + FileSystem :=
  match open_w_error fs path with
  | Some e => inl e
  | None => inr (write_file fs path text)
  end.

(** A file system with the given contents in which [open(path, 'w')]
    succeeds for every path. *)
Definition writable (contents : string -> PyException + string) : FileSystem :=
  mkFileSystem contents (fun _ => None).

(** Universal-newline translation done by text-mode reading. *)
Fixpoint universal_newlines (s : string) : string :=
  match s with
  | EmptyString => EmptyString
  | String c rest =>
      if Ascii.eqb c CR then
        match rest with
        | String d rest' =>
            if Ascii.eqb d (ascii_of_nat 10) then NL ++ universal_newlines rest'
            else NL ++ universal_newlines rest
        | EmptyString => NL
        end
      else String c (universal_newlines rest)
  end.

(** [f.readlines()] on translated text: each line keeps its "\n"; a last
    line without one is kept when non-empty. *)
Fixpoint split_lines (acc : string) (s : string) : list string :=
  match s with
  | EmptyString => if String.eqb acc "" then [] else [acc]
  | String c rest =>
      if Ascii.eqb c (ascii_of_nat 10) then (acc ++ NL) :: split_lines "" rest
      else split_lines (acc ++ String c EmptyString) rest
  end.

Definition readlines (text : string) : list string :=
  split_lines "" (universal_newlines text).

(* ------------------------------------------------------------------ *)
(** ** [parse_m3u] *)

(** The [current_entry] dict: each key is present or absent. *)
Record Pending := mkPending {
  p_extinf : option string;
  p_tags : option (list string);
  p_url : option string
}.

Definition empty_pending : Pending := mkPending None None None.

(** A dict appended to [entries]: it always has ['extinf'] and ['url']
    (the append is guarded by ['extinf' in current_entry] right after
    ['url'] is set); ['tags'] is present only if a tag line was seen. *)
Record Entry := mkEntry {
  extinf : string;
  tags : option (list string);
  url : string
}.

(** One iteration of [for line in lines]. *)
Definition parse_step (st : list Entry * Pending) (raw : string) : list Entry * Pending :=
  let '(entries, cur) := st in
  let line := Py.strip raw in
  if String.eqb line "" then (entries, cur)
  else if Py.startswith line "#EXTINF" then
    (entries, mkPending (Some line) (p_tags cur) (p_url cur))
  else if Py.startswith line "#" && negb (Py.startswith line "#EXTM3U") then
    let ts := match p_tags cur with Some ts => ts | None => [] end in
    (entries, mkPending (p_extinf cur) (Some (ts ++ [line])%list) (p_url cur))
  else if negb (Py.startswith line "#") then
    match p_extinf cur with
    | Some x => ((entries ++ [mkEntry x (p_tags cur) line])%list, empty_pending)
    | None => (entries, empty_pending)
    end
  else (entries, cur).

Definition parse_lines (lines : list string) : list Entry :=
  fst (fold_left parse_step lines ([], empty_pending)).

(** [parse_m3u(file_path)]: the lines it prints and the list it returns. *)
Definition parse_m3u (fs : FileSystem) (file_path : string) : list string * list Entry :=
  match fs file_path with
  | inl e => (["Error reading file: " ++ exc_str e], [])
  | inr text => ([], parse_lines (readlines text))
  end.

(* ------------------------------------------------------------------ *)
(** ** The playlist writer (the [with open(output_file, 'w')] block) *)

(** Consecutive [f.write] calls: the pieces, concatenated. *)
Definition cat (pieces : list string) : string := fold_right String.append "" pieces.

Definition tags_list (e : Entry) : list string :=
  match tags e with Some ts => ts | None => [] end.

(** [f.write(f"{entry['extinf']}\n")], the tags if ['tags' in entry],
    then [f.write(f"{entry['url']}\n")]. *)
Definition entry_text (e : Entry) : string :=
  extinf e ++ NL ++ cat (map (fun tag => tag ++ NL) (tags_list e)) ++ url e ++ NL.

Definition write_playlist (valid_entries : list Entry) : string :=
  "#EXTM3U" ++ NL ++ cat (map entry_text valid_entries).

(* ------------------------------------------------------------------ *)
(** ** The runner and [validate_m3u_file] *)

(** What [future.result()] gives for one submitted probe: the returned
    pair, or an exception raised out of the task. *)
Inductive TaskResult :=
| Returned (r : bool * string)
| Raised (e : PyException).

(** In the program, the task for entry [i] is
    [is_stream_playable(entry['url'])] against the network as it behaves
    for that call. *)
Definition probe_task (nets : nat -> Net) (entries : list Entry) (i : nat) : TaskResult :=
  match nth_error entries i with
  | Some e => Returned (is_stream_playable (nets i) (url e))
  | None => Returned (false, "")
  end.

(** Futures are numbered in submission order ([future_to_entry] submits
    one per entry, in list order); [as_completed] yields them in
    completion order [order].  The loop state is
    [(valid_entries, dead_entries, completed)]. *)
Definition run_step (entries : list Entry) (results : nat -> TaskResult)
    (st : list Entry * nat * nat) (future : nat) : list Entry * nat * nat :=
  let '(valid_entries, dead_entries, completed) := st in
  let entry := nth_error entries future in     (* future_to_entry[future] *)
  let completed := S completed in
  match results future with
  | Returned (is_valid, _reason) =>
      if is_valid then
        match entry with
        | Some e => ((valid_entries ++ [e])%list, dead_entries, completed)
        | None => (valid_entries, dead_entries, completed)
        end
      else (valid_entries, S dead_entries, completed)
  | Raised _ => (valid_entries, S dead_entries, completed)
  end.

Definition run_futures (entries : list Entry) (results : nat -> TaskResult)
    (order : list nat) : list Entry * nat * nat :=
  fold_left (run_step entries results) order ([], 0, 0).

(** [as_completed] yields every submitted future exactly once. *)
Definition completion_order (n : nat) (order : list nat) : Prop :=
  Permutation order (seq 0 n).

Record Summary := mkSummary {
  total_streams : nat;
  working_streams : nat;
  dead_streams : nat;
  output_path : string
}.

Definition output_file_of (input_file : string) : string :=
  Py.replace input_file ".m3u" "_validated.m3u".

(** [validate_m3u_file(input_file)]: the file system afterwards, and how
    the call ends: it raises the exception of [open(output_file, 'w')]
    ([inl]; nothing is written and no summary printed), or it returns,
    after printing the summary ([inr (Some _)]) or, on the early return
    for an empty parse, without one ([inr None]). *)
Definition validate_m3u_file (fs : FileSystem) (input_file : string)
    (results : nat -> TaskResult) (order : list nat)
    : FileSystem * (PyException + option Summary) :=
  let entries := snd (parse_m3u fs input_file) in
  match entries with
  | [] => (fs, inr None)
  | _ =>
      let '(valid_entries, dead_entries, _) := run_futures entries results order in
      let output_file := output_file_of input_file in
      match open_write fs output_file (write_playlist valid_entries) with
      | inl e => (fs, inl e)
      | inr fs' =>
          (fs', inr (Some (mkSummary (List.length entries) (List.length valid_entries)
                                     dead_entries output_file)))
      end
  end.

Definition is_playable (r : TaskResult) : bool :=
  match r with
  | Returned (b, _) => b
  | Raised _ => false
  end.

(** The entries whose task returned [True], in input order ([k] is the
    position of the first entry of [es]). *)
Fixpoint playable_from (results : nat -> TaskResult) (k : nat) (es : list Entry) : list Entry :=
  match es with
  | [] => []
  | e :: es' => (if is_playable (results k) then [e] else []) ++ playable_from results (S k) es'
  end.

Definition playable_in_input_order (entries : list Entry) (results : nat -> TaskResult)
    : list Entry :=
  playable_from results 0 entries.

(** The entries whose task returned [True], in completion order. *)
Definition playable_in_completion_order (entries : list Entry) (results : nat -> TaskResult)
    (order : list nat) : list Entry :=
  flat_map (fun i => if is_playable (results i)
                     then match nth_error entries i with Some e => [e] | None => [] end
                     else []) order.

(* ------------------------------------------------------------------ *)
(** ** [ThreadPoolExecutor(max_workers=MAX_WORKERS)]

    The admission discipline of [concurrent.futures.thread]: [submit]
    queues a work item and, unless the idle semaphore can be taken, starts
    a new worker thread while fewer than [max_workers] exist; a worker
    takes one item from the queue at a time, runs it to completion and
    releases the idle semaphore.  A probe does network I/O only while its
    work item runs. *)

Module Pool.

Definition MAX_WORKERS : nat := 50.

Record State := mkState {
  max_workers : nat;
  work_queue : list nat;          (** submitted, not yet taken *)
  threads : list (option nat);    (** per worker thread: the item it runs *)
  idle_semaphore : nat;
  finished : list nat
}.

Definition init (max : nat) : State := mkState max [] [] 0 [].

Fixpoint set_nth {A} (l : list A) (i : nat) (x : A) : list A :=
  match l, i with
  | [], _ => []
  | _ :: r, O => x :: r
  | y :: r, S i' => y :: set_nth r i' x
  end.

(** [executor.submit(...)] followed by [_adjust_thread_count()]. *)
Definition submit (s : State) (item : nat) : State :=
  let q := (work_queue s ++ [item])%list in
  match idle_semaphore s with
  | S k => mkState (max_workers s) q (threads s) k (finished s)
  | O =>
      if (List.length (threads s) <? max_workers s)%nat
      then mkState (max_workers s) q (threads s ++ [None])%list 0 (finished s)
      else mkState (max_workers s) q (threads s) 0 (finished s)
  end.

Inductive step : State -> State -> Prop :=
| step_submit s item : step s (submit s item)
| step_take s i item rest :
    nth_error (threads s) i = Some None ->
    work_queue s = item :: rest ->
    step s (mkState (max_workers s) rest (set_nth (threads s) i (Some item))
                    (idle_semaphore s) (finished s))
| step_finish s i item :
    nth_error (threads s) i = Some (Some item) ->
    step s (mkState (max_workers s) (work_queue s) (set_nth (threads s) i None)
                    (S (idle_semaphore s)) (finished s ++ [item])%list).

Inductive reachable (max : nat) : State -> Prop :=
| reach_init : reachable max (init max)
| reach_step s s' : reachable max s -> step s s' -> reachable max s'.

(** Probes currently running (doing network I/O). *)
Definition running (s : State) : nat :=
  List.length (filter (fun o => match o with Some _ => true | None => false end) (threads s)).

End Pool.

(* ================================================================== *)
(** * Properties *)

(** ** The prober *)

(** The classification step of the [try] block, for a final response [r]. *)
Definition classify_step (r : Response) : Probe (bool * string) :=
  if (400 <=? status_code r)%Z
  then ret (false, "Status " ++ Py.str_of_int (status_code r))
  else
    let content_type := Py.lower (match content_type_header r with
                                  | Some v => v
                                  | None => ""
                                  end) in
    let is_audio := existsb (fun t => Py.contains t content_type) valid_types in
    if negb is_audio then
      if Py.contains "text/html" content_type
      then ret (false, "HTML Page (Not Audio)")
      else ret (false, "Invalid Type: " ++ content_type)
    else ret (true, "OK").

Lemma is_stream_playable_try_unfold (net : Net) (u : string) :
  is_stream_playable_try net u =
  bind (send net (HEAD u)) (fun r =>
    bind (if (status_code r =? 405)%Z || (status_code r =? 404)%Z
          then send net (GET_stream u) else ret r) classify_step).
Proof. reflexivity. Qed.

Lemma classify_step_spec (r : Response) :
  classify_step r = ret (spec_classification r).
Proof.
  unfold classify_step, spec_classification.
  rewrite Z.geb_leb.
  destruct (400 <=? status_code r)%Z; [reflexivity|].
  set (ct := Py.lower _).
  simpl existsb.
  destruct (Py.contains "audio" ct), (Py.contains "ogg" ct),
           (Py.contains "video/mp2t" ct), (Py.contains "application/octet-stream" ct),
           (Py.contains "text/html" ct);
    reflexivity.
Qed.

Lemma bind_ret_l {A B} (a : A) (k : A -> Probe B) : bind (ret a) k = k a.
Proof. unfold bind, ret. simpl. destruct (k a). reflexivity. Qed.

(** C3: the decision procedure.  The header-only probe comes first; on a
    404 or 405 the streamed body fetch replaces it; the final response is
    then classified by status and by lower-cased content type. *)
Theorem is_stream_playable_decision (net : Net) (u : string) (h : Response) :
  net (HEAD u) = inr h ->
  ((status_code h = 404 \/ status_code h = 405)%Z ->
     forall g, net (GET_stream u) = inr g ->
       is_stream_playable net u = spec_classification g /\
       requests_issued net u = [HEAD u; GET_stream u]) /\
  ((status_code h <> 404 /\ status_code h <> 405)%Z ->
     is_stream_playable net u = spec_classification h /\
     requests_issued net u = [HEAD u]).
Proof.
  intros Hh.
  unfold is_stream_playable, requests_issued.
  rewrite is_stream_playable_try_unfold.
  unfold send, bind; rewrite Hh.
  split.
  - intros Hs g Hg.
    assert (Hesc : ((status_code h =? 405)%Z || (status_code h =? 404)%Z) = true).
    { destruct Hs as [-> | ->]; reflexivity. }
    rewrite Hesc, Hg, classify_step_spec.
    split; reflexivity.
  - intros [H4 H5].
    assert (Hesc : ((status_code h =? 405)%Z || (status_code h =? 404)%Z) = false).
    { apply orb_false_iff; split; apply Z.eqb_neq; assumption. }
    rewrite Hesc. simpl. rewrite classify_step_spec.
    split; reflexivity.
Qed.

(** Every exception the [try] block raises comes from one of the two
    requests, and at most one header-only and one body-fetch request are
    issued, in that order. *)
Lemma is_stream_playable_try_cases (net : Net) (u : string) :
  (exists e, net (HEAD u) = inl e /\
             is_stream_playable_try net u = ([HEAD u], inl e)) \/
  (exists h, net (HEAD u) = inr h /\
             ((status_code h =? 405)%Z || (status_code h =? 404)%Z) = false /\
             is_stream_playable_try net u = ([HEAD u], inr (spec_classification h))) \/
  (exists h, net (HEAD u) = inr h /\
             ((status_code h =? 405)%Z || (status_code h =? 404)%Z) = true /\
             ((exists e, net (GET_stream u) = inl e /\
                         is_stream_playable_try net u = ([HEAD u; GET_stream u], inl e)) \/
              (exists g, net (GET_stream u) = inr g /\
                         is_stream_playable_try net u =
                           ([HEAD u; GET_stream u], inr (spec_classification g))))).
Proof.
  rewrite is_stream_playable_try_unfold. unfold send, bind.
  destruct (net (HEAD u)) as [e | h] eqn:Hh.
  - left. exists e. split; reflexivity.
  - right.
    destruct ((status_code h =? 405)%Z || (status_code h =? 404)%Z) eqn:Hesc.
    + right. exists h. split; [reflexivity | split; [exact Hesc|]].
      destruct (net (GET_stream u)) as [e | g] eqn:Hg.
      * left. exists e. split; reflexivity.
      * right. exists g. split; [reflexivity|]. rewrite classify_step_spec. reflexivity.
    + left. exists h. split; [reflexivity | split; [exact Hesc|]].
      simpl. rewrite classify_step_spec. reflexivity.
Qed.

(** C6: a transport exception from either request is turned into a
    non-playable result: a timeout into "Timeout", a connection error that
    is not a timeout into "Connection Error", anything else into [str(e)];
    no request is ever repeated. *)
Theorem is_stream_playable_exceptions (net : Net) (u : string) (e : PyException) :
  (net (HEAD u) = inl e \/
   exists h, net (HEAD u) = inr h /\ (status_code h = 404 \/ status_code h = 405)%Z /\
             net (GET_stream u) = inl e) ->
  (exc_is_timeout e = true -> is_stream_playable net u = (false, "Timeout")) /\
  (exc_is_timeout e = false -> exc_is_connection_error e = true ->
     is_stream_playable net u = (false, "Connection Error")) /\
  (exc_is_timeout e = false -> exc_is_connection_error e = false ->
     is_stream_playable net u = (false, exc_str e)) /\
  (requests_issued net u = [HEAD u] \/ requests_issued net u = [HEAD u; GET_stream u]).
Proof.
  intros Hraise.
  assert (Htry : is_stream_playable_try net u = ([HEAD u], inl e) \/
                 is_stream_playable_try net u = ([HEAD u; GET_stream u], inl e)).
  { rewrite is_stream_playable_try_unfold. unfold send, bind.
    destruct Hraise as [Hh | (h & Hh & Hs & Hg)]; rewrite Hh.
    - left. reflexivity.
    - assert (Hesc : ((status_code h =? 405)%Z || (status_code h =? 404)%Z) = true).
      { destruct Hs as [-> | ->]; reflexivity. }
      rewrite Hesc, Hg. right. reflexivity. }
  unfold is_stream_playable, requests_issued, handle_exception.
  destruct Htry as [Ht | Ht]; rewrite Ht; simpl;
    (split; [intros -> | split; [intros -> -> | split; [intros -> -> |]]]);
    auto.
Qed.

(** The result pair of the non-exception path. *)
Lemma spec_classification_ok (r : Response) :
  fst (spec_classification r) = true <-> snd (spec_classification r) = "OK".
Proof.
  unfold spec_classification.
  destruct (status_code r >=? 400)%Z; simpl.
  - split; [discriminate | intros H; inversion H].
  - set (ct := Py.lower _).
    destruct (_ || _); simpl; [tauto|].
    destruct (Py.contains "text/html" ct); simpl;
      split; intros H; inversion H.
Qed.

(** A network whose header-only request raises an exception that is
    neither a timeout nor a connection error and whose text is "OK". *)
Definition net_raising_ok : Net :=
  fun _ => inl (mkExc false false "OK").

(** C10 as stated fails: the catch-all [except Exception as e] returns
    [(False, str(e))], and [str(e)] may be "OK". *)
Lemma is_stream_playable_ok_iff_counterexample :
  ~ (forall (net : Net) (u : string),
       fst (is_stream_playable net u) = true <-> snd (is_stream_playable net u) = "OK").
Proof.
  intros H. specialize (H net_raising_ok "http://radio.example/stream").
  vm_compute in H. destruct H as [_ H]. specialize (H eq_refl). discriminate H.
Qed.

(** C10, amended: a playable result always has reason "OK"; a reason "OK"
    with a non-playable result only comes from the catch-all handler, for
    an exception whose text is "OK". *)
Theorem is_stream_playable_ok_reason (net : Net) (u : string) :
  (fst (is_stream_playable net u) = true -> snd (is_stream_playable net u) = "OK") /\
  (snd (is_stream_playable net u) = "OK" ->
     fst (is_stream_playable net u) = true \/
     exists e, snd (is_stream_playable_try net u) = inl e /\
               exc_is_timeout e = false /\ exc_is_connection_error e = false /\
               exc_str e = "OK").
Proof.
  unfold is_stream_playable.
  destruct (snd (is_stream_playable_try net u)) as [e | res] eqn:Hres.
  - unfold handle_exception.
    destruct (exc_is_timeout e) eqn:Ht; [simpl; split; intros H; inversion H|].
    destruct (exc_is_connection_error e) eqn:Hc; [simpl; split; intros H; inversion H|].
    simpl. split; [discriminate|]. intros Hs. right. exists e. auto.
  - destruct (is_stream_playable_try_cases net u)
      as [(e & _ & Ht) | [(h & _ & _ & Ht) | (h & _ & _ & [(e & _ & Ht) | (g & _ & Ht)])]];
      rewrite Ht in Hres; simpl in Hres; inversion Hres; subst res.
    + split; intro H; [apply spec_classification_ok; exact H
                      | left; apply spec_classification_ok; exact H].
    + split; intro H; [apply spec_classification_ok; exact H
                      | left; apply spec_classification_ok; exact H].
Qed.

(** ** The parser *)

(** The counting notion of the specification: URL lines (non-blank, not
    starting with "#") that come after an "#EXTINF" line seen since the
    previous URL line; [seen] says whether such an "#EXTINF" is pending. *)
Fixpoint urls_after_extinf (seen : bool) (lines : list string) : nat :=
  match lines with
  | [] => 0
  | raw :: rest =>
      let line := Py.strip raw in
      if String.eqb line "" then urls_after_extinf seen rest
      else if Py.startswith line "#EXTINF" then urls_after_extinf true rest
      else if Py.startswith line "#" then urls_after_extinf seen rest
      else (if seen then 1 else 0) + urls_after_extinf false rest
  end.

Lemma parse_fold_length (lines : list string) (es : list Entry) (cur : Pending) :
  List.length (fst (fold_left parse_step lines (es, cur))) =
  List.length es + urls_after_extinf (match p_extinf cur with Some _ => true | None => false end) lines.
Proof.
  revert es cur. induction lines as [| raw rest IH]; intros es cur; simpl.
  - lia.
  - unfold parse_step at 1.
    destruct (String.eqb (Py.strip raw) "").
    + apply IH.
    + destruct (Py.startswith (Py.strip raw) "#EXTINF").
      * rewrite IH. reflexivity.
      * destruct (Py.startswith (Py.strip raw) "#") eqn:Hh; simpl.
        -- destruct (Py.startswith (Py.strip raw) "#EXTM3U"); simpl; rewrite IH; reflexivity.
        -- destruct (p_extinf cur); rewrite IH; simpl;
             rewrite ?length_app; simpl; lia.
Qed.

Lemma startswith_app (s p q : string) :
  Py.startswith s (p ++ q) = true -> Py.startswith s p = true.
Proof.
  unfold Py.startswith. revert p.
  induction s as [| b s' IH]; intros p H.
  - destruct p as [| a p']; [reflexivity | discriminate].
  - destruct p as [| a p']; [reflexivity|].
    simpl in H |- *. destruct (Ascii.ascii_dec a b); [apply IH; exact H | discriminate].
Qed.

(** C4: on a URL line an entry is finalized exactly when an "#EXTINF" is
    pending (carrying it, the tags accumulated since the last reset and
    the URL) and the accumulator is reset either way; other lines add no
    entry; hence the number of parsed entries is the number of URL lines
    preceded by an "#EXTINF" since the last reset. *)
Theorem parse_m3u_entries (text : string) :
  (forall es cur raw,
     String.eqb (Py.strip raw) "" = false -> Py.startswith (Py.strip raw) "#" = false ->
     parse_step (es, cur) raw =
       match p_extinf cur with
       | Some x => ((es ++ [mkEntry x (p_tags cur) (Py.strip raw)])%list, empty_pending)
       | None => (es, empty_pending)
       end) /\
  (forall es cur raw,
     (String.eqb (Py.strip raw) "" = true \/ Py.startswith (Py.strip raw) "#" = true) ->
     fst (parse_step (es, cur) raw) = es) /\
  (forall (fs : FileSystem) path, fs path = inr text ->
     List.length (snd (parse_m3u fs path)) = urls_after_extinf false (readlines text)).
Proof.
  split; [| split].
  - intros es cur raw Hne Hurl. unfold parse_step.
    rewrite Hne.
    assert (Hx : Py.startswith (Py.strip raw) "#EXTINF" = false).
    { destruct (Py.startswith (Py.strip raw) "#EXTINF") eqn:E; [|reflexivity].
      change "#EXTINF" with ("#" ++ "EXTINF") in E.
      apply startswith_app in E. congruence. }
    rewrite Hx, Hurl. reflexivity.
  - intros es cur raw [H | H]; unfold parse_step.
    + rewrite H. reflexivity.
    + destruct (String.eqb (Py.strip raw) ""); [reflexivity|].
      destruct (Py.startswith (Py.strip raw) "#EXTINF"); [reflexivity|].
      rewrite H. simpl.
      destruct (negb (Py.startswith (Py.strip raw) "#EXTM3U")); reflexivity.
  - intros fs path Hfs. unfold parse_m3u. rewrite Hfs. simpl.
    unfold parse_lines. rewrite parse_fold_length. reflexivity.
Qed.

(** C7: a failure to open, read or decode the file is printed and gives
    the empty list; nothing is raised to the caller. *)
Theorem parse_m3u_read_error (fs : FileSystem) (path : string) (e : PyException) :
  fs path = inl e ->
  parse_m3u fs path = (["Error reading file: " ++ exc_str e], []).
Proof. intros H. unfold parse_m3u. rewrite H. reflexivity. Qed.

(** ** Writing and re-parsing *)

Fixpoint has_char (c : ascii) (s : string) : bool :=
  match s with
  | EmptyString => false
  | String d rest => Ascii.eqb d c || has_char c rest
  end.

Definition LF : ascii := ascii_of_nat 10.

(** A line as [parse_m3u] stores it: stripped, non-empty, and free of
    line breaks. *)
Definition clean_line (s : string) : Prop :=
  Py.strip s = s /\ s <> "" /\ has_char LF s = false /\ has_char CR s = false.

(** What every entry produced by [parse_m3u] satisfies. *)
Definition entry_wf (e : Entry) : Prop :=
  clean_line (extinf e) /\ Py.startswith (extinf e) "#EXTINF" = true /\
  (forall t, In t (tags_list e) ->
     clean_line t /\ Py.startswith t "#" = true /\
     Py.startswith t "#EXTINF" = false /\ Py.startswith t "#EXTM3U" = false) /\
  clean_line (url e) /\ Py.startswith (url e) "#" = false.

(** A dict without a ['tags'] key and one with an empty list print alike. *)
Definition normalize_entry (e : Entry) : Entry :=
  mkEntry (extinf e) (match tags_list e with [] => None | ts => Some ts end) (url e).

Lemma str_app_assoc (a b c : string) : (a ++ b) ++ c = a ++ (b ++ c).
Proof. induction a as [| x a IH]; simpl; [reflexivity | rewrite IH; reflexivity]. Qed.

Lemma str_app_nil_r (a : string) : a ++ "" = a.
Proof. induction a as [| x a IH]; simpl; [reflexivity | rewrite IH; reflexivity]. Qed.

Lemma has_char_app (c : ascii) (a b : string) :
  has_char c (a ++ b) = has_char c a || has_char c b.
Proof. induction a as [| x a IH]; simpl; [reflexivity | rewrite IH, orb_assoc; reflexivity]. Qed.

Lemma str_length_app (a b : string) :
  String.length (a ++ b) = String.length a + String.length b.
Proof. induction a as [| x a IH]; simpl; [reflexivity | rewrite IH; reflexivity]. Qed.

Lemma lstrip_length (s : string) : String.length (Py.lstrip s) <= String.length s.
Proof.
  induction s as [| c r IH]; simpl; [lia|].
  destruct (Py.is_space c); simpl; lia.
Qed.

Lemma rstrip_length (s : string) : String.length (Py.rstrip s) <= String.length s.
Proof.
  induction s as [| c r IH]; simpl; [lia|].
  destruct (Py.rstrip r) eqn:E.
  - destruct (Py.is_space c); simpl; lia.
  - simpl in *. lia.
Qed.

(** A stripped non-empty line starts with a non-space character. *)
Lemma strip_fixed_head (s : string) :
  Py.strip s = s -> s <> "" ->
  exists c r, s = String c r /\ Py.is_space c = false.
Proof.
  intros Hs Hne. destruct s as [| c r]; [congruence|].
  exists c, r. split; [reflexivity|].
  destruct (Py.is_space c) eqn:Hc; [|reflexivity].
  exfalso. unfold Py.strip in Hs. simpl in Hs. rewrite Hc in Hs.
  pose proof (rstrip_length (Py.lstrip r)) as H1.
  pose proof (lstrip_length r) as H2.
  rewrite Hs in H1. simpl in H1. lia.
Qed.

Lemma rstrip_app_space (s : string) (c : ascii) :
  Py.is_space c = true -> Py.rstrip (s ++ String c "") = Py.rstrip s.
Proof.
  intros Hc. induction s as [| d r IH]; simpl.
  - rewrite Hc. reflexivity.
  - rewrite IH. reflexivity.
Qed.

Lemma strip_line_nl (l : string) : clean_line l -> Py.strip (l ++ NL) = l.
Proof.
  intros (Hs & Hne & _ & _).
  destruct (strip_fixed_head l Hs Hne) as (c & r & -> & Hc).
  unfold Py.strip. simpl. rewrite Hc.
  change (String c (r ++ NL)) with (String c r ++ String LF "").
  rewrite rstrip_app_space by reflexivity.
  unfold Py.strip in Hs. simpl in Hs. rewrite Hc in Hs. exact Hs.
Qed.

Lemma universal_newlines_id (s : string) :
  has_char CR s = false -> universal_newlines s = s.
Proof.
  induction s as [| c r IH]; simpl; intros H; [reflexivity|].
  apply orb_false_iff in H as [Hc Hr].
  rewrite Hc, IH by exact Hr. reflexivity.
Qed.

Lemma split_lines_line (acc l rest : string) :
  has_char LF l = false ->
  split_lines acc (l ++ NL ++ rest) = (acc ++ l ++ NL) :: split_lines "" rest.
Proof.
  revert acc. induction l as [| c l IH]; intros acc H.
  - reflexivity.
  - simpl in H. apply orb_false_iff in H as [Hc Hl].
    simpl. unfold LF in Hc. rewrite Hc, IH by exact Hl.
    rewrite str_app_assoc. reflexivity.
Qed.

Lemma readlines_lines (ls : list string) :
  Forall (fun l => has_char LF l = false /\ has_char CR l = false) ls ->
  readlines (cat (map (fun l => l ++ NL) ls)) = map (fun l => l ++ NL) ls.
Proof.
  intros Hall. unfold readlines.
  rewrite universal_newlines_id.
  - induction Hall as [| l ls [Hlf _] _ IH]; [reflexivity|].
    simpl. rewrite str_app_assoc, split_lines_line by exact Hlf.
    rewrite IH. reflexivity.
  - induction Hall as [| l ls [_ Hcr] _ IH]; [reflexivity|].
    simpl. rewrite !has_char_app, Hcr, IH. reflexivity.
Qed.

(** The lines the writer emits, without their "\n". *)
Definition entry_lines (e : Entry) : list string :=
  extinf e :: tags_list e ++ [url e].

Definition written_lines (es : list Entry) : list string :=
  "#EXTM3U" :: flat_map entry_lines es.

Lemma cat_app (a b : list string) : cat (a ++ b) = cat a ++ cat b.
Proof.
  induction a as [| x a IH]; simpl; [reflexivity|].
  rewrite IH, str_app_assoc. reflexivity.
Qed.

Lemma entry_text_lines (e : Entry) :
  entry_text e = cat (map (fun l => l ++ NL) (entry_lines e)).
Proof.
  unfold entry_text, entry_lines. simpl.
  rewrite map_app, cat_app. simpl. rewrite str_app_nil_r, !str_app_assoc. reflexivity.
Qed.

Lemma write_playlist_lines (es : list Entry) :
  write_playlist es = cat (map (fun l => l ++ NL) (written_lines es)).
Proof.
  assert (H : cat (map entry_text es) =
              cat (map (fun l => l ++ NL) (flat_map entry_lines es))).
  { induction es as [| e es IH]; [reflexivity|].
    change (entry_text e ++ cat (map entry_text es) =
            cat (map (fun l => l ++ NL) (entry_lines e ++ flat_map entry_lines es))).
    rewrite map_app, cat_app, IH, entry_text_lines. reflexivity. }
  unfold write_playlist, written_lines. rewrite H. reflexivity.
Qed.

Lemma written_lines_clean (es : list Entry) :
  Forall entry_wf es ->
  Forall (fun l => has_char LF l = false /\ has_char CR l = false) (written_lines es).
Proof.
  intros Hall. unfold written_lines. constructor; [split; reflexivity|].
  induction Hall as [| e es (Hx & _ & Ht & Hu & _) _ IH]; [constructor|].
  change (Forall (fun l => has_char LF l = false /\ has_char CR l = false)
            (entry_lines e ++ flat_map entry_lines es)).
  apply Forall_app. split; [|exact IH].
  unfold entry_lines. constructor.
  - destruct Hx as (_ & _ & ? & ?). split; assumption.
  - apply Forall_app. split.
    + apply Forall_forall. intros t Hin. destruct (Ht t Hin) as ((_ & _ & ? & ?) & _).
      split; assumption.
    + constructor; [|constructor]. destruct Hu as (_ & _ & ? & ?). split; assumption.
Qed.

Lemma parse_tags (es : list Entry) (x : string) (o : option (list string)) (ts : list string) :
  (forall t, In t ts ->
     clean_line t /\ Py.startswith t "#" = true /\
     Py.startswith t "#EXTINF" = false /\ Py.startswith t "#EXTM3U" = false) ->
  fold_left parse_step (map (fun l => l ++ NL) ts) (es, mkPending (Some x) o None) =
  (es, mkPending (Some x)
         (match ts with
          | [] => o
          | _ => Some ((match o with Some l => l | None => [] end) ++ ts)%list
          end) None).
Proof.
  revert o. induction ts as [| t ts IH]; intros o Hts; [reflexivity|].
  destruct (Hts t (or_introl eq_refl)) as (Hcl & Hhash & Hinf & Hm3u).
  assert (Hne : String.eqb t "" = false).
  { apply String.eqb_neq. destruct Hcl as (_ & ? & _). assumption. }
  assert (Hstep : parse_step (es, mkPending (Some x) o None) (t ++ NL) =
                  (es, mkPending (Some x)
                         (Some ((match o with Some l => l | None => [] end) ++ [t])%list) None)).
  { unfold parse_step. rewrite (strip_line_nl t Hcl), Hne, Hinf, Hhash, Hm3u. reflexivity. }
  cbn [map fold_left]. rewrite Hstep.
  rewrite IH by (intros t' Hin; apply Hts; right; exact Hin).
  destruct ts as [| t2 ts]; [reflexivity|].
  rewrite <- app_assoc. reflexivity.
Qed.

Lemma parse_entry (es : list Entry) (e : Entry) (rest : list string) :
  entry_wf e ->
  fold_left parse_step (map (fun l => l ++ NL) (entry_lines e) ++ rest) (es, empty_pending) =
  fold_left parse_step rest ((es ++ [normalize_entry e])%list, empty_pending).
Proof.
  intros (Hx & Hxinf & Ht & Hu & Hurl).
  rewrite fold_left_app. f_equal.
  assert (Hne : String.eqb (extinf e) "" = false).
  { apply String.eqb_neq. destruct Hx as (_ & ? & _). assumption. }
  assert (Hstep : parse_step (es, empty_pending) (extinf e ++ NL) =
                  (es, mkPending (Some (extinf e)) None None)).
  { unfold parse_step. rewrite (strip_line_nl _ Hx), Hne, Hxinf. reflexivity. }
  unfold entry_lines. cbn [map fold_left]. rewrite Hstep.
  rewrite map_app, fold_left_app, parse_tags by exact Ht. cbn [map fold_left].
  unfold parse_step. rewrite (strip_line_nl _ Hu).
  assert (Hune : String.eqb (url e) "" = false).
  { apply String.eqb_neq. destruct Hu as (_ & ? & _). assumption. }
  assert (Huinf : Py.startswith (url e) "#EXTINF" = false).
  { destruct (Py.startswith (url e) "#EXTINF") eqn:E; [|reflexivity].
    change "#EXTINF" with ("#" ++ "EXTINF") in E.
    apply startswith_app in E. congruence. }
  rewrite Hune, Huinf, Hurl. simpl.
  unfold normalize_entry. destruct (tags_list e) as [| t ts]; reflexivity.
Qed.

Lemma parse_entries_from (acc es : list Entry) :
  Forall entry_wf es ->
  fold_left parse_step (map (fun l => l ++ NL) (flat_map entry_lines es)) (acc, empty_pending) =
  ((acc ++ map normalize_entry es)%list, empty_pending).
Proof.
  intros Hall. revert acc. induction Hall as [| e es He _ IH]; intros acc.
  - simpl. rewrite app_nil_r. reflexivity.
  - change (flat_map entry_lines (e :: es)) with ((entry_lines e ++ flat_map entry_lines es)%list).
    rewrite map_app, parse_entry by exact He.
    rewrite IH, <- app_assoc. reflexivity.
Qed.

Lemma parse_written (es : list Entry) :
  Forall entry_wf es ->
  parse_lines (readlines (write_playlist es)) = map normalize_entry es.
Proof.
  intros Hall.
  rewrite write_playlist_lines, readlines_lines by (apply written_lines_clean; exact Hall).
  unfold parse_lines, written_lines. cbn [map fold_left].
  assert (Hhdr : parse_step ([], empty_pending) ("#EXTM3U" ++ NL) = ([], empty_pending)).
  { vm_compute. reflexivity. }
  rewrite Hhdr, parse_entries_from by exact Hall. reflexivity.
Qed.

Lemma write_playlist_normalize (es : list Entry) :
  write_playlist (map normalize_entry es) = write_playlist es.
Proof.
  unfold write_playlist. do 2 f_equal. rewrite map_map. f_equal.
  apply map_ext. intros e. unfold entry_text, normalize_entry, tags_list at 1. simpl.
  destruct (tags_list e); reflexivity.
Qed.

Lemma read_written (fs : FileSystem) (path text : string) :
  parse_m3u (write_file fs path text) path = ([], parse_lines (readlines text)).
Proof. unfold parse_m3u, write_file. cbn [read_file]. rewrite String.eqb_refl. reflexivity. Qed.

(** C5: writing a list of parsed entries, reading the file back with
    [parse_m3u] and writing again gives the same bytes; the re-read
    entries carry the same "#EXTINF" line, tag lines in order and URL. *)
Theorem write_parse_write (fs : FileSystem) (path : string) (es : list Entry) :
  Forall entry_wf es ->
  snd (parse_m3u (write_file fs path (write_playlist es)) path) = map normalize_entry es /\
  write_playlist (snd (parse_m3u (write_file fs path (write_playlist es)) path)) =
  write_playlist es.
Proof.
  intros Hall. rewrite read_written. simpl.
  rewrite parse_written by exact Hall.
  split; [reflexivity | apply write_playlist_normalize].
Qed.

(** ** Every parsed entry is well formed *)

Lemma rstrip_idem (s : string) : Py.rstrip (Py.rstrip s) = Py.rstrip s.
Proof.
  induction s as [| c r IH]; [reflexivity|].
  change (Py.rstrip (String c r)) with
    (match Py.rstrip r with
     | EmptyString => if Py.is_space c then EmptyString else String c EmptyString
     | r0 => String c r0
     end).
  destruct (Py.rstrip r) as [| d r'] eqn:E.
  - destruct (Py.is_space c) eqn:Hc; simpl; [reflexivity|]. rewrite Hc. reflexivity.
  - pose proof IH as H.
    change (Py.rstrip (String c (String d r'))) with
      (match Py.rstrip (String d r') with
       | EmptyString => if Py.is_space c then EmptyString else String c EmptyString
       | r0 => String c r0
       end).
    rewrite H. reflexivity.
Qed.

Lemma rstrip_head (c : ascii) (r : string) :
  Py.is_space c = false -> exists z, Py.rstrip (String c r) = String c z.
Proof.
  intros Hc. simpl. destruct (Py.rstrip r) as [| d r'].
  - rewrite Hc. exists "". reflexivity.
  - exists (String d r'). reflexivity.
Qed.

Lemma lstrip_head (s : string) :
  Py.lstrip s = "" \/ exists c r, Py.lstrip s = String c r /\ Py.is_space c = false.
Proof.
  induction s as [| c r IH]; [left; reflexivity|]. simpl.
  destruct (Py.is_space c) eqn:Hc; [exact IH|]. right. exists c, r. auto.
Qed.

Lemma strip_idem (s : string) : Py.strip (Py.strip s) = Py.strip s.
Proof.
  unfold Py.strip.
  destruct (lstrip_head s) as [-> | (c & r & -> & Hc)]; [reflexivity|].
  destruct (rstrip_head c r Hc) as (z & Hz). rewrite Hz. simpl. rewrite Hc.
  rewrite <- Hz. apply rstrip_idem.
Qed.

Lemma has_char_lstrip (c : ascii) (s : string) :
  has_char c s = false -> has_char c (Py.lstrip s) = false.
Proof.
  induction s as [| d r IH]; simpl; [auto|]. intros H.
  apply orb_false_iff in H as [Hd Hr].
  destruct (Py.is_space d); [apply IH; exact Hr | simpl; rewrite Hd, Hr; reflexivity].
Qed.

Lemma has_char_rstrip (c : ascii) (s : string) :
  has_char c s = false -> has_char c (Py.rstrip s) = false.
Proof.
  induction s as [| d r IH]; simpl; [auto|]. intros H.
  apply orb_false_iff in H as [Hd Hr]. specialize (IH Hr).
  destruct (Py.rstrip r) as [| e r'].
  - destruct (Py.is_space d); simpl; [reflexivity | rewrite Hd; reflexivity].
  - simpl in *. rewrite Hd, IH. reflexivity.
Qed.

Lemma has_char_strip (c : ascii) (s : string) :
  has_char c s = false -> has_char c (Py.strip s) = false.
Proof. intros H. apply has_char_rstrip, has_char_lstrip, H. Qed.

Lemma lstrip_app (a b : string) :
  Py.lstrip (a ++ b) = match Py.lstrip a with "" => Py.lstrip b | r => r ++ b end.
Proof.
  induction a as [| c a IH]; simpl; [reflexivity|].
  destruct (Py.is_space c); [exact IH | reflexivity].
Qed.

(** The "\n" that [readlines] keeps is removed by [strip]. *)
Lemma strip_app_nl (a : string) : Py.strip (a ++ NL) = Py.strip a.
Proof.
  unfold Py.strip. rewrite lstrip_app.
  destruct (Py.lstrip a) as [| c r] eqn:E; [reflexivity|].
  change NL with (String LF "").
  rewrite rstrip_app_space by reflexivity. reflexivity.
Qed.

Lemma universal_newlines_no_cr (n : nat) (s : string) :
  String.length s <= n -> has_char CR (universal_newlines s) = false.
Proof.
  revert s. induction n as [| n IH]; intros s Hlen.
  - destruct s; [reflexivity | simpl in Hlen; lia].
  - destruct s as [| c r]; [reflexivity|]. simpl in Hlen.
    change (universal_newlines (String c r)) with
      (if Ascii.eqb c CR then
         match r with
         | String d rest' =>
             if Ascii.eqb d (ascii_of_nat 10) then NL ++ universal_newlines rest'
             else NL ++ universal_newlines r
         | EmptyString => NL
         end
       else String c (universal_newlines r)).
    destruct (Ascii.eqb c CR) eqn:Hc.
    + destruct r as [| d r']; [reflexivity|].
      destruct (Ascii.eqb d (ascii_of_nat 10));
        rewrite has_char_app; change (has_char CR NL) with false; rewrite orb_false_l;
        apply IH; simpl in Hlen; simpl String.length; lia.
    + change (has_char CR (String c (universal_newlines r))) with
        (Ascii.eqb c CR || has_char CR (universal_newlines r)).
      rewrite Hc. apply IH. lia.
Qed.

(** A line of [readlines]: a text without line breaks, possibly followed
    by "\n". *)
Definition read_line_ok (l : string) : Prop :=
  exists a, (l = a ++ NL \/ l = a) /\ has_char LF a = false /\ has_char CR a = false.

Lemma split_lines_ok (s acc : string) :
  has_char LF acc = false -> has_char CR acc = false -> has_char CR s = false ->
  Forall read_line_ok (split_lines acc s).
Proof.
  revert acc. induction s as [| c r IH]; intros acc Hlf Hcr Hs; simpl.
  - destruct (String.eqb acc ""); constructor; [|constructor].
    exists acc. auto.
  - simpl in Hs. apply orb_false_iff in Hs as [Hc Hr].
    destruct (Ascii.eqb c (ascii_of_nat 10)) eqn:Hlfc.
    + constructor; [exists acc; auto|]. apply IH; auto.
    + apply IH; auto; rewrite has_char_app; simpl.
      * rewrite Hlf. unfold LF. rewrite Hlfc. reflexivity.
      * rewrite Hcr, Hc. reflexivity.
Qed.

Lemma readlines_ok (text : string) : Forall read_line_ok (readlines text).
Proof.
  unfold readlines. apply split_lines_ok; try reflexivity.
  apply (universal_newlines_no_cr (String.length text)). lia.
Qed.

Lemma strip_read_line_clean (l : string) :
  read_line_ok l -> String.eqb (Py.strip l) "" = false -> clean_line (Py.strip l).
Proof.
  intros (a & Hl & Hlf & Hcr) Hne.
  assert (Hs : Py.strip l = Py.strip a).
  { destruct Hl as [-> | ->]; [apply strip_app_nl | reflexivity]. }
  split; [apply strip_idem|]. split; [apply String.eqb_neq; exact Hne|].
  rewrite Hs. split; apply has_char_strip; assumption.
Qed.

Definition pending_wf (cur : Pending) : Prop :=
  (forall x, p_extinf cur = Some x ->
     clean_line x /\ Py.startswith x "#EXTINF" = true) /\
  (forall t, In t (match p_tags cur with Some ts => ts | None => [] end) ->
     clean_line t /\ Py.startswith t "#" = true /\
     Py.startswith t "#EXTINF" = false /\ Py.startswith t "#EXTM3U" = false).

Lemma parse_fold_wf (lines : list string) (es : list Entry) (cur : Pending) :
  Forall read_line_ok lines -> Forall entry_wf es -> pending_wf cur ->
  Forall entry_wf (fst (fold_left parse_step lines (es, cur))).
Proof.
  intros Hlines. revert es cur.
  induction Hlines as [| raw lines Hraw _ IH]; intros es cur Hes (Hx & Ht); [exact Hes|].
  cbn [fold_left]. unfold parse_step at 2.
  destruct (String.eqb (Py.strip raw) "") eqn:Hne; [apply IH; [exact Hes | split; auto]|].
  pose proof (strip_read_line_clean raw Hraw Hne) as Hcl.
  destruct (Py.startswith (Py.strip raw) "#EXTINF") eqn:Hinf.
  { apply IH; [exact Hes|]. split; [|exact Ht].
    simpl. intros x Hsx. injection Hsx as <-. auto. }
  destruct (Py.startswith (Py.strip raw) "#") eqn:Hhash;
    destruct (Py.startswith (Py.strip raw) "#EXTM3U") eqn:Hm3u; simpl.
  - apply IH; [exact Hes | split; auto].
  - apply IH; [exact Hes|]. split; [exact Hx|]. simpl.
    intros t Hin. apply in_app_or in Hin as [Hin | [<- | []]]; [apply Ht; exact Hin|].
    auto.
  - destruct (p_extinf cur) as [x|] eqn:Ex.
    + apply IH; [| split; simpl; [discriminate | intros t []]].
      apply Forall_app. split; [exact Hes|]. constructor; [|constructor].
      destruct (Hx x eq_refl) as (Hxc & Hxs).
      exact (conj Hxc (conj Hxs (conj Ht (conj Hcl Hhash)))).
    + apply IH; [exact Hes | split; simpl; [discriminate | intros t []]].
  - destruct (p_extinf cur) as [x|] eqn:Ex.
    + apply IH; [| split; simpl; [discriminate | intros t []]].
      apply Forall_app. split; [exact Hes|]. constructor; [|constructor].
      destruct (Hx x eq_refl) as (Hxc & Hxs).
      exact (conj Hxc (conj Hxs (conj Ht (conj Hcl Hhash)))).
    + apply IH; [exact Hes | split; simpl; [discriminate | intros t []]].
Qed.

(** Every entry [parse_m3u] returns is well formed; so is every entry the
    validator writes, since it writes a selection of them. *)
Lemma parse_m3u_wf (fs : FileSystem) (path : string) :
  Forall entry_wf (snd (parse_m3u fs path)).
Proof.
  unfold parse_m3u. destruct (fs path) as [e | text]; simpl; [constructor|].
  apply parse_fold_wf; [apply readlines_ok | constructor |].
  split; simpl; [discriminate | intros t []].
Qed.

(** ** The runner *)

Lemma run_futures_fold (entries : list Entry) (results : nat -> TaskResult)
    (order : list nat) (v : list Entry) (d c : nat) :
  (forall i, In i order -> i < List.length entries) ->
  fold_left (run_step entries results) order (v, d, c) =
  ((v ++ playable_in_completion_order entries results order)%list,
   d + List.length (filter (fun i => negb (is_playable (results i))) order),
   c + List.length order).
Proof.
  revert v d c. induction order as [| i order IH]; intros v d c Hin.
  - simpl. rewrite app_nil_r, !Nat.add_0_r. reflexivity.
  - assert (Hi : i < List.length entries) by (apply Hin; left; reflexivity).
    destruct (nth_error entries i) as [e|] eqn:He;
      [| apply nth_error_None in He; lia].
    cbn [fold_left]. unfold run_step at 2. rewrite He.
    unfold playable_in_completion_order. cbn [flat_map filter List.length].
    fold (playable_in_completion_order entries results order).
    assert (Hrest : forall j, In j order -> j < List.length entries)
      by (intros j Hj; apply Hin; right; exact Hj).
    destruct (results i) as [[b reason] | exn] eqn:Hr; simpl.
    + destruct b; rewrite IH by exact Hrest; simpl.
      * rewrite He, !Nat.add_succ_r, <- app_assoc. reflexivity.
      * rewrite !Nat.add_succ_r. reflexivity.
    + rewrite IH by exact Hrest. rewrite !Nat.add_succ_r. reflexivity.
Qed.

Lemma completion_partition (entries : list Entry) (results : nat -> TaskResult)
    (order : list nat) :
  (forall i, In i order -> i < List.length entries) ->
  List.length (playable_in_completion_order entries results order) +
  List.length (filter (fun i => negb (is_playable (results i))) order) =
  List.length order.
Proof.
  induction order as [| i order IH]; intros Hin; [reflexivity|].
  assert (Hi : i < List.length entries) by (apply Hin; left; reflexivity).
  destruct (nth_error entries i) as [e|] eqn:He; [| apply nth_error_None in He; lia].
  unfold playable_in_completion_order in *. cbn [flat_map filter List.length].
  rewrite length_app. rewrite He.
  specialize (IH (fun j Hj => Hin j (or_intror Hj))).
  destruct (is_playable (results i)); simpl; lia.
Qed.

Lemma completion_order_bound (n : nat) (order : list nat) :
  completion_order n order -> forall i, In i order -> i < n.
Proof.
  intros Hp i Hi. apply (Permutation_in _ Hp), in_seq in Hi. lia.
Qed.

(** What [validate_m3u_file] does once [parse_m3u] returned entries. *)
Lemma validate_m3u_file_run (fs : FileSystem) (input_file : string)
    (results : nat -> TaskResult) (order : list nat) :
  let entries := snd (parse_m3u fs input_file) in
  completion_order (List.length entries) order -> entries <> [] ->
  validate_m3u_file fs input_file results order =
  match open_write fs (output_file_of input_file)
          (write_playlist (playable_in_completion_order entries results order)) with
  | inl e => (fs, inl e)
  | inr fs' =>
      (fs', inr (Some (mkSummary (List.length entries)
                         (List.length (playable_in_completion_order entries results order))
                         (List.length (filter (fun i => negb (is_playable (results i))) order))
                         (output_file_of input_file))))
  end.
Proof.
  intros entries Hord Hne. unfold validate_m3u_file. fold entries.
  clearbody entries.
  destruct entries as [| e0 es]; [congruence|].
  unfold run_futures.
  rewrite run_futures_fold by (apply completion_order_bound; exact Hord).
  reflexivity.
Qed.

Lemma playable_from_seq (results : nat -> TaskResult) (pre es : list Entry) :
  playable_in_completion_order (pre ++ es) results
    (seq (List.length pre) (List.length es)) =
  playable_from results (List.length pre) es.
Proof.
  revert pre. induction es as [| e es IH]; intros pre; [reflexivity|].
  cbn [List.length seq playable_from].
  unfold playable_in_completion_order. cbn [flat_map].
  fold (playable_in_completion_order (pre ++ e :: es) results
          (seq (S (List.length pre)) (List.length es))).
  rewrite nth_error_app2, Nat.sub_diag by lia. cbn [nth_error].
  replace (pre ++ e :: es)%list with ((pre ++ [e]) ++ es)%list
    by (rewrite <- app_assoc; reflexivity).
  replace (S (List.length pre)) with (List.length (pre ++ [e]))
    by (rewrite length_app; simpl; lia).
  rewrite IH. reflexivity.
Qed.

Lemma completion_input_perm (entries : list Entry) (results : nat -> TaskResult)
    (order : list nat) :
  completion_order (List.length entries) order ->
  Permutation (playable_in_completion_order entries results order)
              (playable_in_input_order entries results).
Proof.
  intros Hp. unfold playable_in_completion_order at 1.
  rewrite (Permutation_flat_map _ Hp).
  pose proof (playable_from_seq results [] entries) as H. simpl in H.
  unfold playable_in_completion_order in H. rewrite H. reflexivity.
Qed.

(** A two-entry playlist, used to test the runner. *)
Definition two_entry_text : string :=
  "#EXTM3U" ++ NL ++ "#EXTINF:-1,Alpha" ++ NL ++ "http://a.example/live" ++ NL
  ++ "#EXTINF:-1,Beta" ++ NL ++ "http://b.example/live" ++ NL.

Definition fs_two : FileSystem := writable (fun _ => inr two_entry_text).

Definition all_ok : nat -> TaskResult := fun _ => Returned (true, "OK").

(** C1 as stated fails: when the second entry's probe completes first,
    the written playlist lists it first. *)
Lemma validate_input_order_counterexample :
  ~ (forall fs input results order,
       completion_order (List.length (snd (parse_m3u fs input))) order ->
       snd (parse_m3u fs input) <> [] ->
       fst (validate_m3u_file fs input results order) (output_file_of input) =
       inr (write_playlist (playable_in_input_order (snd (parse_m3u fs input)) results))).
Proof.
  intros H.
  specialize (H fs_two "radio.m3u" all_ok [1; 0]).
  assert (Hn : List.length (snd (parse_m3u fs_two "radio.m3u")) = 2) by reflexivity.
  rewrite Hn in H.
  specialize (H (perm_swap 0 1 [])).
  assert (Hne : snd (parse_m3u fs_two "radio.m3u") <> []) by (vm_compute; discriminate).
  specialize (H Hne). vm_compute in H. discriminate H.
Qed.

(** C1, amended: when the output file can be opened, it holds exactly the
    entries whose probe returned playable, in the order the probes
    completed, which is a reordering of their input order. *)
Theorem validate_output_entries (fs : FileSystem) (input : string)
    (results : nat -> TaskResult) (order : list nat) :
  completion_order (List.length (snd (parse_m3u fs input))) order ->
  snd (parse_m3u fs input) <> [] ->
  open_w_error fs (output_file_of input) = None ->
  fst (validate_m3u_file fs input results order) (output_file_of input) =
    inr (write_playlist (playable_in_completion_order (snd (parse_m3u fs input)) results order)) /\
  Permutation (playable_in_completion_order (snd (parse_m3u fs input)) results order)
              (playable_in_input_order (snd (parse_m3u fs input)) results).
Proof.
  intros Hord Hne Hw. split.
  - rewrite (validate_m3u_file_run fs input results order Hord Hne).
    unfold open_write. rewrite Hw. simpl.
    rewrite String.eqb_refl. reflexivity.
  - apply completion_input_perm. exact Hord.
Qed.

(** C2: every dispatched entry is counted once, as working or as dead. *)
Theorem validate_counts_complete (fs : FileSystem) (input : string)
    (results : nat -> TaskResult) (order : list nat) (fs' : FileSystem) (s : Summary) :
  completion_order (List.length (snd (parse_m3u fs input))) order ->
  validate_m3u_file fs input results order = (fs', inr (Some s)) ->
  working_streams s + dead_streams s = total_streams s.
Proof.
  intros Hord Hrun.
  destruct (snd (parse_m3u fs input)) as [| e es] eqn:Hes.
  - unfold validate_m3u_file in Hrun. rewrite Hes in Hrun. discriminate Hrun.
  - assert (Hne : snd (parse_m3u fs input) <> []) by (rewrite Hes; discriminate).
    rewrite <- Hes in Hord.
    rewrite (validate_m3u_file_run fs input results order Hord Hne) in Hrun.
    destruct (open_write _ _ _); [discriminate Hrun|].
    injection Hrun as _ <-. simpl.
    rewrite completion_partition by (apply completion_order_bound; exact Hord).
    rewrite (Permutation_length Hord), length_seq. reflexivity.
Qed.

(** ** The output path *)

(** ".m3u" does not overlap itself: appended to a non-empty name that does
    not contain it, it cannot start at the first character. *)
Lemma m3u_no_overlap (name : string) :
  Py.contains ".m3u" name = false -> name <> "" ->
  String.prefix ".m3u" (name ++ ".m3u") = false.
Proof.
  intros Hc Hne. destruct name as [| c r]; [congruence|].
  cbn [String.append String.prefix].
  destruct (Ascii.ascii_dec "." c) as [<- |]; [|reflexivity].
  destruct r as [| d r]; [reflexivity|]. cbn [String.append String.prefix].
  destruct (Ascii.ascii_dec "m" d) as [<- |]; [|reflexivity].
  destruct r as [| e r]; [reflexivity|]. cbn [String.append String.prefix].
  destruct (Ascii.ascii_dec "3" e) as [<- |]; [|reflexivity].
  destruct r as [| f r]; [reflexivity|]. cbn [String.append String.prefix].
  destruct (Ascii.ascii_dec "u" f) as [<- |]; [|reflexivity].
  exfalso. revert Hc. cbn [Py.contains]. destruct r; discriminate.
Qed.

Lemma replace_m3u_suffix (name new : string) (fuel : nat) :
  Py.contains ".m3u" name = false ->
  String.length (name ++ ".m3u") <= fuel ->
  Py.replace_fuel fuel ".m3u" new (name ++ ".m3u") = name ++ new.
Proof.
  revert fuel. induction name as [| c r IH]; intros fuel Hc Hlen.
  - destruct fuel as [| fuel]; [simpl in Hlen; lia|].
    simpl. destruct fuel; rewrite str_app_nil_r; reflexivity.
  - destruct fuel as [| fuel]; [simpl in Hlen; lia|].
    assert (Hr : Py.contains ".m3u" r = false).
    { revert Hc. cbn [Py.contains]. rewrite orb_false_iff. intros [_ H]. exact H. }
    change (String c r ++ ".m3u") with (String c (r ++ ".m3u")).
    cbn [Py.replace_fuel].
    assert (Hp : String.prefix ".m3u" (String c (r ++ ".m3u")) = false)
      by exact (m3u_no_overlap (String c r) Hc ltac:(discriminate)).
    rewrite Hp.
    rewrite IH by (exact Hr || (simpl in Hlen; lia)). reflexivity.
Qed.

(** C8 as stated fails: [str.replace] rewrites every ".m3u" of the path,
    not only the file name's suffix. *)
Lemma output_suffix_counterexample :
  ~ (forall name, output_file_of (name ++ ".m3u") = name ++ "_validated.m3u").
Proof.
  intros H. specialize (H "backup.m3u/list"). vm_compute in H. discriminate H.
Qed.

Lemma replace_absent (fuel : nat) (old new s : string) :
  Py.contains old s = false -> Py.replace_fuel fuel old new s = s.
Proof.
  revert fuel. induction s as [| c r IH]; intros fuel Hc; destruct fuel as [| fuel];
    try reflexivity.
  cbn [Py.replace_fuel]. cbn [Py.contains] in Hc.
  apply orb_false_iff in Hc as [Hp Hr]. rewrite Hp, IH by exact Hr. reflexivity.
Qed.

(** C8: the output path is the input path with every ".m3u" replaced by
    "_validated.m3u" ([str.replace] over the whole path), which is the
    path the summary names.  Only when the path holds ".m3u" once, at its
    end, is it the "_validated" variant of the file name.  A path without
    ".m3u" is its own output path: a run over it replaces the input
    playlist itself with the kept entries.  When [open(output_file, 'w')]
    raises, the exception leaves the function and nothing is written. *)
Theorem validate_output_path (fs : FileSystem) (input : string)
    (results : nat -> TaskResult) (order : list nat) :
  completion_order (List.length (snd (parse_m3u fs input))) order ->
  snd (parse_m3u fs input) <> [] ->
  (forall s, snd (validate_m3u_file fs input results order) = inr (Some s) ->
     output_path s = Py.replace input ".m3u" "_validated.m3u") /\
  (forall name, input = name ++ ".m3u" -> Py.contains ".m3u" name = false ->
     Py.replace input ".m3u" "_validated.m3u" = name ++ "_validated.m3u") /\
  (Py.contains ".m3u" input = false ->
     output_file_of input = input /\
     (open_w_error fs input = None ->
        fst (validate_m3u_file fs input results order) input =
          inr (write_playlist
                 (playable_in_completion_order (snd (parse_m3u fs input)) results order)))) /\
  (forall e, open_w_error fs (output_file_of input) = Some e ->
     validate_m3u_file fs input results order = (fs, inl e)).
Proof.
  intros Hord Hne.
  rewrite (validate_m3u_file_run fs input results order Hord Hne).
  split; [| split; [| split]].
  - intros s Hs. destruct (open_write _ _ _); [discriminate Hs|].
    injection Hs as <-. reflexivity.
  - intros name -> Hc. apply replace_m3u_suffix; [exact Hc | lia].
  - intros Hc.
    assert (Hout : output_file_of input = input) by (apply replace_absent, Hc).
    split; [exact Hout|]. intros Hw. unfold open_write. rewrite Hout, Hw. simpl.
    rewrite String.eqb_refl. reflexivity.
  - intros e Hw. unfold open_write. rewrite Hw. reflexivity.
Qed.

(** ** The worker ceiling *)

Lemma set_nth_length {A} (l : list A) (i : nat) (x : A) :
  List.length (Pool.set_nth l i x) = List.length l.
Proof.
  revert i. induction l as [| y l IH]; intros [| i]; simpl; auto.
Qed.

Lemma pool_threads_bounded (max : nat) (s : Pool.State) :
  Pool.reachable max s ->
  Pool.max_workers s = max /\ List.length (Pool.threads s) <= max.
Proof.
  induction 1 as [| s s' _ [Hmax Hlen] Hstep].
  - simpl. split; [reflexivity | lia].
  - destruct Hstep as [s item | s i item rest _ _ | s i item _]; simpl.
    + unfold Pool.submit. destruct (Pool.idle_semaphore s); simpl; [|auto].
      destruct (List.length (Pool.threads s) <? Pool.max_workers s)%nat eqn:Hlt; simpl.
      * apply Nat.ltb_lt in Hlt. rewrite length_app. simpl. split; [exact Hmax | lia].
      * auto.
    + rewrite set_nth_length. auto.
    + rewrite set_nth_length. auto.
Qed.

Definition pool_busy (o : option nat) : bool :=
  match o with Some _ => true | None => false end.

Lemma pool_running_busy (s : Pool.State) :
  Pool.running s = List.length (filter pool_busy (Pool.threads s)).
Proof. reflexivity. Qed.

Lemma filter_busy_set_nth (l : list (option nat)) (i : nat) (old new : option nat) :
  nth_error l i = Some old ->
  List.length (filter pool_busy (Pool.set_nth l i new)) + (if pool_busy old then 1 else 0) =
  List.length (filter pool_busy l) + (if pool_busy new then 1 else 0).
Proof.
  revert i. induction l as [| y l IH]; intros [| i] H; simpl in H; try discriminate.
  - injection H as <-. simpl.
    destruct (pool_busy y), (pool_busy new); simpl; lia.
  - simpl. specialize (IH i H). destruct (pool_busy y); simpl; lia.
Qed.

Lemma filter_all_kept {A} (f : A -> bool) (l : list A) :
  List.length (filter f l) = List.length l -> forall x, In x l -> f x = true.
Proof.
  induction l as [| y l IH]; simpl; [tauto|].
  pose proof (filter_length_le f l) as Hle.
  destruct (f y) eqn:Hy; simpl; intros Hlen x [<- | Hx]; auto; lia.
Qed.

Lemma pool_submit_queue (s : Pool.State) (item : nat) :
  Pool.work_queue (Pool.submit s item) = (Pool.work_queue s ++ [item])%list /\
  Pool.running (Pool.submit s item) = Pool.running s.
Proof.
  unfold Pool.submit. destruct (Pool.idle_semaphore s); [|split; reflexivity].
  destruct (List.length (Pool.threads s) <? Pool.max_workers s)%nat; [|split; reflexivity].
  split; [reflexivity|]. rewrite !pool_running_busy. simpl.
  rewrite filter_app, length_app. simpl. lia.
Qed.

(** C9: at every point of a run on [ThreadPoolExecutor(max_workers=50)],
    at most [MAX_WORKERS] probes are running.  While [MAX_WORKERS] run,
    no step starts another: a [submit] only appends the probe to the work
    queue, and the only other possible step ends a running probe, which
    frees a slot.  Once a worker is idle, the probe at the head of the
    queue can be taken and starts running. *)
Theorem pool_running_bounded (s : Pool.State) :
  Pool.reachable Pool.MAX_WORKERS s ->
  Pool.running s <= Pool.MAX_WORKERS /\
  (Pool.running s = Pool.MAX_WORKERS -> forall s', Pool.step s s' ->
     (exists item, s' = Pool.submit s item /\
                   Pool.work_queue s' = (Pool.work_queue s ++ [item])%list /\
                   Pool.running s' = Pool.MAX_WORKERS) \/
     (Pool.work_queue s' = Pool.work_queue s /\
      Pool.running s' = Pool.MAX_WORKERS - 1)) /\
  (forall i item rest, nth_error (Pool.threads s) i = Some None ->
     Pool.work_queue s = item :: rest ->
     exists s', Pool.step s s' /\ Pool.work_queue s' = rest /\
                nth_error (Pool.threads s') i = Some (Some item) /\
                Pool.running s' = S (Pool.running s)).
Proof.
  intros Hr. destruct (pool_threads_bounded _ _ Hr) as [_ Hlen].
  assert (Hle : Pool.running s <= Pool.MAX_WORKERS).
  { rewrite pool_running_busy.
    pose proof (filter_length_le pool_busy (Pool.threads s)). lia. }
  split; [exact Hle | split].
  - intros Hfull s' Hstep.
    assert (Hall : forall o, In o (Pool.threads s) -> pool_busy o = true).
    { apply filter_all_kept.
      pose proof (filter_length_le pool_busy (Pool.threads s)).
      rewrite pool_running_busy in Hfull. lia. }
    destruct Hstep as [s item | s i item rest Hi _ | s i item Hi].
    + left. exists item. destruct (pool_submit_queue s item) as [Hq Hrun].
      split; [reflexivity | split; [exact Hq | rewrite Hrun; exact Hfull]].
    + exfalso. specialize (Hall None (nth_error_In _ _ Hi)). discriminate Hall.
    + right. split; [reflexivity|].
      pose proof (filter_busy_set_nth (Pool.threads s) i (Some item) None Hi) as H.
      rewrite pool_running_busy in Hfull |- *. cbn [Pool.threads pool_busy] in H |- *. lia.
  - intros i item rest Hi Hq.
    exists (Pool.mkState (Pool.max_workers s) rest (Pool.set_nth (Pool.threads s) i (Some item))
                         (Pool.idle_semaphore s) (Pool.finished s)).
    split; [exact (Pool.step_take s i item rest Hi Hq)|].
    split; [reflexivity|]. split.
    + simpl. clear -Hi. revert i Hi. induction (Pool.threads s) as [| y l IH];
        intros [| i] Hi; simpl in Hi |- *; try discriminate; auto.
    + pose proof (filter_busy_set_nth (Pool.threads s) i None (Some item) Hi) as H.
      rewrite !pool_running_busy. simpl in H |- *. lia.
Qed.

(* ================================================================== *)
(** * Witnesses: the theorems at concrete inputs *)

(** A server that rejects HEAD with 404 and serves an HLS stream on GET. *)
Definition net_hls : Net :=
  fun rq => match rq with
            | HEAD _ => inr (mkResponse 404 None)
            | GET_stream _ => inr (mkResponse 200 (Some "video/MP2T"))
            end.

Lemma is_stream_playable_decision_witness :
  net_hls (HEAD "http://a.example/live") = inr (mkResponse 404 None) /\
  is_stream_playable net_hls "http://a.example/live" = (true, "OK") /\
  requests_issued net_hls "http://a.example/live" =
    [HEAD "http://a.example/live"; GET_stream "http://a.example/live"].
Proof.
  split; [reflexivity|].
  destruct (proj1 (is_stream_playable_decision net_hls "http://a.example/live"
                     (mkResponse 404 None) eq_refl)
              (or_introl eq_refl) (mkResponse 200 (Some "video/MP2T")) eq_refl) as [H1 H2].
  split; [rewrite H1; vm_compute; reflexivity | exact H2].
Defined.

(** A [ConnectTimeout]: both a timeout and a connection error. *)
Definition connect_timeout : PyException :=
  mkExc true true "HTTPConnectionPool(host='a.example', port=80): Max retries exceeded".

Definition net_timeout : Net := fun _ => inl connect_timeout.

Lemma is_stream_playable_exceptions_witness :
  net_timeout (HEAD "http://a.example/live") = inl connect_timeout /\
  is_stream_playable net_timeout "http://a.example/live" = (false, "Timeout") /\
  requests_issued net_timeout "http://a.example/live" = [HEAD "http://a.example/live"].
Proof.
  split; [reflexivity|].
  destruct (is_stream_playable_exceptions net_timeout "http://a.example/live" connect_timeout
              (or_introl eq_refl)) as (Ht & _ & _ & Hreq).
  split; [exact (Ht eq_refl)|].
  destruct Hreq as [H | H]; [exact H | vm_compute in H; discriminate H].
Defined.

Definition fs_missing : FileSystem :=
  writable (fun _ => inl (mkExc false false "[Errno 2] No such file or directory: 'radio.m3u'")).

Lemma parse_m3u_read_error_witness :
  fs_missing "radio.m3u" = inl (mkExc false false "[Errno 2] No such file or directory: 'radio.m3u'") /\
  parse_m3u fs_missing "radio.m3u" =
    (["Error reading file: [Errno 2] No such file or directory: 'radio.m3u'"], []).
Proof.
  split; [reflexivity|].
  exact (parse_m3u_read_error fs_missing "radio.m3u" _ eq_refl).
Defined.

Lemma write_parse_write_witness :
  Forall entry_wf (snd (parse_m3u fs_two "radio.m3u")) /\
  write_playlist (snd (parse_m3u (write_file fs_two "radio_validated.m3u"
                                    (write_playlist (snd (parse_m3u fs_two "radio.m3u"))))
                                 "radio_validated.m3u")) =
  write_playlist (snd (parse_m3u fs_two "radio.m3u")).
Proof.
  split; [apply parse_m3u_wf|].
  exact (proj2 (write_parse_write fs_two "radio_validated.m3u" _ (parse_m3u_wf fs_two "radio.m3u"))).
Defined.

Lemma two_entries_completion :
  completion_order (List.length (snd (parse_m3u fs_two "radio.m3u"))) [1; 0].
Proof. vm_compute. apply perm_swap. Qed.

Lemma two_entries_nonempty : snd (parse_m3u fs_two "radio.m3u") <> [].
Proof. vm_compute. discriminate. Qed.

Lemma validate_output_entries_witness :
  completion_order (List.length (snd (parse_m3u fs_two "radio.m3u"))) [1; 0] /\
  open_w_error fs_two (output_file_of "radio.m3u") = None /\
  fst (validate_m3u_file fs_two "radio.m3u" all_ok [1; 0]) "radio_validated.m3u" =
    inr (write_playlist (playable_in_completion_order (snd (parse_m3u fs_two "radio.m3u"))
                           all_ok [1; 0])).
Proof.
  split; [vm_compute; apply perm_swap | split; [reflexivity|]].
  exact (proj1 (validate_output_entries fs_two "radio.m3u" all_ok [1; 0]
                  two_entries_completion two_entries_nonempty eq_refl)).
Defined.

(** Three entries: the first probe returns playable, the second returns
    not playable, the third raises; they complete third, first, second. *)
Definition three_entry_text : string :=
  two_entry_text ++ "#EXTINF:-1,Gamma" ++ NL ++ "http://c.example/live" ++ NL.

Definition fs_three : FileSystem := writable (fun _ => inr three_entry_text).

Definition mixed_results : nat -> TaskResult :=
  fun i => match i with
           | 0 => Returned (true, "OK")
           | 1 => Returned (false, "Status: 404")
           | _ => Raised connect_timeout
           end.

Lemma validate_counts_complete_witness :
  completion_order (List.length (snd (parse_m3u fs_three "radio.m3u"))) [2; 0; 1] /\
  validate_m3u_file fs_three "radio.m3u" mixed_results [2; 0; 1] =
    (fst (validate_m3u_file fs_three "radio.m3u" mixed_results [2; 0; 1]),
     inr (Some (mkSummary 3 1 2 "radio_validated.m3u"))) /\
  working_streams (mkSummary 3 1 2 "radio_validated.m3u") +
  dead_streams (mkSummary 3 1 2 "radio_validated.m3u") =
  total_streams (mkSummary 3 1 2 "radio_validated.m3u").
Proof.
  assert (Hord : completion_order (List.length (snd (parse_m3u fs_three "radio.m3u"))) [2; 0; 1]).
  { vm_compute. apply (perm_trans (perm_swap 0 2 [1])), perm_skip, perm_swap. }
  assert (Hrun : validate_m3u_file fs_three "radio.m3u" mixed_results [2; 0; 1] =
                 (fst (validate_m3u_file fs_three "radio.m3u" mixed_results [2; 0; 1]),
                  inr (Some (mkSummary 3 1 2 "radio_validated.m3u")))) by reflexivity.
  split; [exact Hord | split; [exact Hrun|]].
  exact (validate_counts_complete fs_three "radio.m3u" mixed_results [2; 0; 1] _ _ Hord Hrun).
Defined.

(** [open(path, 'w')] refused everywhere. *)
Definition permission_denied : PyException :=
  mkExc false false "[Errno 13] Permission denied: 'radio_validated.m3u'".

Definition fs_two_readonly : FileSystem :=
  mkFileSystem (fun _ => inr two_entry_text) (fun _ => Some permission_denied).

Lemma validate_output_path_witness :
  completion_order (List.length (snd (parse_m3u fs_two "radio.txt"))) [1; 0] /\
  output_file_of "radio.txt" = "radio.txt" /\
  fst (validate_m3u_file fs_two "radio.txt" all_ok [1; 0]) "radio.txt" =
    inr (write_playlist (playable_in_completion_order (snd (parse_m3u fs_two "radio.txt"))
                           all_ok [1; 0])) /\
  validate_m3u_file fs_two_readonly "radio.m3u" all_ok [1; 0] =
    (fs_two_readonly, inl permission_denied).
Proof.
  assert (Hord : completion_order (List.length (snd (parse_m3u fs_two "radio.txt"))) [1; 0])
    by (vm_compute; apply perm_swap).
  assert (Hne : snd (parse_m3u fs_two "radio.txt") <> []) by (vm_compute; discriminate).
  destruct (validate_output_path fs_two "radio.txt" all_ok [1; 0] Hord Hne)
    as (_ & _ & H3 & _).
  destruct (H3 eq_refl) as [Hout Hfile].
  split; [exact Hord | split; [exact Hout | split; [exact (Hfile eq_refl)|]]].
  assert (Hord' : completion_order (List.length (snd (parse_m3u fs_two_readonly "radio.m3u")))
                    [1; 0]) by (vm_compute; apply perm_swap).
  assert (Hne' : snd (parse_m3u fs_two_readonly "radio.m3u") <> []) by (vm_compute; discriminate).
  destruct (validate_output_path fs_two_readonly "radio.m3u" all_ok [1; 0] Hord' Hne')
    as (_ & _ & _ & H4).
  exact (H4 permission_denied eq_refl).
Defined.

(** [k] probes submitted one at a time, each taken by a new worker. *)
Definition pool_filled (k : nat) : Pool.State :=
  Pool.mkState Pool.MAX_WORKERS [] (map Some (seq 0 k)) 0 [].

Lemma set_nth_last {A} (l : list A) (x y : A) :
  Pool.set_nth (l ++ [y])%list (List.length l) x = (l ++ [x])%list.
Proof. induction l as [| z l IH]; simpl; [reflexivity | rewrite IH; reflexivity]. Qed.

Lemma pool_filled_reachable (k : nat) :
  k <= Pool.MAX_WORKERS -> Pool.reachable Pool.MAX_WORKERS (pool_filled k).
Proof.
  induction k as [| k IH]; intros Hk; [apply Pool.reach_init|].
  assert (Hsub : Pool.submit (pool_filled k) k =
                 Pool.mkState Pool.MAX_WORKERS [k] (map Some (seq 0 k) ++ [None])%list 0 []).
  { unfold Pool.submit. cbn [Pool.idle_semaphore pool_filled Pool.threads Pool.max_workers].
    rewrite length_map, length_seq.
    replace (k <? Pool.MAX_WORKERS)%nat with true by (symmetry; apply Nat.ltb_lt; lia).
    reflexivity. }
  assert (Hfill : pool_filled (S k) =
                  Pool.mkState (Pool.max_workers (Pool.submit (pool_filled k) k)) []
                    (Pool.set_nth (Pool.threads (Pool.submit (pool_filled k) k)) k (Some k))
                    (Pool.idle_semaphore (Pool.submit (pool_filled k) k))
                    (Pool.finished (Pool.submit (pool_filled k) k))).
  { rewrite Hsub. cbn [Pool.max_workers Pool.threads Pool.idle_semaphore Pool.finished].
    unfold pool_filled. rewrite seq_S, map_app. simpl (map Some [0 + k]).
    pose proof (set_nth_last (map Some (seq 0 k)) (Some k) None) as E.
    rewrite length_map, length_seq in E. rewrite E. reflexivity. }
  rewrite Hfill.
  apply (Pool.reach_step _ (Pool.submit (pool_filled k) k)).
  - apply (Pool.reach_step _ (pool_filled k)); [apply IH; lia | apply Pool.step_submit].
  - apply Pool.step_take with (rest := []).
    + rewrite Hsub. cbn [Pool.threads]. rewrite nth_error_app2; rewrite length_map, length_seq;
        [rewrite Nat.sub_diag; reflexivity | lia].
    + rewrite Hsub. reflexivity.
Qed.

(** All [MAX_WORKERS] workers busy, and the next probe queued. *)
Definition pool_ceiling : Pool.State := Pool.submit (pool_filled Pool.MAX_WORKERS) 50.

(** The first probe finished; its worker is idle and the queue still
    holds the waiting probe. *)
Definition pool_freed : Pool.State :=
  Pool.mkState Pool.MAX_WORKERS [50] (None :: map Some (seq 1 49)) 1 [0].

Lemma pool_running_bounded_witness :
  Pool.reachable Pool.MAX_WORKERS pool_ceiling /\
  Pool.running pool_ceiling = Pool.MAX_WORKERS /\
  Pool.work_queue pool_ceiling = [50] /\
  Pool.running (Pool.submit pool_ceiling 51) = Pool.MAX_WORKERS /\
  Pool.reachable Pool.MAX_WORKERS pool_freed /\
  Pool.running pool_freed = Pool.MAX_WORKERS - 1 /\
  exists s', Pool.step pool_freed s' /\ Pool.work_queue s' = [] /\
             nth_error (Pool.threads s') 0 = Some (Some 50) /\
             Pool.running s' = Pool.MAX_WORKERS.
Proof.
  assert (Hc : Pool.reachable Pool.MAX_WORKERS pool_ceiling).
  { apply (Pool.reach_step _ (pool_filled Pool.MAX_WORKERS)).
    - apply pool_filled_reachable. lia.
    - apply Pool.step_submit. }
  assert (Hfull : Pool.running pool_ceiling = Pool.MAX_WORKERS) by (vm_compute; reflexivity).
  destruct (pool_running_bounded pool_ceiling Hc) as (_ & Hq & _).
  split; [exact Hc | split; [exact Hfull | split; [vm_compute; reflexivity|]]].
  split.
  - destruct (Hq Hfull _ (Pool.step_submit pool_ceiling 51)) as [(item & _ & _ & H) | (_ & H)];
      [exact H | vm_compute in H; discriminate H].
  - assert (Hf : Pool.reachable Pool.MAX_WORKERS pool_freed).
    { apply (Pool.reach_step _ pool_ceiling); [exact Hc|].
      exact (Pool.step_finish pool_ceiling 0 0 eq_refl). }
    split; [exact Hf | split; [vm_compute; reflexivity|]].
    destruct (pool_running_bounded pool_freed Hf) as (_ & _ & Ht).
    destruct (Ht 0 50 [] eq_refl eq_refl) as (s' & Hs & Hw & Hn & Hr).
    exists s'. split; [exact Hs | split; [exact Hw | split; [exact Hn|]]].
    rewrite Hr. vm_compute. reflexivity.
Defined.

(* ================================================================== *)
(** * Further properties of [validate_m3u.py] *)

(** A file made of the given lines, each ended by "\n". *)
Definition text_of_lines (ls : list string) : string := cat (map (fun l => l ++ NL) ls).

(** The same lines ended by "\r\n" (Windows) and by "\r" (classic Mac). *)
Definition CRLF : string := String CR NL.
Definition text_of_lines_crlf (ls : list string) : string := cat (map (fun l => l ++ CRLF) ls).
Definition text_of_lines_cr (ls : list string) : string :=
  cat (map (fun l => l ++ String CR EmptyString) ls).

Definition no_break (l : string) : Prop := has_char LF l = false /\ has_char CR l = false.

Lemma parse_step_nl (st : list Entry * Pending) (l : string) :
  parse_step st (l ++ NL) = parse_step st l.
Proof. destruct st as [es cur]. unfold parse_step. rewrite strip_app_nl. reflexivity. Qed.

Lemma fold_parse_nl (ls : list string) (st : list Entry * Pending) :
  fold_left parse_step (map (fun l => l ++ NL) ls) st = fold_left parse_step ls st.
Proof.
  revert st. induction ls as [| l ls IH]; intros st; [reflexivity|].
  cbn [map fold_left]. rewrite parse_step_nl. apply IH.
Qed.

(** Reading a file of break-free lines gives back those lines. *)
Lemma parse_m3u_lines (fs : FileSystem) (path : string) (ls : list string) :
  Forall no_break ls -> fs path = inr (text_of_lines ls) ->
  snd (parse_m3u fs path) = parse_lines ls.
Proof.
  intros Hls Hfs. unfold parse_m3u. rewrite Hfs. simpl.
  unfold text_of_lines. rewrite readlines_lines by exact Hls.
  unfold parse_lines. rewrite fold_parse_nl. reflexivity.
Qed.

Lemma prefix_both (p q s : string) :
  String.prefix p s = true -> String.prefix q s = true ->
  String.prefix p q = true \/ String.prefix q p = true.
Proof.
  revert p q. induction s as [| c s IH]; intros p q Hp Hq.
  - destruct p; [left; destruct q; reflexivity | discriminate].
  - destruct p as [| a p]; [left; destruct q; reflexivity|].
    destruct q as [| b q]; [right; reflexivity|].
    simpl in Hp, Hq.
    destruct (Ascii.ascii_dec a c) as [<- |]; [|discriminate].
    destruct (Ascii.ascii_dec b a) as [<- |]; [|discriminate].
    simpl. destruct (Ascii.ascii_dec b b); [|congruence]. apply IH; assumption.
Qed.

Lemma m3u_header_not_extinf (s : string) :
  Py.startswith s "#EXTM3U" = true -> Py.startswith s "#EXTINF" = false.
Proof.
  intros Hm. destruct (Py.startswith s "#EXTINF") eqn:Hi; [|reflexivity].
  destruct (prefix_both _ _ _ Hm Hi) as [H | H]; vm_compute in H; discriminate H.
Qed.

(** Blank lines and "#EXTM3U" lines leave the parser state as it was. *)
Lemma parse_step_skip (st : list Entry * Pending) (raw : string) :
  Py.strip raw = "" \/ Py.startswith (Py.strip raw) "#EXTM3U" = true ->
  parse_step st raw = st.
Proof.
  destruct st as [es cur]. intros [Hb | Hm]; unfold parse_step.
  - rewrite Hb. reflexivity.
  - destruct (String.eqb (Py.strip raw) ""); [reflexivity|].
    rewrite (m3u_header_not_extinf _ Hm).
    assert (Hh : Py.startswith (Py.strip raw) "#" = true).
    { change "#EXTM3U" with ("#" ++ "EXTM3U") in Hm. exact (startswith_app _ _ _ Hm). }
    rewrite Hh, Hm. reflexivity.
Qed.

(** X: inserting a blank (or whitespace-only) line or an "#EXTM3U" line
    anywhere in a playlist does not change what [parse_m3u] returns. *)
Theorem parse_m3u_ignores_blank_and_header (fs : FileSystem) (path : string)
    (before after : list string) (extra : string) :
  Forall no_break (before ++ extra :: after) ->
  Py.strip extra = "" \/ Py.startswith (Py.strip extra) "#EXTM3U" = true ->
  snd (parse_m3u (write_file fs path (text_of_lines (before ++ extra :: after))) path) =
  snd (parse_m3u (write_file fs path (text_of_lines (before ++ after))) path).
Proof.
  intros Hall Hskip.
  assert (Hall' : Forall no_break (before ++ after)).
  { apply Forall_app in Hall as [Hb Ha]. inversion Ha; subst.
    apply Forall_app; split; assumption. }
  rewrite !read_written. unfold snd, text_of_lines.
  rewrite !readlines_lines by assumption.
  unfold parse_lines. rewrite !fold_parse_nl, !fold_left_app. cbn [fold_left].
  rewrite parse_step_skip by exact Hskip. reflexivity.
Qed.

(** Lines of the kinds [parse_m3u] distinguishes, already stripped. *)
Definition tag_line (t : string) : Prop :=
  clean_line t /\ Py.startswith t "#" = true /\
  Py.startswith t "#EXTINF" = false /\ Py.startswith t "#EXTM3U" = false.

Definition extinf_line (x : string) : Prop :=
  clean_line x /\ Py.startswith x "#EXTINF" = true.

Definition url_line (u : string) : Prop :=
  clean_line u /\ Py.startswith u "#" = false.

Lemma clean_no_break (l : string) : clean_line l -> no_break l.
Proof. intros (_ & _ & ? & ?). split; assumption. Qed.

Lemma clean_nonempty (l : string) : clean_line l -> String.eqb l "" = false.
Proof. intros (_ & H & _). apply String.eqb_neq. exact H. Qed.

Lemma not_hash_not_extinf (s : string) :
  Py.startswith s "#" = false -> Py.startswith s "#EXTINF" = false.
Proof.
  intros H. destruct (Py.startswith s "#EXTINF") eqn:E; [|reflexivity].
  change "#EXTINF" with ("#" ++ "EXTINF") in E. apply startswith_app in E. congruence.
Qed.

Lemma parse_tag_lines (es : list Entry) (cur : Pending) (ts : list string) :
  Forall tag_line ts ->
  fold_left parse_step ts (es, cur) =
  (es, mkPending (p_extinf cur)
         (match ts with
          | [] => p_tags cur
          | _ => Some ((match p_tags cur with Some l => l | None => [] end) ++ ts)%list
          end) (p_url cur)).
Proof.
  revert cur. induction ts as [| t ts IH]; intros cur Hts.
  - destruct cur; reflexivity.
  - inversion Hts as [| ? ? Ht Hts']; subst.
    destruct Ht as (Hcl & Hhash & Hinf & Hm3u).
    assert (Hstep : parse_step (es, cur) t =
                    (es, mkPending (p_extinf cur)
                           (Some ((match p_tags cur with Some l => l | None => [] end) ++ [t])%list)
                           (p_url cur))).
    { unfold parse_step. pose proof Hcl as [Hs _].
      rewrite Hs, (clean_nonempty _ Hcl), Hinf, Hhash, Hm3u. reflexivity. }
    cbn [fold_left]. rewrite Hstep, IH by exact Hts'. simpl.
    destruct ts as [| t2 ts]; [reflexivity|].
    rewrite <- app_assoc. reflexivity.
Qed.

Lemma parse_m3u_written_lines (fs : FileSystem) (path : string) (ls : list string) :
  Forall no_break ls ->
  snd (parse_m3u (write_file fs path (text_of_lines ls)) path) = parse_lines ls.
Proof.
  intros H. rewrite read_written. unfold snd, text_of_lines.
  rewrite readlines_lines by exact H. unfold parse_lines. rewrite fold_parse_nl. reflexivity.
Qed.

Lemma parse_step_extinf (es : list Entry) (cur : Pending) (x : string) :
  extinf_line x ->
  parse_step (es, cur) x = (es, mkPending (Some x) (p_tags cur) (p_url cur)).
Proof.
  intros [Hx Hxi]. pose proof Hx as [Hxs _]. unfold parse_step.
  rewrite Hxs, (clean_nonempty _ Hx), Hxi. reflexivity.
Qed.

Lemma parse_step_url (es : list Entry) (cur : Pending) (u : string) :
  url_line u ->
  parse_step (es, cur) u =
  match p_extinf cur with
  | Some x => ((es ++ [mkEntry x (p_tags cur) u])%list, empty_pending)
  | None => (es, empty_pending)
  end.
Proof.
  intros [Hu Hun]. pose proof Hu as [Hus _]. unfold parse_step.
  rewrite Hus, (clean_nonempty _ Hu), (not_hash_not_extinf _ Hun), Hun. reflexivity.
Qed.

(** X: tag lines are collected whether they come before or after the
    "#EXTINF" line: all tags seen since the last URL line go into the
    entry, in file order. *)
Theorem parse_m3u_tags_around_extinf (fs : FileSystem) (path : string)
    (ts1 ts2 : list string) (x u : string) :
  Forall tag_line (ts1 ++ ts2)%list -> extinf_line x -> url_line u -> (ts1 ++ ts2 <> [])%list ->
  snd (parse_m3u (write_file fs path (text_of_lines (ts1 ++ x :: ts2 ++ [u])%list)) path) =
  [mkEntry x (Some (ts1 ++ ts2)%list) u].
Proof.
  intros Hts [Hx Hxi] [Hu Hun] Hne.
  apply Forall_app in Hts as [Ht1 Ht2].
  rewrite parse_m3u_written_lines.
  2:{ apply Forall_app. split.
      - eapply Forall_impl; [|exact Ht1]. intros t [Hc _]. exact (clean_no_break _ Hc).
      - constructor; [exact (clean_no_break _ Hx)|].
        apply Forall_app. split.
        + eapply Forall_impl; [|exact Ht2]. intros t [Hc _]. exact (clean_no_break _ Hc).
        + constructor; [exact (clean_no_break _ Hu) | constructor]. }
  unfold parse_lines. rewrite fold_left_app, parse_tag_lines by exact Ht1.
  cbn [fold_left]. rewrite parse_step_extinf by (split; assumption).
  rewrite fold_left_app, parse_tag_lines by exact Ht2. cbn [fold_left p_extinf p_tags p_url].
  rewrite parse_step_url by (split; assumption). simpl.
  destruct ts1 as [| t1 ts1]; destruct ts2 as [| t2 ts2];
    try (exfalso; apply Hne; reflexivity); simpl; rewrite ?app_nil_r; reflexivity.
Qed.

(** X: of two consecutive "#EXTINF" lines only the second counts: the
    first is overwritten before any URL line can use it. *)
Theorem parse_m3u_extinf_overwritten (fs : FileSystem) (path : string)
    (before after : list string) (x1 x2 : string) :
  Forall no_break (before ++ x1 :: x2 :: after)%list ->
  Py.startswith (Py.strip x1) "#EXTINF" = true ->
  Py.startswith (Py.strip x2) "#EXTINF" = true ->
  snd (parse_m3u (write_file fs path (text_of_lines (before ++ x1 :: x2 :: after)%list)) path) =
  snd (parse_m3u (write_file fs path (text_of_lines (before ++ x2 :: after)%list)) path).
Proof.
  intros Hall H1 H2.
  assert (Hall' : Forall no_break (before ++ x2 :: after)%list).
  { apply Forall_app in Hall as [Hb Ha]. inversion Ha; subst.
    apply Forall_app; split; assumption. }
  rewrite !parse_m3u_written_lines by assumption.
  unfold parse_lines. rewrite !fold_left_app. cbn [fold_left].
  destruct (fold_left parse_step before ([], empty_pending)) as [es cur].
  assert (Hstep : forall es cur raw, Py.startswith (Py.strip raw) "#EXTINF" = true ->
            parse_step (es, cur) raw = (es, mkPending (Some (Py.strip raw)) (p_tags cur) (p_url cur))).
  { intros es' cur' raw Hr. unfold parse_step.
    destruct (Py.strip raw) as [| c r]; [discriminate|]. simpl String.eqb.
    rewrite Hr. reflexivity. }
  rewrite (Hstep _ _ x1 H1), !(Hstep _ _ x2 H2). reflexivity.
Qed.

Lemma universal_newlines_crlf (l rest : string) :
  has_char CR l = false ->
  universal_newlines (l ++ CRLF ++ rest) = l ++ NL ++ universal_newlines rest.
Proof.
  induction l as [| c l IH]; intros H.
  - reflexivity.
  - simpl in H. apply orb_false_iff in H as [Hc Hl].
    change (String c l ++ CRLF ++ rest) with (String c (l ++ CRLF ++ rest)).
    cbn [universal_newlines]. rewrite Hc, IH by exact Hl. reflexivity.
Qed.

Lemma universal_newlines_cr (l rest : string) :
  has_char CR l = false ->
  (forall d r, rest = String d r -> Ascii.eqb d LF = false) ->
  universal_newlines (l ++ String CR rest) = l ++ NL ++ universal_newlines rest.
Proof.
  induction l as [| c l IH]; intros H Hr.
  - simpl. destruct rest as [| d r]; [reflexivity|].
    unfold LF in Hr. rewrite (Hr d r eq_refl). reflexivity.
  - simpl in H. apply orb_false_iff in H as [Hc Hl].
    change (String c l ++ String CR rest) with (String c (l ++ String CR rest)).
    cbn [universal_newlines]. rewrite Hc, IH by assumption. reflexivity.
Qed.

Lemma universal_newlines_cat_nl (ls : list string) :
  Forall no_break ls -> universal_newlines (text_of_lines ls) = text_of_lines ls.
Proof.
  intros H. apply universal_newlines_id. unfold text_of_lines.
  induction H as [| l ls [_ Hcr] _ IH]; [reflexivity|].
  simpl. rewrite !has_char_app, Hcr, IH. reflexivity.
Qed.

Lemma universal_newlines_cat_crlf (ls : list string) :
  Forall no_break ls -> universal_newlines (text_of_lines_crlf ls) = text_of_lines ls.
Proof.
  intros H. unfold text_of_lines_crlf, text_of_lines.
  induction H as [| l ls [_ Hcr] _ IH]; [reflexivity|].
  simpl. rewrite str_app_assoc, universal_newlines_crlf by exact Hcr.
  rewrite IH, str_app_assoc. reflexivity.
Qed.

Lemma universal_newlines_cat_cr (ls : list string) :
  Forall no_break ls -> universal_newlines (text_of_lines_cr ls) = text_of_lines ls.
Proof.
  intros H. unfold text_of_lines_cr, text_of_lines.
  induction H as [| l ls [_ Hcr] Hls IH]; [reflexivity|].
  simpl. rewrite str_app_assoc. simpl.
  rewrite universal_newlines_cr; [| exact Hcr |].
  - rewrite IH, str_app_assoc. reflexivity.
  - intros d r Hdr. destruct ls as [| l2 ls]; [discriminate|].
    inversion Hls as [| ? ? [Hlf2 Hcr2] _]; subst.
    destruct l2 as [| c2 l2]; simpl in Hdr.
    + injection Hdr as <- _. reflexivity.
    + injection Hdr as <- _. simpl in Hlf2. apply orb_false_iff in Hlf2 as [Hc2 _].
      exact Hc2.
Qed.

(** X: line endings do not matter: a playlist saved with Windows ("\r\n")
    or classic Mac ("\r") line endings parses to the same entries as with
    "\n" (text-mode reading translates all three). *)
Theorem parse_m3u_line_endings (fs : FileSystem) (path : string) (ls : list string) :
  Forall no_break ls ->
  snd (parse_m3u (write_file fs path (text_of_lines_crlf ls)) path) =
    snd (parse_m3u (write_file fs path (text_of_lines ls)) path) /\
  snd (parse_m3u (write_file fs path (text_of_lines_cr ls)) path) =
    snd (parse_m3u (write_file fs path (text_of_lines ls)) path).
Proof.
  intros H. rewrite !read_written. unfold snd, readlines.
  rewrite universal_newlines_cat_crlf, universal_newlines_cat_cr,
    universal_newlines_cat_nl by exact H.
  split; reflexivity.
Qed.

Lemma spec_classification_true (r : Response) :
  fst (spec_classification r) = true ->
  (status_code r < 400)%Z /\
  exists v, content_type_header r = Some v /\
            existsb (fun t => Py.contains t (Py.lower v)) valid_types = true.
Proof.
  unfold spec_classification. destruct (status_code r >=? 400)%Z eqn:Hs; [discriminate|].
  intros H. split; [rewrite Z.geb_leb in Hs; apply Z.leb_gt in Hs; lia|].
  destruct (content_type_header r) as [v|].
  - exists v. split; [reflexivity|]. simpl existsb. rewrite orb_false_r.
    destruct (Py.contains "audio" (Py.lower v)), (Py.contains "ogg" (Py.lower v)),
      (Py.contains "video/mp2t" (Py.lower v)),
      (Py.contains "application/octet-stream" (Py.lower v)); try reflexivity.
    destruct (Py.contains "text/html" _); discriminate.
  - vm_compute in H. discriminate.
Qed.

(** X: a stream is reported playable only on the evidence of a final
    response (the header-only one, or the streamed fetch that replaced a
    404/405) whose status is below 400 and which carries a Content-Type
    header containing one of the accepted media types; a response
    without a Content-Type header is never accepted. *)
Theorem is_stream_playable_true_evidence (net : Net) (u : string) :
  fst (is_stream_playable net u) = true ->
  exists r v,
    ((net (HEAD u) = inr r /\ status_code r <> 404%Z /\ status_code r <> 405%Z) \/
     (exists h, net (HEAD u) = inr h /\ (status_code h = 404 \/ status_code h = 405)%Z /\
                net (GET_stream u) = inr r)) /\
    (status_code r < 400)%Z /\ content_type_header r = Some v /\
    existsb (fun t => Py.contains t (Py.lower v)) valid_types = true.
Proof.
  unfold is_stream_playable.
  destruct (is_stream_playable_try_cases net u)
    as [(e & _ & Ht) | [(h & Hh & Hesc & Ht) | (h & Hh & Hesc & [(e & _ & Ht) | (g & Hg & Ht)])]];
    rewrite Ht; simpl.
  - unfold handle_exception. destruct (exc_is_timeout e), (exc_is_connection_error e); discriminate.
  - intros Hok. destruct (spec_classification_true h Hok) as (Hs & v & Hv & Hex).
    exists h, v. split; [|auto].
    left. apply orb_false_iff in Hesc as [H5 H4]. apply Z.eqb_neq in H4, H5. auto.
  - unfold handle_exception. destruct (exc_is_timeout e), (exc_is_connection_error e); discriminate.
  - intros Hok. destruct (spec_classification_true g Hok) as (Hs & v & Hv & Hex).
    exists g, v. split; [|auto].
    right. exists h. split; [exact Hh | split; [|exact Hg]].
    apply orb_true_iff in Hesc as [H5 | H4]; apply Z.eqb_eq in H4 || apply Z.eqb_eq in H5; auto.
Qed.

(** The same network with every Content-Type header lower-cased. *)
Definition lowercase_headers (net : Net) : Net :=
  fun rq => match net rq with
            | inl e => inl e
            | inr r => inr (mkResponse (status_code r) (option_map Py.lower (content_type_header r)))
            end.

Lemma lower_char_idem (c : ascii) : Py.lower_char (Py.lower_char c) = Py.lower_char c.
Proof.
  unfold Py.lower_char.
  destruct ((65 <=? nat_of_ascii c)%nat && (nat_of_ascii c <=? 90)%nat) eqn:H.
  - apply andb_true_iff in H as [H1 H2]. apply Nat.leb_le in H1, H2.
    rewrite nat_ascii_embedding by lia.
    replace ((65 <=? nat_of_ascii c + 32)%nat && (nat_of_ascii c + 32 <=? 90)%nat) with false.
    + reflexivity.
    + symmetry. apply andb_false_iff. right. apply Nat.leb_gt. lia.
  - rewrite H. reflexivity.
Qed.

Lemma lower_idem (s : string) : Py.lower (Py.lower s) = Py.lower s.
Proof. induction s as [| c s IH]; simpl; [reflexivity | rewrite lower_char_idem, IH; reflexivity]. Qed.

Lemma spec_classification_lower (r : Response) :
  spec_classification (mkResponse (status_code r) (option_map Py.lower (content_type_header r))) =
  spec_classification r.
Proof.
  unfold spec_classification. simpl.
  destruct (content_type_header r) as [v|]; simpl; [rewrite lower_idem|]; reflexivity.
Qed.

(** X: the media-type check ignores letter case: lower-casing every
    Content-Type header the network sends changes neither the verdict nor
    the reason, nor the requests made. *)
Theorem is_stream_playable_case_insensitive (net : Net) (u : string) :
  is_stream_playable (lowercase_headers net) u = is_stream_playable net u /\
  requests_issued (lowercase_headers net) u = requests_issued net u.
Proof.
  unfold is_stream_playable, requests_issued.
  rewrite !is_stream_playable_try_unfold. unfold send, bind, lowercase_headers.
  destruct (net (HEAD u)) as [e | h]; [split; reflexivity|]. simpl.
  destruct ((status_code h =? 405)%Z || (status_code h =? 404)%Z).
  - destruct (net (GET_stream u)) as [e | g]; [split; reflexivity|].
    rewrite !classify_step_spec, spec_classification_lower. split; reflexivity.
  - simpl. rewrite !classify_step_spec, spec_classification_lower. split; reflexivity.
Qed.

(** X: when the input cannot be read, or holds no URL line preceded by an
    "#EXTINF" line, [validate_m3u_file] returns before probing anything:
    no file is written and no summary is printed. *)
Theorem validate_m3u_file_nothing_to_do (fs : FileSystem) (input : string)
    (results : nat -> TaskResult) (order : list nat) :
  (exists e, fs input = inl e) \/
  (exists text, fs input = inr text /\ urls_after_extinf false (readlines text) = 0) ->
  validate_m3u_file fs input results order = (fs, inr None).
Proof.
  intros Hin.
  assert (Hnil : snd (parse_m3u fs input) = []).
  { unfold parse_m3u. destruct Hin as [(e & He) | (text & Ht & H0)].
    - rewrite He. reflexivity.
    - rewrite Ht. simpl. apply length_zero_iff_nil.
      unfold parse_lines. rewrite parse_fold_length. simpl. exact H0. }
  unfold validate_m3u_file. rewrite Hnil. reflexivity.
Qed.

Lemma playable_in_completion_order_incl (entries : list Entry) (results : nat -> TaskResult)
    (order : list nat) :
  forall e, In e (playable_in_completion_order entries results order) -> In e entries.
Proof.
  intros e Hin. unfold playable_in_completion_order in Hin.
  apply in_flat_map in Hin as (i & _ & Hi).
  destruct (is_playable (results i)); [|destruct Hi].
  destruct (nth_error entries i) as [e'|] eqn:He; [|destruct Hi].
  destruct Hi as [<- | []]. exact (nth_error_In _ _ He).
Qed.

(** X: when the output file can be opened, reading the validated
    playlist back with [parse_m3u] gives exactly the playable entries, in
    completion order, each with the same "#EXTINF" line, tags and URL as
    in the input. *)
Theorem validate_output_reparses (fs : FileSystem) (input : string)
    (results : nat -> TaskResult) (order : list nat) :
  completion_order (List.length (snd (parse_m3u fs input))) order ->
  snd (parse_m3u fs input) <> [] ->
  open_w_error fs (output_file_of input) = None ->
  snd (parse_m3u (fst (validate_m3u_file fs input results order)) (output_file_of input)) =
  map normalize_entry (playable_in_completion_order (snd (parse_m3u fs input)) results order).
Proof.
  intros Hord Hne Hw.
  rewrite (validate_m3u_file_run fs input results order Hord Hne).
  unfold open_write. rewrite Hw. simpl fst.
  rewrite read_written. simpl snd. apply parse_written.
  apply Forall_forall. intros e Hin.
  apply playable_in_completion_order_incl in Hin.
  exact (proj1 (Forall_forall _ _) (parse_m3u_wf fs input) e Hin).
Qed.

(** The progress report of the [as_completed] loop: after
    [completed += 1], [print(f"Progress: {completed}/{total} ...")] when
    [completed % 50 == 0].  A printed line is recorded as the pair
    [(completed, total)] (the percentage is a float rendering of it). *)
Definition progress_step (entries : list Entry) (results : nat -> TaskResult) (total : nat)
    (st : (list Entry * nat * nat) * list (nat * nat)) (future : nat)
    : (list Entry * nat * nat) * list (nat * nat) :=
  let '(loop, log) := st in
  let loop' := run_step entries results loop future in
  let '(_, _, completed) := loop' in
  (loop', if (completed mod 50 =? 0)%nat then (log ++ [(completed, total)])%list else log).

Definition run_futures_progress (entries : list Entry) (results : nat -> TaskResult)
    (order : list nat) : (list Entry * nat * nat) * list (nat * nat) :=
  fold_left (progress_step entries results (List.length entries)) order (([], 0, 0), []).

Lemma run_step_completed (entries : list Entry) (results : nat -> TaskResult)
    (v : list Entry) (d c f : nat) :
  exists v' d', run_step entries results (v, d, c) f = (v', d', S c).
Proof.
  unfold run_step. destruct (results f) as [[b r] | e].
  - destruct b; [destruct (nth_error entries f)|]; eauto.
  - eauto.
Qed.

Lemma progress_fold (entries : list Entry) (results : nat -> TaskResult) (total : nat)
    (order : list nat) (v : list Entry) (d c : nat) (log : list (nat * nat)) :
  fold_left (progress_step entries results total) order ((v, d, c), log) =
  (fold_left (run_step entries results) order (v, d, c),
   (log ++ map (fun k => (k, total))
              (filter (fun k => (k mod 50 =? 0)%nat) (seq (S c) (List.length order))))%list).
Proof.
  revert v d c log. induction order as [| f order IH]; intros v d c log.
  - simpl. rewrite app_nil_r. reflexivity.
  - cbn [fold_left]. unfold progress_step at 2.
    destruct (run_step_completed entries results v d c f) as (v' & d' & Hs).
    rewrite Hs, IH. f_equal. cbn [List.length seq filter].
    destruct (S c mod 50 =? 0)%nat; simpl; rewrite <- ?app_assoc; reflexivity.
Qed.

Lemma multiples_of_50 (n : nat) :
  filter (fun k => (k mod 50 =? 0)%nat) (seq 1 n) = map (fun k => 50 * k) (seq 1 (n / 50)).
Proof.
  induction n as [| n IH]; [reflexivity|].
  rewrite seq_S, filter_app, IH. cbn [filter]. change (1 + n) with (S n).
  pose proof (Nat.div_mod_eq n 50) as Hn. pose proof (Nat.mod_upper_bound n 50 ltac:(lia)) as Hn'.
  pose proof (Nat.div_mod_eq (S n) 50) as Hs.
  pose proof (Nat.mod_upper_bound (S n) 50 ltac:(lia)) as Hs'.
  destruct (S n mod 50 =? 0)%nat eqn:Hm.
  - apply Nat.eqb_eq in Hm.
    replace (S n / 50) with (S (n / 50)) by lia.
    rewrite seq_S, map_app. cbn [map]. f_equal. f_equal. f_equal. lia.
  - apply Nat.eqb_neq in Hm.
    replace (S n / 50) with (n / 50) by lia. apply app_nil_r.
Qed.

(** X: the loop prints a progress line exactly when the number of
    completed probes reaches a multiple of 50: for [n] probes it prints
    [n / 50] lines, at 50, 100, ..., each against the total number of
    entries; the report does not affect the loop's result. *)
Theorem validate_progress_lines (entries : list Entry) (results : nat -> TaskResult)
    (order : list nat) :
  run_futures_progress entries results order =
  (run_futures entries results order,
   map (fun k => (50 * k, List.length entries)) (seq 1 (List.length order / 50))).
Proof.
  unfold run_futures_progress, run_futures. rewrite progress_fold. simpl app.
  rewrite multiples_of_50, map_map. reflexivity.
Qed.

(* ================================================================== *)
(** * [dbmain.py] and [radio-broser-search.py] *)

(** ** More Python string primitives *)

Module Py2.

(** [s.strip(ch)] for a one-character argument. *)
Fixpoint lstrip_char (ch : ascii) (s : string) : string :=
  match s with
  | EmptyString => EmptyString
  | String c rest => if Ascii.eqb c ch then lstrip_char ch rest else s
  end.

Fixpoint rstrip_char (ch : ascii) (s : string) : string :=
  match s with
  | EmptyString => EmptyString
  | String c rest =>
      match rstrip_char ch rest with
      | EmptyString => if Ascii.eqb c ch then EmptyString else String c EmptyString
      | r => String c r
      end
  end.

Definition strip_char (ch : ascii) (s : string) : string := rstrip_char ch (lstrip_char ch s).

(** [s.split(sep)] for a one-character separator: never empty. *)
Fixpoint split_acc (sep : ascii) (acc : string) (s : string) : list string :=
  match s with
  | EmptyString => [acc]
  | String c rest =>
      if Ascii.eqb c sep then acc :: split_acc sep "" rest
      else split_acc sep (acc ++ String c EmptyString) rest
  end.

Definition split (s : string) (sep : ascii) : list string := split_acc sep "" s.

(** [l[-1]], [None] standing for the [IndexError] of an empty list. *)
Definition last_item {A} (l : list A) : option A :=
  match rev l with
  | [] => None
  | x :: _ => Some x
  end.

(** [s[n:]] *)
Fixpoint drop (n : nat) (s : string) : string :=
  match n, s with
  | O, _ => s
  | S _, EmptyString => EmptyString
  | S n', String _ rest => drop n' rest
  end.

End Py2.

Definition SLASH : ascii := "/"%char.

(** ** [extract_id_from_url] *)

Definition extract_id_from_url (url_path : string) : option string :=
  let parts := Py2.split (Py2.strip_char SLASH url_path) SLASH in
  Py2.last_item parts.

(** ** Python values decoded by [resp.json()] *)

(** A decoded JSON document as Python objects: [None], [bool], [int]
    (JSON numbers are taken to be integers), [str], [list] and [dict].
    A [dict] is the association list of its distinct keys in insertion
    order. *)
#[warnings="-register-all"]
Inductive Json :=
| JNull
| JBool (b : bool)
| JInt (z : Z)
| JStr (s : string)
| JList (l : list Json)
| JDict (kv : list (string * Json)).

(** [v.get(k, default)]; [None] stands for the [AttributeError] raised
    when [v] is not a dict. *)
Definition jget (v : Json) (k : string) (default : Json) : option Json :=
  match v with
  | JDict kv =>
      Some (match find (fun p => String.eqb (fst p) k) kv with
            | Some (_, x) => x
            | None => default
            end)
  | _ => None
  end.

(** [for x in v]: the elements of a list, the one-character strings of a
    str, the keys of a dict; [None] for the [TypeError] of a non-iterable. *)
Definition py_iter (v : Json) : option (list Json) :=
  match v with
  | JList l => Some l
  | JStr s => Some (map (fun c => JStr (String c EmptyString)) (list_ascii_of_string s))
  | JDict kv => Some (map (fun p => JStr (fst p)) kv)
  | _ => None
  end.

(** [v == s] for a str [s]. *)
Definition json_is_str (v : Json) (s : string) : bool :=
  match v with JStr t => String.eqb t s | _ => false end.

(** [bool(v)] *)
Definition truthy (v : Json) : bool :=
  match v with
  | JNull => false
  | JBool b => b
  | JInt z => negb (Z.eqb z 0)
  | JStr s => negb (String.eqb s "")
  | JList l => match l with [] => false | _ => true end
  | JDict kv => match kv with [] => false | _ => true end
  end.

(** ** The network, as seen by [dbmain.py] *)

Record DbResponse := mkDbResponse {
  db_status : Z;
  db_location : option string;  (** resp.headers.get("location") *)
  db_json : option Json         (** resp.json(); [None] when the body is not JSON *)
}.

(** A raised exception: whether it is a [requests.exceptions.RequestException]. *)
Record DbExc := mkDbExc {
  is_request_exception : bool;
  db_exc_str : string
}.

Inductive DbRequest :=
| HeadNoRedirect (url : string)  (** requests.head(url, allow_redirects=False, ...) *)
| GetPlaces                      (** requests.get(PLACES_URL, timeout=30) *)
| GetChannels (place_id : Json). (** requests.get(f".../page/{place_id}/channels", timeout=15) *)

Definition DbNet := DbRequest -> DbExc + DbResponse.

(** ** [get_final_stream_url]: the URL, or the exception it lets through. *)

Definition get_final_stream_url (net : DbNet) (initial_url channel_id : string)
    : DbExc + string :=
  match net (HeadNoRedirect initial_url) with
  | inl e => if is_request_exception e then inr initial_url else inl e
  | inr resp =>
      if (db_status resp =? 302)%Z then
        match db_location resp with
        | Some final_url => if negb (String.eqb final_url "") then inr final_url else inr initial_url
        | None => inr initial_url
        end
      else inr initial_url
  end.

(** ** [urlparse(url).netloc], as computed by CPython 3.12's [urlsplit]

    The validation of a bracketed (IPv6) host and the NFKC check of a
    non-ASCII netloc are library checks that either pass or raise
    [ValueError]; they are kept abstract. *)
Record UrlChecks := mkUrlChecks {
  bracketed_netloc_ok : string -> bool;   (** _check_bracketed_netloc *)
  nonascii_netloc_ok : string -> bool     (** _checknetloc on a non-ASCII netloc *)
}.

Module Url.

(** [_WHATWG_C0_CONTROL_OR_SPACE]: "\x00" to "\x1f" and space. *)
Definition is_c0_or_space (c : ascii) : bool := (nat_of_ascii c <=? 32)%nat.

Fixpoint lstrip_c0 (s : string) : string :=
  match s with
  | EmptyString => EmptyString
  | String c rest => if is_c0_or_space c then lstrip_c0 rest else s
  end.

(** Removing [_UNSAFE_URL_BYTES_TO_REMOVE]: tab, CR and LF. *)
Fixpoint remove_unsafe (s : string) : string :=
  match s with
  | EmptyString => EmptyString
  | String c rest =>
      let n := nat_of_ascii c in
      if (n =? 9)%nat || (n =? 10)%nat || (n =? 13)%nat then remove_unsafe rest
      else String c (remove_unsafe rest)
  end.

Definition is_ascii_alpha (c : ascii) : bool :=
  let n := nat_of_ascii c in ((65 <=? n)%nat && (n <=? 90)%nat) || ((97 <=? n)%nat && (n <=? 122)%nat).

Definition is_ascii_digit (c : ascii) : bool :=
  let n := nat_of_ascii c in (48 <=? n)%nat && (n <=? 57)%nat.

(** [scheme_chars]: letters, digits, "+", "-" and ".". *)
Definition is_scheme_char (c : ascii) : bool :=
  is_ascii_alpha c || is_ascii_digit c ||
  Ascii.eqb c "+"%char || Ascii.eqb c "-"%char || Ascii.eqb c "."%char.

(** The text after the first ":" when every character before it is a
    scheme character; [None] otherwise (no ":" or a [break]). *)
Fixpoint after_scheme (s : string) : option string :=
  match s with
  | EmptyString => None
  | String c rest =>
      if Ascii.eqb c ":"%char then Some rest
      else if is_scheme_char c then after_scheme rest
      else None
  end.

(** [i = url.find(':')]; [if i > 0 and url[0].isascii() and url[0].isalpha(): ...] *)
Definition strip_scheme (url : string) : string :=
  match url with
  | EmptyString => EmptyString
  | String c _ =>
      if is_ascii_alpha c then
        match after_scheme url with Some rest => rest | None => url end
      else url
  end.

Definition is_netloc_delim (c : ascii) : bool :=
  Ascii.eqb c "/"%char || Ascii.eqb c "?"%char || Ascii.eqb c "#"%char.

(** [_splitnetloc(url, 2)]'s domain part, from the text after "//". *)
Fixpoint take_netloc (s : string) : string :=
  match s with
  | EmptyString => EmptyString
  | String c rest => if is_netloc_delim c then EmptyString else String c (take_netloc rest)
  end.

Definition is_ascii_string (s : string) : bool :=
  forallb (fun c => (nat_of_ascii c <? 128)%nat) (list_ascii_of_string s).

(** [urlparse(url).netloc]; [None] for a raised [ValueError]. *)
Definition netloc (chk : UrlChecks) (url0 : string) : option string :=
  let url := strip_scheme (remove_unsafe (lstrip_c0 url0)) in
  let nl := match url with
            | String "/" (String "/" rest) => take_netloc rest
            | _ => EmptyString
            end in
  let lb := has_char "["%char nl in
  let rb := has_char "]"%char nl in
  if (lb && negb rb) || (rb && negb lb) then None
  else if lb && rb && negb (bracketed_netloc_ok chk nl) then None
  else if negb (String.eqb nl "") && negb (is_ascii_string nl) && negb (nonascii_netloc_ok chk nl)
  then None
  else Some nl.

End Url.

(** ** [get_logo_from_website] (both scripts; they differ in the list of
    generic domains) *)

Definition LOGO_DEV_PREFIX : string := "https://img.logo.dev/".

Definition db_generic_domains : list string :=
  ["facebook.com"; "instagram.com"; "twitter.com"; "youtube.com"; "t.co"; "goo.gl"].

Definition rb_generic_domains : list string :=
  ["facebook.com"; "instagram.com"; "twitter.com"; "youtube.com"; "t.co"; "goo.gl";
   "shoutcast.com"; "zeno.fm"].

(** The [try] body once [website_url] is a non-empty str; [token] is
    [LOGO_DEV_TOKEN] as read from the environment. *)
Definition logo_of_website (generic : list string) (token : string) (chk : UrlChecks)
    (website_url : string) : option string :=
  if String.eqb website_url "" then None
  else
    match Url.netloc chk website_url with
    | None => None
    | Some nl =>
        let domain := if Py.startswith nl "www." then Py2.drop 4 nl else nl in
        if existsb (fun g => Py.contains g domain) generic then None
        else if negb (String.eqb domain "") then
          Some (LOGO_DEV_PREFIX ++ domain ++ "?token=" ++ token)
        else None
    end.

(** [dbmain.get_logo_from_website] on any decoded value: a falsy value
    returns [None] at once; a truthy non-str makes [urlparse] raise inside
    the [try], which returns [None]. *)
Definition db_get_logo_from_website (token : string) (chk : UrlChecks) (website_url : Json)
    : option string :=
  match website_url with
  | JStr s => logo_of_website db_generic_domains token chk s
  | _ => None
  end.

(** [get_logo_from_website] of [radio-broser-search.py] (called there on a str). *)
Definition rb_get_logo_from_website (token : string) (chk : UrlChecks) (website_url : string)
    : option string :=
  logo_of_website rb_generic_domains token chk website_url.

(** ** Properties of [dbmain.py]'s helpers *)

Fixpoint slashes (k : nat) : string :=
  match k with O => EmptyString | S k' => String SLASH (slashes k') end.

Lemma split_acc_last (sep : ascii) (s acc : string) :
  exists init lastv, Py2.split_acc sep acc s = (init ++ [lastv])%list /\
                     (has_char sep acc = false -> has_char sep lastv = false).
Proof.
  revert acc. induction s as [| c s IH]; intros acc.
  - exists [], acc. split; [reflexivity | auto].
  - simpl. destruct (Ascii.eqb c sep) eqn:Hc.
    + destruct (IH "") as (init & lastv & Heq & Hl).
      exists (acc :: init), lastv. rewrite Heq. split; [reflexivity|]. auto.
    + destruct (IH (acc ++ String c "")) as (init & lastv & Heq & Hl).
      exists init, lastv. split; [exact Heq|]. intros Ha. apply Hl.
      rewrite has_char_app, Ha. simpl. rewrite Hc. reflexivity.
Qed.

Lemma last_item_snoc {A} (init : list A) (x : A) : Py2.last_item (init ++ [x])%list = Some x.
Proof. unfold Py2.last_item. rewrite rev_app_distr. reflexivity. Qed.

Lemma split_acc_no_sep (sep : ascii) (s acc : string) :
  has_char sep s = false -> Py2.split_acc sep acc s = [acc ++ s].
Proof.
  revert acc. induction s as [| c s IH]; intros acc H.
  - rewrite str_app_nil_r. reflexivity.
  - simpl in H. apply orb_false_iff in H as [Hc Hs]. simpl. rewrite Hc, IH by exact Hs.
    rewrite str_app_assoc. reflexivity.
Qed.

Lemma split_acc_after_sep (sep : ascii) (x s acc : string) :
  exists init, Py2.split_acc sep acc (x ++ String sep s) = (init ++ Py2.split_acc sep "" s)%list.
Proof.
  revert acc. induction x as [| c x IH]; intros acc.
  - exists [acc]. simpl. rewrite Ascii.eqb_refl. reflexivity.
  - simpl. destruct (Ascii.eqb c sep).
    + destruct (IH "") as (init & Heq). exists (acc :: init). rewrite Heq. reflexivity.
    + destruct (IH (acc ++ String c "")) as (init & Heq). exists init. exact Heq.
Qed.

Lemma rstrip_char_slashes (ch : ascii) (k : nat) :
  Py2.rstrip_char ch (fold_right (fun _ r => String ch r) EmptyString (repeat tt k)) = "".
Proof.
  induction k as [| k IH]; [reflexivity|]. simpl. rewrite IH, Ascii.eqb_refl. reflexivity.
Qed.

Lemma slashes_repeat (k : nat) :
  slashes k = fold_right (fun _ r => String SLASH r) EmptyString (repeat tt k).
Proof. induction k as [| k IH]; simpl; [reflexivity | rewrite IH; reflexivity]. Qed.

Lemma rstrip_char_app_slashes (t : string) (k : nat) :
  Py2.rstrip_char SLASH (t ++ slashes k) = Py2.rstrip_char SLASH t.
Proof.
  induction t as [| c t IH]; simpl.
  - rewrite slashes_repeat. apply rstrip_char_slashes.
  - rewrite IH. reflexivity.
Qed.

Lemma rstrip_char_keep (ch : ascii) (y s : string) :
  s <> "" -> has_char ch s = false -> Py2.rstrip_char ch (y ++ s) = y ++ s.
Proof.
  intros Hne Hs. induction y as [| c y IH].
  - simpl. clear Hne. induction s as [| d s IHs]; [reflexivity|].
    simpl in Hs |- *. apply orb_false_iff in Hs as [Hd Hs'].
    rewrite IHs by exact Hs'. destruct s; [rewrite Hd; reflexivity | reflexivity].
  - simpl. rewrite IH. destruct y; [destruct s; [congruence | reflexivity] | reflexivity].
Qed.

Lemma lstrip_char_cases (ch : ascii) (q t : string) :
  (forall d r, t = String d r -> Ascii.eqb d ch = false) ->
  Py2.lstrip_char ch (q ++ String ch t) = t \/
  exists x, Py2.lstrip_char ch (q ++ String ch t) = x ++ String ch t.
Proof.
  intros Ht. induction q as [| c q IH].
  - left. simpl. rewrite Ascii.eqb_refl. destruct t as [| d r]; [reflexivity|].
    simpl. rewrite (Ht d r eq_refl). reflexivity.
  - simpl. destruct (Ascii.eqb c ch); [exact IH|].
    right. exists (String c q). reflexivity.
Qed.

(** X ([extract_id_from_url]): the [except] branch is unreachable for a
    str argument: the function always returns a str free of "/"; for a
    path ending in a non-empty segment (possibly followed by slashes) it
    returns that segment. *)
Theorem extract_id_from_url_last_segment :
  (forall p : string, exists id, extract_id_from_url p = Some id /\ has_char SLASH id = false) /\
  (forall (q s : string) (k : nat), s <> "" -> has_char SLASH s = false ->
     extract_id_from_url (q ++ String SLASH (s ++ slashes k)) = Some s).
Proof.
  split.
  - intros p. unfold extract_id_from_url, Py2.split.
    destruct (split_acc_last SLASH (Py2.strip_char SLASH p) "") as (init & lastv & Heq & Hl).
    rewrite Heq, last_item_snoc. exists lastv. split; [reflexivity | apply Hl; reflexivity].
  - intros q s k Hne Hs. unfold extract_id_from_url, Py2.split, Py2.strip_char.
    assert (Hfirst : forall d r, (s ++ slashes k) = String d r -> Ascii.eqb d SLASH = false).
    { intros d r Hdr. destruct s as [| c s']; [congruence|].
      simpl in Hdr. injection Hdr as <- _. simpl in Hs.
      apply orb_false_iff in Hs as [Hc _]. exact Hc. }
    destruct (lstrip_char_cases SLASH q _ Hfirst) as [Hl | (x & Hl)]; rewrite Hl.
    + rewrite rstrip_char_app_slashes.
      replace (Py2.rstrip_char SLASH s) with s
        by (symmetry; exact (rstrip_char_keep SLASH "" s Hne Hs)).
      rewrite split_acc_no_sep by exact Hs. reflexivity.
    + replace (x ++ String SLASH (s ++ slashes k)) with ((x ++ String SLASH s) ++ slashes k)
        by (rewrite str_app_assoc; reflexivity).
      rewrite rstrip_char_app_slashes.
      replace (x ++ String SLASH s) with ((x ++ String SLASH "") ++ s)
        by (rewrite str_app_assoc; reflexivity).
      rewrite rstrip_char_keep by assumption.
      rewrite str_app_assoc. simpl.
      destruct (split_acc_after_sep SLASH x s "") as (init & Heq). rewrite Heq.
      rewrite split_acc_no_sep by exact Hs. rewrite last_item_snoc. reflexivity.
Qed.

Lemma get_final_stream_url_inr (net : DbNet) (initial_url channel_id out : string) :
  get_final_stream_url net initial_url channel_id = inr out ->
  out = initial_url \/
  exists r, net (HeadNoRedirect initial_url) = inr r /\ db_status r = 302%Z /\
            db_location r = Some out /\ out <> "".
Proof.
  unfold get_final_stream_url. intros H.
  destruct (net (HeadNoRedirect initial_url)) as [e | r] eqn:Hn.
  - left. destruct (is_request_exception e); congruence.
  - destruct (db_status r =? 302)%Z eqn:Hs; [|left; congruence].
    destruct (db_location r) as [l|] eqn:Hl; [|left; congruence].
    destruct (String.eqb l "") eqn:He; simpl in H; [left; congruence|].
    right. exists r. injection H as <-. apply Z.eqb_eq in Hs.
    apply String.eqb_neq in He. auto.
Qed.

(** X ([get_final_stream_url]): the result is the initial URL or the
    non-empty [Location] of a 302 answer to the single header-only
    request (and is the latter whenever there is one); an exception
    escapes only when it is not a [RequestException]. *)
Theorem get_final_stream_url_result (net : DbNet) (initial_url channel_id : string) :
  (forall out, get_final_stream_url net initial_url channel_id = inr out ->
     out = initial_url \/
     exists r, net (HeadNoRedirect initial_url) = inr r /\ db_status r = 302%Z /\
               db_location r = Some out /\ out <> "") /\
  (forall r loc, net (HeadNoRedirect initial_url) = inr r -> db_status r = 302%Z ->
     db_location r = Some loc -> loc <> "" ->
     get_final_stream_url net initial_url channel_id = inr loc) /\
  (forall e, get_final_stream_url net initial_url channel_id = inl e ->
     net (HeadNoRedirect initial_url) = inl e /\ is_request_exception e = false).
Proof.
  split; [| split].
  - apply get_final_stream_url_inr.
  - intros r loc H Hs Hl Hne. unfold get_final_stream_url. rewrite H, Hs, Hl. simpl.
    apply String.eqb_neq in Hne. rewrite Hne. reflexivity.
  - intros e. unfold get_final_stream_url.
    destruct (net (HeadNoRedirect initial_url)) as [e' | r].
    + destruct (is_request_exception e') eqn:He; [discriminate|].
      intros H. injection H as <-. auto.
    + destruct (db_status r =? 302)%Z; [|discriminate].
      destruct (db_location r); [destruct (negb _)|]; discriminate.
Qed.

Fixpoint all_chars (f : ascii -> bool) (s : string) : bool :=
  match s with
  | EmptyString => true
  | String c rest => f c && all_chars f rest
  end.

(** Characters of a plain host name: ASCII letters, digits, "." and "-". *)
Definition host_char (c : ascii) : bool :=
  Url.is_ascii_alpha c || Url.is_ascii_digit c || Ascii.eqb c "."%char || Ascii.eqb c "-"%char.

(** Characters above space: no control character, no whitespace. *)
Definition printable_char (c : ascii) : bool := (32 <? nat_of_ascii c)%nat.

(** The domain [get_logo_from_website] looks up: the netloc with one
    leading "www." removed. *)
Definition www_stripped (nl : string) : string :=
  if Py.startswith nl "www." then Py2.drop 4 nl else nl.

Lemma has_char_lstrip_c0 (c : ascii) (s : string) :
  has_char c s = false -> has_char c (Url.lstrip_c0 s) = false.
Proof.
  induction s as [| d s IH]; simpl; intros H; [reflexivity|].
  apply orb_false_iff in H as [Hd Hs]. destruct (Url.is_c0_or_space d).
  - apply IH, Hs.
  - simpl. rewrite Hd, Hs. reflexivity.
Qed.

Lemma has_char_remove_unsafe (c : ascii) (s : string) :
  has_char c s = false -> has_char c (Url.remove_unsafe s) = false.
Proof.
  induction s as [| d s IH]; simpl; intros H; [reflexivity|].
  apply orb_false_iff in H as [Hd Hs]. destruct (_ || _ || _).
  - apply IH, Hs.
  - simpl. rewrite Hd, IH by exact Hs. reflexivity.
Qed.

Lemma has_char_after_scheme (c : ascii) (s r : string) :
  Url.after_scheme s = Some r -> has_char c s = false -> has_char c r = false.
Proof.
  induction s as [| d s IH]; simpl; intros Hs H; [discriminate|].
  apply orb_false_iff in H as [_ H].
  destruct (Ascii.eqb d ":"%char); [injection Hs as <-; exact H|].
  destruct (Url.is_scheme_char d); [exact (IH Hs H) | discriminate].
Qed.

Lemma has_char_strip_scheme (c : ascii) (s : string) :
  has_char c s = false -> has_char c (Url.strip_scheme s) = false.
Proof.
  intros H. unfold Url.strip_scheme. destruct s as [| d r] eqn:Es; [reflexivity|].
  rewrite <- Es in *. destruct (Url.is_ascii_alpha d); [|exact H].
  destruct (Url.after_scheme s) as [rest|] eqn:Ha; [|exact H].
  exact (has_char_after_scheme c s rest Ha H).
Qed.

Lemma double_slash_match (url : string) :
  has_char SLASH url = false ->
  match url with
  | String "/" (String "/" rest) => Url.take_netloc rest
  | _ => EmptyString
  end = EmptyString.
Proof.
  intros H. destruct url as [| c r]; [reflexivity|].
  destruct c as [[] [] [] [] [] [] [] []]; try reflexivity.
  vm_compute in H. discriminate H.
Qed.

Lemma netloc_no_slash (chk : UrlChecks) (w : string) :
  has_char SLASH w = false -> Url.netloc chk w = Some "".
Proof.
  intros H. unfold Url.netloc.
  rewrite double_slash_match.
  - reflexivity.
  - apply has_char_strip_scheme, has_char_remove_unsafe, has_char_lstrip_c0, H.
Qed.

(** X ([get_logo_from_website], both scripts): a website given without
    "//" (e.g. "radiozu.ro" or "www.radiozu.ro", with no "http://") has
    an empty netloc, so no logo URL is built for it. *)
Theorem logo_of_website_needs_slashes (generic : list string) (token : string)
    (chk : UrlChecks) (w : string) :
  has_char SLASH w = false -> logo_of_website generic token chk w = None.
Proof.
  intros H. unfold logo_of_website. destruct (String.eqb w ""); [reflexivity|].
  rewrite netloc_no_slash by exact H. cbn zeta.
  destruct (existsb _ _); reflexivity.
Qed.

Lemma host_char_facts (c : ascii) :
  host_char c = true ->
  Url.is_netloc_delim c = false /\ Ascii.eqb c "["%char = false /\
  Ascii.eqb c "]"%char = false /\ (nat_of_ascii c <? 128)%nat = true /\
  printable_char c = true.
Proof. destruct c as [[] [] [] [] [] [] [] []]; vm_compute; intros H; try discriminate H; auto. Qed.

Lemma remove_unsafe_printable (s : string) :
  all_chars printable_char s = true -> Url.remove_unsafe s = s.
Proof.
  induction s as [| c s IH]; simpl; intros H; [reflexivity|].
  apply andb_true_iff in H as [Hc Hs]. unfold printable_char in Hc.
  apply Nat.ltb_lt in Hc.
  replace ((nat_of_ascii c =? 9)%nat || (nat_of_ascii c =? 10)%nat || (nat_of_ascii c =? 13)%nat)
    with false.
  - rewrite IH by exact Hs. reflexivity.
  - symmetry. rewrite !orb_false_iff. rewrite !Nat.eqb_neq. lia.
Qed.

Lemma host_printable (d : string) :
  all_chars host_char d = true -> all_chars printable_char d = true.
Proof.
  induction d as [| c d IH]; simpl; intros H; [reflexivity|].
  apply andb_true_iff in H as [Hc Hd].
  destruct (host_char_facts c Hc) as (_ & _ & _ & _ & Hp). rewrite Hp. apply IH, Hd.
Qed.

Lemma all_chars_app (f : ascii -> bool) (a b : string) :
  all_chars f (a ++ b) = all_chars f a && all_chars f b.
Proof. induction a as [| c a IH]; simpl; [reflexivity | rewrite IH, andb_assoc; reflexivity]. Qed.

Lemma take_netloc_host (d p : string) :
  all_chars host_char d = true ->
  Url.take_netloc (d ++ p) = d ++ Url.take_netloc p.
Proof.
  induction d as [| c d IH]; simpl; intros H; [reflexivity|].
  apply andb_true_iff in H as [Hc Hd].
  destruct (host_char_facts c Hc) as (Hdl & _). rewrite Hdl, IH by exact Hd. reflexivity.
Qed.

Lemma host_no_brackets (d : string) :
  all_chars host_char d = true ->
  has_char "["%char d = false /\ has_char "]"%char d = false /\ Url.is_ascii_string d = true.
Proof.
  induction d as [| c d IH]; simpl; intros H; [auto|].
  apply andb_true_iff in H as [Hc Hd].
  destruct (host_char_facts c Hc) as (_ & Hl & Hr & Ha & _).
  destruct (IH Hd) as (Hl' & Hr' & Ha').
  unfold Url.is_ascii_string in *. simpl. rewrite Hl, Hr, Ha, Hl', Hr', Ha'. auto.
Qed.

Lemma netloc_https (chk : UrlChecks) (d p : string) :
  all_chars host_char d = true ->
  (p = "" \/ exists p', p = String SLASH p' /\ all_chars printable_char p' = true) ->
  Url.netloc chk ("https://" ++ d ++ p) = Some d.
Proof.
  intros Hd Hp.
  assert (Hpr : all_chars printable_char (d ++ p) = true).
  { rewrite all_chars_app, host_printable by exact Hd. simpl.
    destruct Hp as [-> | (p' & -> & Hp')]; [reflexivity | exact Hp']. }
  assert (Htake : Url.take_netloc (d ++ p) = d).
  { rewrite take_netloc_host by exact Hd.
    destruct Hp as [-> | (p' & -> & _)]; apply str_app_nil_r. }
  destruct (host_no_brackets d Hd) as (Hl & Hr & Ha).
  assert (Hurl : Url.strip_scheme (Url.remove_unsafe (Url.lstrip_c0 ("https://" ++ d ++ p))) =
                 "//" ++ (d ++ p)).
  { change (Url.lstrip_c0 ("https://" ++ d ++ p)) with ("https://" ++ (d ++ p)).
    replace (Url.remove_unsafe ("https://" ++ (d ++ p))) with ("https://" ++ (d ++ p))
      by (symmetry; apply remove_unsafe_printable; exact Hpr).
    reflexivity. }
  unfold Url.netloc. rewrite Hurl. cbv zeta. cbn [String.append].
  rewrite Htake, Hl, Hr. cbn [andb orb negb].
  destruct (String.eqb d ""); [reflexivity|]. rewrite Ha. reflexivity.
Qed.

(** X ([get_logo_from_website], both scripts): for an "https://" URL with
    a plain host name, the logo is looked up for the host minus one
    leading "www."; it is refused whenever that domain contains one of
    the generic names anywhere as a substring (so "t.co" also refuses
    hosts such as "radiobeat.com"), and otherwise built from the domain
    and the token. *)
Theorem logo_of_website_https (generic : list string) (token : string) (chk : UrlChecks)
    (d p : string) :
  all_chars host_char d = true ->
  (p = "" \/ exists p', p = String SLASH p' /\ all_chars printable_char p' = true) ->
  ((exists g, In g generic /\ Py.contains g (www_stripped d) = true) ->
     logo_of_website generic token chk ("https://" ++ d ++ p) = None) /\
  ((forall g, In g generic -> Py.contains g (www_stripped d) = false) ->
     www_stripped d <> "" ->
     logo_of_website generic token chk ("https://" ++ d ++ p) =
       Some (LOGO_DEV_PREFIX ++ www_stripped d ++ "?token=" ++ token)).
Proof.
  intros Hd Hp. unfold logo_of_website.
  change (String.eqb ("https://" ++ d ++ p) "") with false. cbn iota.
  rewrite netloc_https by assumption. fold (www_stripped d). split.
  - intros (g & Hin & Hc).
    replace (existsb (fun g => Py.contains g (www_stripped d)) generic) with true
      by (symmetry; apply existsb_exists; eauto).
    reflexivity.
  - intros Hg Hne.
    replace (existsb (fun g => Py.contains g (www_stripped d)) generic) with false.
    + apply String.eqb_neq in Hne. rewrite Hne. reflexivity.
    + symmetry. apply not_true_iff_false. intros Hex.
      apply existsb_exists in Hex as (g & Hin & Hc). rewrite (Hg g Hin) in Hc. discriminate.
Qed.

(** X: the radio-browser script's [get_logo_from_website] only refuses
    more domains ("shoutcast.com", "zeno.fm"): whenever it returns a logo
    URL, [dbmain.py]'s returns the same one. *)
Theorem rb_logo_implies_db_logo (token : string) (chk : UrlChecks) (w x : string) :
  rb_get_logo_from_website token chk w = Some x ->
  db_get_logo_from_website token chk (JStr w) = Some x.
Proof.
  unfold rb_get_logo_from_website, db_get_logo_from_website, logo_of_website.
  destruct (String.eqb w ""); [discriminate|].
  destruct (Url.netloc chk w) as [nl|]; [|discriminate]. cbn zeta.
  change rb_generic_domains with (db_generic_domains ++ ["shoutcast.com"; "zeno.fm"])%list.
  rewrite existsb_app. intros H.
  destruct (existsb _ db_generic_domains); [discriminate H|].
  destruct (existsb _ ["shoutcast.com"; "zeno.fm"]); [discriminate H | exact H].
Qed.

(** ** [get_channel_info], [fetch_stations_from_place], [get_places],
    [process_full_country_scan] *)

(** What a raised exception is, inside these functions. *)
Inductive DbError :=
| AttrError               (** [.get] / [.replace] on a value that lacks it *)
| IterError               (** iterating a non-iterable *)
| ConvError               (** [int(x)] raising [TypeError] or [ValueError] *)
| NetError (e : DbExc)    (** an exception from [requests] let through *)
| TypeErr                 (** [hash] of a list or dict, or [<] between values it cannot order *)
| OpenError (e : PyException).  (** [open(path, 'w')] raising *)

Definition dbind {A B} (m : DbError + A) (k : A -> DbError + B) : DbError + B :=
  match m with inl e => inl e | inr a => k a end.

Notation "x <-! m ;; k" := (dbind m (fun x => k)) (at level 61, m at next level, right associativity).

Definition attr {A} (o : option A) : DbError + A :=
  match o with Some a => inr a | None => inl AttrError end.

Definition iter (v : Json) : DbError + list Json :=
  match py_iter v with Some l => inr l | None => inl IterError end.

Definition TARGET_COUNTRY : string := "Romania".

Definition listen_url (channel_unique_id : string) : string :=
  "https://radio.garden/api/ara/content/listen/" ++ channel_unique_id ++ "/channel.mp3".

(** The ui-avatars placeholder for a title. *)
Definition avatar_url (title : string) : string :=
  "https://ui-avatars.com/api/?name=" ++ Py.replace title " " "+"
  ++ "&background=random&color=fff&size=128".

(** The dict [get_channel_info] returns. *)
Record ChannelInfo := mkChannelInfo {
  ci_title : Json;
  ci_stream_url : string;
  ci_logo_url : string;
  ci_group_title : Json;
  ci_city : Json
}.

Section DbMain.

(** [LOGO_DEV_TOKEN], the URL library's checks, and the network. *)
Variable token : string.
Variable chk : UrlChecks.
Variable net : DbNet.

Definition get_channel_info (page : Json) (channel_unique_id : string) (place_name : Json)
    : DbError + ChannelInfo :=
  title <-! attr (jget page "title" (JStr "Unknown Station")) ;;
  place_d <-! attr (jget page "place" (JDict [])) ;;
  place <-! attr (jget place_d "title" place_name) ;;
  country_d <-! attr (jget page "country" (JDict [])) ;;
  country <-! attr (jget country_d "title" (JStr TARGET_COUNTRY)) ;;
  website <-! attr (jget page "website" (JStr "")) ;;
  let initial_stream_url := listen_url channel_unique_id in
  final_stream_url <-! (match get_final_stream_url net initial_stream_url channel_unique_id with
                        | inl e => inl (NetError e)
                        | inr u => inr u
                        end) ;;
  let fallback := match title with
                  | JStr t => inr (avatar_url t)
                  | _ => inl AttrError
                  end in
  logo_url <-! (match db_get_logo_from_website token chk website with
                | Some l => if String.eqb l "" then fallback else inr l
                | None => fallback
                end) ;;
  inr (mkChannelInfo title final_stream_url logo_url country place).

(** One item of a section: the station it adds, if any. *)
Definition station_of_item (place_name : Json) (item : Json) : DbError + option ChannelInfo :=
  page <-! attr (jget item "page" (JDict [])) ;;
  ty <-! attr (jget page "type" JNull) ;;
  if json_is_str ty "channel" then
    raw_url <-! attr (jget page "url" (JStr "")) ;;
    let channel_id := match raw_url with
                      | JStr s => extract_id_from_url s
                      | _ => None   (* [.strip] raises inside the [try]: [None] *)
                      end in
    match channel_id with
    | Some cid =>
        if negb (String.eqb cid "") then
          info <-! get_channel_info page cid place_name ;; inr (Some info)
        else inr None
    | None => inr None
    end
  else inr None.

(** The [for item in items] loop: the stations appended, and whether an
    exception left the loop. *)
Fixpoint items_loop (place_name : Json) (items : list Json) : list ChannelInfo * bool :=
  match items with
  | [] => ([], false)
  | item :: rest =>
      match station_of_item place_name item with
      | inl _ => ([], true)
      | inr o =>
          let '(l, raised) := items_loop place_name rest in
          ((match o with Some s => [s] | None => [] end) ++ l, raised)%list
      end
  end.

Fixpoint sections_loop (place_name : Json) (sections : list Json) : list ChannelInfo * bool :=
  match sections with
  | [] => ([], false)
  | section :: rest =>
      match (items <-! attr (jget section "items" (JList [])) ;; iter items) with
      | inl _ => ([], true)
      | inr items =>
          let '(l, raised) := items_loop place_name items in
          if raised then (l, true)
          else let '(l2, raised2) := sections_loop place_name rest in ((l ++ l2)%list, raised2)
      end
  end.

(** [fetch_stations_from_place]: every exception is caught and the
    stations appended so far are returned. *)
Definition fetch_stations_from_place (place_id place_name : Json) : list ChannelInfo :=
  match net (GetChannels place_id) with
  | inl _ => []
  | inr resp =>
      if negb (db_status resp =? 200)%Z then []
      else
        match db_json resp with
        | None => []
        | Some data =>
            match (d <-! attr (jget data "data" (JDict [])) ;;
                   content_list <-! attr (jget d "content" (JList [])) ;;
                   iter content_list) with
            | inl _ => []
            | inr sections => fst (sections_loop place_name sections)
            end
        end
  end.

(** The list comprehension of [get_places]. *)
Fixpoint filter_places (target_country : string) (ps : list Json) : DbError + list Json :=
  match ps with
  | [] => inr []
  | p :: rest =>
      c <-! attr (jget p "country" JNull) ;;
      l <-! filter_places target_country rest ;;
      inr (if json_is_str c target_country then p :: l else l)
  end.

(** [resp.raise_for_status()] raises for a 4xx or 5xx status. *)
Definition raises_for_status (status : Z) : bool := (400 <=? status)%Z && (status <? 600)%Z.

Definition get_places (target_country : string) : list Json :=
  match net GetPlaces with
  | inl _ => []
  | inr resp =>
      if raises_for_status (db_status resp) then []
      else
        match db_json resp with
        | None => []
        | Some data =>
            match (d <-! attr (jget data "data" (JDict [])) ;;
                   places_list <-! attr (jget d "list" (JList [])) ;;
                   ps <-! iter places_list ;;
                   filter_places target_country ps) with
            | inl _ => []
            | inr filtered => filtered
            end
        end
  end.

(** The [for idx, place in enumerate(places, 1)] loop. *)
Fixpoint scan_places (places : list Json) : DbError + list ChannelInfo :=
  match places with
  | [] => inr []
  | place :: rest =>
      place_name <-! attr (jget place "title" JNull) ;;
      place_id <-! attr (jget place "id" JNull) ;;
      let stations := fetch_stations_from_place place_id place_name in
      more <-! scan_places rest ;;
      inr (stations ++ more)%list
  end.

Definition process_full_country_scan (target_country : string) : DbError + list ChannelInfo :=
  let places := get_places target_country in
  match places with
  | [] => inr []
  | _ => scan_places places
  end.

End DbMain.

(** ** Properties of the station scan *)

(** X ([get_channel_info]): a station record, when one is built, always
    has a non-empty logo URL: the website's logo.dev URL, or else the
    ui-avatars placeholder for its (str) title; its stream URL is the
    Radio Garden listen URL for the channel id, or the non-empty
    [Location] of a 302 answer to the header-only request for it. *)
Theorem get_channel_info_result (token : string) (chk : UrlChecks) (net : DbNet)
    (page : Json) (cid : string) (place_name : Json) (info : ChannelInfo) :
  get_channel_info token chk net page cid place_name = inr info ->
  ci_logo_url info <> "" /\
  ((exists t, ci_title info = JStr t /\ ci_logo_url info = avatar_url t) \/
   (exists website, jget page "website" (JStr "") = Some website /\
                    db_get_logo_from_website token chk website = Some (ci_logo_url info))) /\
  (ci_stream_url info = listen_url cid \/
   exists r, net (HeadNoRedirect (listen_url cid)) = inr r /\ db_status r = 302%Z /\
             db_location r = Some (ci_stream_url info) /\ ci_stream_url info <> "").
Proof.
  intros H. unfold get_channel_info, dbind, attr in H.
  destruct (jget page "title" _) as [title|]; [|discriminate].
  destruct (jget page "place" _) as [pd|]; [|discriminate].
  destruct (jget pd "title" place_name) as [pl|]; [|discriminate].
  destruct (jget page "country" _) as [cd|]; [|discriminate].
  destruct (jget cd "title" _) as [co|]; [|discriminate].
  destruct (jget page "website" _) as [w|] eqn:Hw; [|discriminate].
  destruct (get_final_stream_url net (listen_url cid) cid) as [e|fu] eqn:Hf; [discriminate|].
  apply get_final_stream_url_inr in Hf.
  assert (Hav : forall t, avatar_url t <> "").
  { intros t Ht. unfold avatar_url in Ht. discriminate Ht. }
  destruct (db_get_logo_from_website token chk w) as [l|] eqn:Hl;
    [destruct (String.eqb l "") eqn:He|].
  - destruct title as [| | | t | |]; try discriminate H.
    injection H as <-. simpl. split; [apply Hav | split; [left; eauto | exact Hf]].
  - injection H as <-. simpl. apply String.eqb_neq in He.
    split; [exact He | split; [right; eauto | exact Hf]].
  - destruct title as [| | | t | |]; try discriminate H.
    injection H as <-. simpl. split; [apply Hav | split; [left; eauto | exact Hf]].
Qed.

Lemma items_loop_stops (token : string) (chk : UrlChecks) (net : DbNet) (place_name : Json)
    (pre post : list Json) (bad : Json) (l : list ChannelInfo) (e : DbError) :
  items_loop token chk net place_name pre = (l, false) ->
  station_of_item token chk net place_name bad = inl e ->
  items_loop token chk net place_name (pre ++ bad :: post) = (l, true).
Proof.
  revert l. induction pre as [| it pre IH]; intros l Hpre Hbad.
  - simpl in Hpre. injection Hpre as <-. simpl. rewrite Hbad. reflexivity.
  - simpl in Hpre |- *. destruct (station_of_item token chk net place_name it) as [e'|o];
      [discriminate|].
    destruct (items_loop token chk net place_name pre) as [l' r'] eqn:Hl'.
    destruct r'; [discriminate|]. injection Hpre as <-.
    rewrite (IH l' eq_refl Hbad). reflexivity.
Qed.

Lemma sections_loop_stops (token : string) (chk : UrlChecks) (net : DbNet) (place_name : Json)
    (before more : list Json) (section : Json) (items : list Json) (l0 l : list ChannelInfo) :
  sections_loop token chk net place_name before = (l0, false) ->
  jget section "items" (JList []) = Some (JList items) ->
  items_loop token chk net place_name items = (l, true) ->
  sections_loop token chk net place_name (before ++ section :: more) = ((l0 ++ l)%list, true).
Proof.
  revert l0. induction before as [| sec before IH]; intros l0 Hbefore Hs Hi.
  - simpl in Hbefore. injection Hbefore as <-. simpl. rewrite Hs. simpl. rewrite Hi. reflexivity.
  - simpl in Hbefore |- *.
    destruct (items <-! attr (jget sec "items" (JList [])) ;; iter items) as [e'|its];
      [discriminate|].
    destruct (items_loop token chk net place_name its) as [ls r] eqn:Hls.
    destruct r; [discriminate|].
    destruct (sections_loop token chk net place_name before) as [l2 r2] eqn:Hl2.
    destruct r2; [discriminate|]. injection Hbefore as <-.
    rewrite (IH l2 eq_refl Hs Hi), app_assoc. reflexivity.
Qed.

(** X ([fetch_stations_from_place]): the loop appends to [stations]
    inside one [try]; when handling an item of any section raises (e.g.
    a malformed page), the stations of the earlier sections and of the
    earlier items of that section are kept, and every later item and
    section of that place is lost. *)
Theorem fetch_stations_stop_at_error (token : string) (chk : UrlChecks) (net : DbNet)
    (place_id place_name : Json) (resp : DbResponse) (data d section : Json)
    (before more pre post : list Json) (bad : Json) (l0 l : list ChannelInfo) (e : DbError) :
  net (GetChannels place_id) = inr resp -> db_status resp = 200%Z -> db_json resp = Some data ->
  jget data "data" (JDict []) = Some d ->
  jget d "content" (JList []) = Some (JList (before ++ section :: more)) ->
  sections_loop token chk net place_name before = (l0, false) ->
  jget section "items" (JList []) = Some (JList (pre ++ bad :: post)) ->
  items_loop token chk net place_name pre = (l, false) ->
  station_of_item token chk net place_name bad = inl e ->
  fetch_stations_from_place token chk net place_id place_name = (l0 ++ l)%list.
Proof.
  intros Hn Hs Hj Hd Hc Hbefore Hi Hpre Hbad.
  unfold fetch_stations_from_place. rewrite Hn, Hs, Hj. simpl.
  rewrite Hd. simpl. rewrite Hc. simpl.
  rewrite (sections_loop_stops token chk net place_name before more section (pre ++ bad :: post)
             l0 l Hbefore Hi (items_loop_stops token chk net place_name pre post bad l e Hpre Hbad)).
  reflexivity.
Qed.

(** [p.get(k)] on a dict. *)
Definition dget (p : Json) (k : string) : Json :=
  match jget p k JNull with Some v => v | None => JNull end.

Lemma jget_some_dict (p : Json) (k : string) (dflt v : Json) :
  jget p k dflt = Some v -> exists kv, p = JDict kv.
Proof. destruct p; simpl; try discriminate. eauto. Qed.

Lemma filter_places_dicts (target : string) (ps l : list Json) :
  filter_places target ps = inr l ->
  Forall (fun p => (exists kv, p = JDict kv) /\ json_is_str (dget p "country") target = true) l.
Proof.
  revert l. induction ps as [| p ps IH]; intros l H.
  - injection H as <-. constructor.
  - simpl in H. unfold dbind, attr in H.
    destruct (jget p "country" JNull) as [c|] eqn:Hc; [|discriminate].
    destruct (filter_places target ps) as [e|l'] eqn:Hr; [discriminate|].
    injection H as <-. specialize (IH l' eq_refl).
    destruct (json_is_str c target) eqn:Ht; [|exact IH].
    constructor; [|exact IH]. split; [exact (jget_some_dict _ _ _ _ Hc)|].
    unfold dget. rewrite Hc. exact Ht.
Qed.

Lemma get_places_dicts (net : DbNet) (target : string) :
  Forall (fun p => (exists kv, p = JDict kv) /\ json_is_str (dget p "country") target = true)
         (get_places net target).
Proof.
  unfold get_places. destruct (net GetPlaces) as [e|resp]; [constructor|].
  destruct (raises_for_status (db_status resp)); [constructor|].
  destruct (db_json resp) as [data|]; [|constructor].
  destruct (_ <-! _ ;; _) as [e|l] eqn:Hl; [constructor|].
  unfold dbind in Hl.
  destruct (attr (jget data "data" (JDict []))) as [e|d]; [discriminate|].
  destruct (attr (jget d "list" (JList []))) as [e|pl]; [discriminate|].
  destruct (iter pl) as [e|ps]; [discriminate|].
  exact (filter_places_dicts target ps l Hl).
Qed.

Lemma dget_dict (kv : list (string * Json)) (k : string) :
  jget (JDict kv) k JNull = Some (dget (JDict kv) k).
Proof. reflexivity. Qed.

Lemma scan_places_dicts (token : string) (chk : UrlChecks) (net : DbNet) (places : list Json) :
  Forall (fun p => exists kv, p = JDict kv) places ->
  scan_places token chk net places =
  inr (flat_map (fun p => fetch_stations_from_place token chk net (dget p "id") (dget p "title"))
                places).
Proof.
  induction 1 as [| p places [kv ->] _ IH]; [reflexivity|].
  cbn [scan_places]. unfold dbind, attr. rewrite !dget_dict, IH. reflexivity.
Qed.

(** X ([get_places], [process_full_country_scan]): [get_places] returns
    only dicts whose "country" is the target; hence the scan never raises
    and returns the stations of every place, concatenated in place order
    (a place whose fetch fails contributes nothing). *)
Theorem process_full_country_scan_total (token : string) (chk : UrlChecks) (net : DbNet)
    (target : string) :
  Forall (fun p => (exists kv, p = JDict kv) /\ json_is_str (dget p "country") target = true)
         (get_places net target) /\
  process_full_country_scan token chk net target =
  inr (flat_map (fun p => fetch_stations_from_place token chk net (dget p "id") (dget p "title"))
                (get_places net target)).
Proof.
  pose proof (get_places_dicts net target) as Hd. split; [exact Hd|].
  unfold process_full_country_scan.
  destruct (get_places net target) as [| p ps] eqn:Hp; [reflexivity|].
  apply scan_places_dicts. eapply Forall_impl; [|exact Hd]. intros q [Hq _]. exact Hq.
Qed.

(** ** [save_to_m3u] *)

(** The stations [save_to_m3u] receives are the dicts [get_channel_info]
    builds ([ChannelInfo]): the title, the country and the place are JSON
    values of any type, the stream and logo URLs are str. *)

(** A title as [hash] and [==] see it, once hashing has accepted it:
    [None], a number ([False] and [True] hash and compare as the ints 0
    and 1) or a str. *)
Inductive TitleKey := KNone | KNum (z : Z) | KStr (s : string).

(** [hash(title)]: a list or dict title raises [TypeError] (unhashable
    type). *)
Definition title_key (v : Json) : DbError + TitleKey :=
  match v with
  | JNull => inr KNone
  | JBool b => inr (KNum (if b then 1 else 0)%Z)
  | JInt z => inr (KNum z)
  | JStr s => inr (KStr s)
  | JList _ | JDict _ => inl TypeErr
  end.

Definition tkey_eqb (a b : TitleKey) : bool :=
  match a, b with
  | KNone, KNone => true
  | KNum x, KNum y => Z.eqb x y
  | KStr x, KStr y => String.eqb x y
  | _, _ => false
  end.

(** The dict key [(s['title'], s['stream_url'])], as hashing sees it. *)
Definition station_key (s : ChannelInfo) : DbError + (TitleKey * string) :=
  k <-! title_key (ci_title s) ;; inr (k, ci_stream_url s).

(** [==] on two keys: item by item. *)
Definition key_eqb (a b : TitleKey * string) : bool :=
  tkey_eqb (fst a) (fst b) && String.eqb (snd a) (snd b).

(** An item of the [unique_stations] dict. *)
Abbreviation StationItem := ((TitleKey * string) * ChannelInfo)%type.

(** One iteration of the de-duplication loop over the [unique_stations]
    dict (kept as its items in insertion order): [key not in
    unique_stations] hashes the key, also while the dict is empty. *)
Definition dedup_step (acc : DbError + list StationItem) (s : ChannelInfo)
    : DbError + list StationItem :=
  unique_stations <-! acc ;;
  key <-! station_key s ;;
  if existsb (fun kv => key_eqb (fst kv) key) unique_stations then inr unique_stations
  else inr (unique_stations ++ [(key, s)])%list.

(** The loop: the dict's items, or the [TypeError] of the first station
    whose title cannot be hashed. *)
Definition unique_items (stations : list ChannelInfo) : DbError + list StationItem :=
  fold_left dedup_step stations (inr []).

(** [a < b] for two titles that hashing accepted: numbers by value, str
    by code points; any other pair, [None < None] included, raises
    [TypeError]. *)
Definition title_lt (a b : TitleKey) : DbError + bool :=
  match a, b with
  | KNum x, KNum y => inr (Z.ltb x y)
  | KStr x, KStr y => inr (match String.compare x y with Lt => true | _ => false end)
  | _, _ => inl TypeErr
  end.

(** [final_list.sort(key=lambda x: x['title'])] on
    [list(unique_stations.values())], each value's title being the title
    of its dict key.  Python's sort is stable, so when it returns, its
    result is the stable insertion sort's.  A comparison sort has to
    compare two titles that end up next to each other, so Python's sort
    raises [TypeError] exactly when this one does: when two of the titles
    cannot be compared (a list of one station is not compared at all). *)
Fixpoint insert_by_title (x : StationItem) (l : list StationItem) : DbError + list StationItem :=
  match l with
  | [] => inr [x]
  | y :: l' =>
      lt <-! title_lt (fst (fst y)) (fst (fst x)) ;;
      if lt then (r <-! insert_by_title x l' ;; inr (y :: r)) else inr (x :: l)
  end.

Fixpoint sort_by_title (l : list StationItem) : DbError + list StationItem :=
  match l with
  | [] => inr []
  | x :: l' => r <-! sort_by_title l' ;; insert_by_title x r
  end.

Definition final_list (stations : list ChannelInfo) : DbError + list ChannelInfo :=
  u <-! unique_items stations ;;
  r <-! sort_by_title u ;;
  inr (map snd r).

(** [str(v)], which is also what [f"{v}"] gives, for a JSON value;
    [repr] renders a list or a dict. *)
Definition py_str (repr : Json -> string) (v : Json) : string :=
  match v with
  | JNull => "None"
  | JBool true => "True"
  | JBool false => "False"
  | JInt z => Py.str_of_int z
  | JStr s => s
  | JList _ | JDict _ => repr v
  end.

Definition DQ : string := String (ascii_of_nat 34) EmptyString.

Definition station_line_info (repr : Json -> string) (station : ChannelInfo) : string :=
  let display_title := if truthy (ci_city station) then JStr (py_str repr (ci_title station))
                       else ci_title station in
  "#EXTINF:-1 group-title=" ++ DQ ++ py_str repr (ci_group_title station) ++ DQ ++
  " tvg-logo=" ++ DQ ++ ci_logo_url station ++ DQ ++ "," ++ py_str repr display_title.

(** The writes of the [with open(filename, 'w')] block. *)
Definition save_text (repr : Json -> string) (final_list : list ChannelInfo) : string :=
  "#EXTM3U" ++ NL ++
  cat (map (fun station => station_line_info repr station ++ NL ++ ci_stream_url station ++ NL)
           final_list).

(** [save_to_m3u(stations, filename)]: the [TypeError] of the
    de-duplication or of the sort, the exception of [open], or the file
    system afterwards and the count it logs. *)
Definition save_to_m3u (repr : Json -> string) (fs : FileSystem) (stations : list ChannelInfo)
    (filename : string) : DbError + (FileSystem * nat) :=
  fl <-! final_list stations ;;
  match open_write fs filename (save_text repr fl) with
  | inl e => inl (OpenError e)
  | inr fs' => inr (fs', List.length fl)
  end.

(** The keys of the stations, or the [TypeError] of the first title that
    cannot be hashed. *)
Fixpoint keyed (l : list ChannelInfo) : DbError + list StationItem :=
  match l with
  | [] => inr []
  | s :: rest => k <-! station_key s ;; r <-! keyed rest ;; inr ((k, s) :: r)
  end.

(** The items kept: the first of each key, in input order. *)
Fixpoint first_occ (seen : list (TitleKey * string)) (l : list StationItem) : list StationItem :=
  match l with
  | [] => []
  | it :: rest =>
      if existsb (fun k => key_eqb k (fst it)) seen then first_occ seen rest
      else it :: first_occ (seen ++ [fst it])%list rest
  end.

Lemma tkey_eqb_eq (a b : TitleKey) : tkey_eqb a b = true <-> a = b.
Proof.
  destruct a, b; simpl; split; intros H; try discriminate; try reflexivity.
  - apply Z.eqb_eq in H. subst. reflexivity.
  - injection H as ->. apply Z.eqb_refl.
  - apply String.eqb_eq in H. subst. reflexivity.
  - injection H as ->. apply String.eqb_refl.
Qed.

Lemma key_eqb_eq (a b : TitleKey * string) : key_eqb a b = true <-> a = b.
Proof.
  destruct a as [a1 a2], b as [b1 b2]. unfold key_eqb. simpl.
  rewrite andb_true_iff, tkey_eqb_eq, String.eqb_eq. split; [intros [-> ->]; reflexivity|].
  intros H. injection H as -> ->. auto.
Qed.

Lemma existsb_key (k : TitleKey * string) (seen : list (TitleKey * string)) :
  existsb (fun k' => key_eqb k' k) seen = true <-> In k seen.
Proof.
  rewrite existsb_exists. split.
  - intros (k' & Hin & Hk). apply key_eqb_eq in Hk. subst. exact Hin.
  - intros Hin. exists k. split; [exact Hin | apply key_eqb_eq; reflexivity].
Qed.

Lemma dedup_inl (l : list ChannelInfo) (e : DbError) :
  fold_left dedup_step l (inl e) = inl e.
Proof. induction l as [| s l IH]; [reflexivity | exact IH]. Qed.

Lemma fold_dedup (l : list ChannelInfo) (acc : list StationItem) :
  fold_left dedup_step l (inr acc) =
  (kl <-! keyed l ;; inr (acc ++ first_occ (map fst acc) kl)%list).
Proof.
  revert acc. induction l as [| s l IH]; intros acc.
  - simpl. rewrite app_nil_r. reflexivity.
  - cbn [fold_left keyed]. unfold dedup_step at 2. cbn [dbind].
    destruct (station_key s) as [e | k]; [apply dedup_inl|]. cbn [dbind].
    assert (Hex : existsb (fun kv => key_eqb (fst kv) k) acc =
                  existsb (fun k' => key_eqb k' k) (map fst acc)).
    { clear. induction acc as [| kv acc IHa]; simpl; [reflexivity | rewrite IHa; reflexivity]. }
    rewrite Hex. destruct (existsb _ (map fst acc)) eqn:Hin.
    + rewrite IH. destruct (keyed l) as [e | kl]; [reflexivity|].
      cbn [dbind first_occ fst]. rewrite Hin. reflexivity.
    + rewrite IH. destruct (keyed l) as [e | kl]; [reflexivity|].
      cbn [dbind first_occ fst]. rewrite Hin, map_app, <- app_assoc. reflexivity.
Qed.

Lemma unique_items_keyed (l : list ChannelInfo) :
  unique_items l = (kl <-! keyed l ;; inr (first_occ [] kl)).
Proof. unfold unique_items. rewrite fold_dedup. reflexivity. Qed.

Lemma station_key_error (s : ChannelInfo) (e : DbError) :
  station_key s = inl e -> e = TypeErr.
Proof.
  unfold station_key. destruct (ci_title s); simpl; intros H; try discriminate;
    injection H as <-; reflexivity.
Qed.

Lemma keyed_error (l : list ChannelInfo) (e : DbError) : keyed l = inl e -> e = TypeErr.
Proof.
  induction l as [| s l IH]; simpl; [discriminate|].
  destruct (station_key s) as [e' | k] eqn:Hk; simpl; [intros H; injection H as <-;
    exact (station_key_error s e' Hk)|].
  destruct (keyed l) as [e' | r]; simpl; [intros H; injection H as <-; exact (IH eq_refl)|].
  discriminate.
Qed.

Lemma keyed_bad (l : list ChannelInfo) (s : ChannelInfo) :
  In s l -> station_key s = inl TypeErr -> keyed l = inl TypeErr.
Proof.
  induction l as [| x l IH]; simpl; [tauto|]. intros [<- | Hin] Hs.
  - rewrite Hs. reflexivity.
  - destruct (station_key x) as [e | k] eqn:Hk; simpl.
    + rewrite (station_key_error x e Hk). reflexivity.
    + rewrite (IH Hin Hs). reflexivity.
Qed.

Lemma keyed_spec (l : list ChannelInfo) (kl : list StationItem) :
  keyed l = inr kl -> map snd kl = l /\ Forall (fun it => station_key (snd it) = inr (fst it)) kl.
Proof.
  revert kl. induction l as [| s l IH]; intros kl H.
  - injection H as <-. split; [reflexivity | constructor].
  - simpl in H. destruct (station_key s) as [e | k] eqn:Hk; [discriminate|].
    simpl in H. destruct (keyed l) as [e | r]; [discriminate|].
    injection H as <-. destruct (IH r eq_refl) as [Hm Hf].
    split; [simpl; rewrite Hm; reflexivity | constructor; [exact Hk | exact Hf]].
Qed.

Lemma keyed_ok (l : list ChannelInfo) :
  (forall s, In s l -> exists k, station_key s = inr k) -> exists kl, keyed l = inr kl.
Proof.
  induction l as [| s l IH]; intros H; [exists []; reflexivity|].
  destruct (H s (or_introl eq_refl)) as [k Hk].
  destruct IH as [r Hr]; [intros x Hx; apply H; right; exact Hx|].
  exists ((k, s) :: r). simpl. rewrite Hk, Hr. reflexivity.
Qed.

Lemma first_occ_props (seen : list (TitleKey * string)) (l : list StationItem) :
  NoDup (map fst (first_occ seen l)) /\
  (forall it, In it (first_occ seen l) -> In it l /\ ~ In (fst it) seen) /\
  (forall it, In it l -> In (fst it) seen \/
                         exists it', In it' (first_occ seen l) /\ fst it' = fst it) /\
  (forall it, In it (first_occ seen l) ->
     exists pre post, l = (pre ++ it :: post)%list /\ ~ In (fst it) (map fst pre)).
Proof.
  revert seen. induction l as [| x l IH]; intros seen.
  - simpl. split; [constructor | split; [tauto | split; tauto]].
  - simpl. destruct (existsb (fun k => key_eqb k (fst x)) seen) eqn:Hx.
    + apply existsb_key in Hx.
      destruct (IH seen) as (Hnd & Hns & Hcov & Hfirst).
      split; [exact Hnd | split; [| split]].
      * intros it Hit. destruct (Hns it Hit) as [Hin Hn]. split; [right; exact Hin | exact Hn].
      * intros it [<- | Hit]; [left; exact Hx | exact (Hcov it Hit)].
      * intros it Hit. destruct (Hfirst it Hit) as (pre & post & Hl & Hnin).
        exists (x :: pre), post. split; [rewrite Hl; reflexivity|].
        simpl. intros [Heq | Hin]; [|exact (Hnin Hin)].
        apply (proj2 (Hns it Hit)). rewrite <- Heq. exact Hx.
    + assert (Hx' : ~ In (fst x) seen).
      { intros Hin. apply existsb_key in Hin. congruence. }
      destruct (IH (seen ++ [fst x])%list) as (Hnd & Hns & Hcov & Hfirst).
      split; [| split; [| split]].
      * simpl. constructor; [|exact Hnd].
        intros Hin. apply in_map_iff in Hin as (it & Hk & Hit).
        apply (proj2 (Hns it Hit)). rewrite Hk. apply in_or_app. right. left. reflexivity.
      * intros it [<- | Hit]; [split; [left; reflexivity | exact Hx']|].
        destruct (Hns it Hit) as [Hin Hn]. split; [right; exact Hin|].
        intros Hin'. apply Hn. apply in_or_app. left. exact Hin'.
      * intros it [<- | Hit].
        -- right. exists x. split; [left; reflexivity | reflexivity].
        -- destruct (Hcov it Hit) as [Hin | (it' & Hit' & Hk)].
           ++ apply in_app_or in Hin as [Hin | [Hk | []]]; [left; exact Hin|].
              right. exists x. split; [left; reflexivity | exact Hk].
           ++ right. exists it'. split; [right; exact Hit' | exact Hk].
      * intros it [<- | Hit].
        -- exists [], l. split; [reflexivity | intros []].
        -- destruct (Hfirst it Hit) as (pre & post & Hl & Hnin).
           exists (x :: pre), post. split; [rewrite Hl; reflexivity|].
           simpl. intros [Heq | Hin]; [|exact (Hnin Hin)].
           apply (proj2 (Hns it Hit)). apply in_or_app. right. left. exact Heq.
Qed.

Lemma title_lt_error (a b : TitleKey) (e : DbError) : title_lt a b = inl e -> e = TypeErr.
Proof. destruct a, b; simpl; intros H; try discriminate; injection H as <-; reflexivity. Qed.

Lemma insert_by_title_error (x : StationItem) (l : list StationItem) (e : DbError) :
  insert_by_title x l = inl e -> e = TypeErr.
Proof.
  induction l as [| y l IH]; simpl; [discriminate|].
  destruct (title_lt (fst (fst y)) (fst (fst x))) as [e' | b] eqn:Hlt; simpl.
  - intros H. injection H as <-. exact (title_lt_error _ _ _ Hlt).
  - destruct b; [|discriminate].
    destruct (insert_by_title x l) as [e' | r]; simpl; [|discriminate].
    intros H. injection H as <-. exact (IH eq_refl).
Qed.

Lemma sort_by_title_error (l : list StationItem) (e : DbError) :
  sort_by_title l = inl e -> e = TypeErr.
Proof.
  induction l as [| x l IH]; simpl; [discriminate|].
  destruct (sort_by_title l) as [e' | r]; simpl.
  - intros H. injection H as <-. exact (IH eq_refl).
  - apply insert_by_title_error.
Qed.

Lemma insert_by_title_perm (x : StationItem) (l r : list StationItem) :
  insert_by_title x l = inr r -> Permutation r (x :: l).
Proof.
  revert r. induction l as [| y l IH]; simpl; intros r H.
  - injection H as <-. reflexivity.
  - destruct (title_lt (fst (fst y)) (fst (fst x))) as [e | b]; [discriminate|]. simpl in H.
    destruct b.
    + destruct (insert_by_title x l) as [e | r'] eqn:Hi; [discriminate|].
      injection H as <-. rewrite (IH r' eq_refl). apply perm_swap.
    + injection H as <-. reflexivity.
Qed.

Lemma sort_by_title_perm (l r : list StationItem) :
  sort_by_title l = inr r -> Permutation r l.
Proof.
  revert r. induction l as [| x l IH]; simpl; intros r H.
  - injection H as <-. reflexivity.
  - destruct (sort_by_title l) as [e | r'] eqn:Hs; [discriminate|]. simpl in H.
    rewrite (insert_by_title_perm x r' r H). apply perm_skip, IH. reflexivity.
Qed.

(** [a] may come before [b]: [b < a] is [False]. *)
Definition title_le_item (a b : StationItem) : Prop :=
  title_lt (fst (fst b)) (fst (fst a)) = inr false.

Lemma title_lt_asym (a b : TitleKey) : title_lt a b = inr true -> title_lt b a = inr false.
Proof.
  destruct a as [| x | x], b as [| y | y]; simpl; intros H; try discriminate.
  - injection H as H. apply Z.ltb_lt in H. f_equal. apply Z.ltb_ge. lia.
  - injection H as H. f_equal. rewrite String.compare_antisym.
    destruct (String.compare x y); simpl; congruence.
Qed.

Lemma title_lt_irrefl (a b : TitleKey) : title_lt a b = inr true -> tkey_eqb a b = false.
Proof.
  intros H. destruct (tkey_eqb a b) eqn:E; [|reflexivity].
  apply tkey_eqb_eq in E. subst.
  destruct b as [| y | y]; simpl in H; try discriminate.
  - rewrite Z.ltb_irrefl in H. discriminate.
  - pose proof (String.compare_antisym y y) as Ha.
    destruct (String.compare y y); simpl in Ha; discriminate.
Qed.

Lemma insert_by_title_sorted (x : StationItem) (l r : list StationItem) :
  Sorted title_le_item l -> insert_by_title x l = inr r -> Sorted title_le_item r.
Proof.
  intros Hs. revert r. induction Hs as [| y l Hl IH Hhd]; simpl; intros r H.
  - injection H as <-. repeat constructor.
  - destruct (title_lt (fst (fst y)) (fst (fst x))) as [e | b] eqn:Hyx; [discriminate|].
    simpl in H. destruct b.
    + destruct (insert_by_title x l) as [e | r'] eqn:Hi; [discriminate|].
      injection H as <-. constructor; [exact (IH r' eq_refl)|].
      destruct l as [| z l]; simpl in Hi.
      * injection Hi as <-. constructor. exact (title_lt_asym _ _ Hyx).
      * inversion Hhd as [| z' l' Hyz]; subst.
        destruct (title_lt (fst (fst z)) (fst (fst x))) as [e | b] eqn:Hzx; [discriminate|].
        simpl in Hi. destruct b.
        -- destruct (insert_by_title x l); [discriminate|]. injection Hi as <-.
           constructor. exact Hyz.
        -- injection Hi as <-. constructor. exact (title_lt_asym _ _ Hyx).
    + injection H as <-. constructor; [constructor; assumption|].
      constructor. exact Hyx.
Qed.

Lemma sort_by_title_sorted (l r : list StationItem) :
  sort_by_title l = inr r -> Sorted title_le_item r.
Proof.
  revert r. induction l as [| x l IH]; simpl; intros r H.
  - injection H as <-. constructor.
  - destruct (sort_by_title l) as [e | r'] eqn:Hs; [discriminate|]. simpl in H.
    exact (insert_by_title_sorted x r' r (IH r' eq_refl) H).
Qed.

Lemma insert_by_title_split (x : StationItem) (l r : list StationItem) :
  insert_by_title x l = inr r ->
  exists pre post, l = (pre ++ post)%list /\ r = (pre ++ x :: post)%list /\
                   Forall (fun y => title_lt (fst (fst y)) (fst (fst x)) = inr true) pre.
Proof.
  revert r. induction l as [| y l IH]; simpl; intros r H.
  - injection H as <-. exists [], []. auto.
  - destruct (title_lt (fst (fst y)) (fst (fst x))) as [e | b] eqn:Hyx; [discriminate|].
    simpl in H. destruct b.
    + destruct (insert_by_title x l) as [e | r'] eqn:Hi; [discriminate|].
      injection H as <-. destruct (IH r' eq_refl) as (pre & post & Hl & Hr & Hf).
      exists (y :: pre), post. rewrite Hl, Hr. auto.
    + injection H as <-. exists [], (y :: l). auto.
Qed.

Lemma sort_by_title_stable (k : TitleKey) (l r : list StationItem) :
  sort_by_title l = inr r ->
  filter (fun it => tkey_eqb (fst (fst it)) k) r = filter (fun it => tkey_eqb (fst (fst it)) k) l.
Proof.
  revert r. induction l as [| x l IH]; simpl; intros r H.
  - injection H as <-. reflexivity.
  - destruct (sort_by_title l) as [e | r'] eqn:Hs; [discriminate|]. simpl in H.
    specialize (IH r' eq_refl).
    destruct (insert_by_title_split x r' r H) as (pre & post & Hl & Hr & Hf).
    subst r r'. rewrite filter_app in IH |- *. simpl filter.
    assert (Hpre : filter (fun it => tkey_eqb (fst (fst it)) k) pre = [] \/
                   tkey_eqb (fst (fst x)) k = false).
    { destruct (tkey_eqb (fst (fst x)) k) eqn:Hx; [left | right; reflexivity].
      apply tkey_eqb_eq in Hx. clear -Hf Hx. induction Hf as [| y pre Hy _ IHf]; [reflexivity|].
      simpl. rewrite IHf. destruct (tkey_eqb (fst (fst y)) k) eqn:Hyk; [|reflexivity].
      apply tkey_eqb_eq in Hyk. rewrite Hyk, Hx in Hy.
      pose proof (title_lt_irrefl _ _ Hy) as Hn.
      rewrite (proj2 (tkey_eqb_eq k k) eq_refl) in Hn. discriminate Hn. }
    destruct (tkey_eqb (fst (fst x)) k) eqn:Hx.
    + destruct Hpre as [Hpre | Hpre]; [|discriminate].
      rewrite Hpre in IH |- *. simpl in IH |- *. rewrite IH. reflexivity.
    + exact IH.
Qed.

(** The kind of a title: [None], a number or a str. *)
Definition key_class (k : TitleKey) : nat :=
  match k with KNone => 0 | KNum _ => 1 | KStr _ => 2 end.

Lemma title_lt_defined (a b : TitleKey) :
  (exists v, title_lt a b = inr v) <-> key_class a = key_class b /\ key_class a <> 0.
Proof.
  destruct a, b; simpl; split; intros H;
    try (destruct H as [v Hv]; discriminate); try (destruct H; congruence);
    try (split; [reflexivity | discriminate]); eexists; reflexivity.
Qed.

Lemma insert_by_title_ok (x : StationItem) (l : list StationItem) (c : nat) :
  c <> 0 -> key_class (fst (fst x)) = c -> Forall (fun y => key_class (fst (fst y)) = c) l ->
  exists r, insert_by_title x l = inr r.
Proof.
  intros Hc Hx. induction 1 as [| y l Hy _ IH]; [eexists; reflexivity|].
  destruct (proj2 (title_lt_defined (fst (fst y)) (fst (fst x)))) as [v Hv];
    [split; congruence|].
  simpl. rewrite Hv. simpl. destruct v; [|eexists; reflexivity].
  destruct IH as [r Hr]. rewrite Hr. eexists. reflexivity.
Qed.

Lemma sort_by_title_ok_class (l : list StationItem) (c : nat) :
  c <> 0 -> Forall (fun y => key_class (fst (fst y)) = c) l -> exists r, sort_by_title l = inr r.
Proof.
  intros Hc. induction 1 as [| x l Hx Hl IH]; [eexists; reflexivity|].
  destruct IH as [r Hr]. simpl. rewrite Hr. simpl.
  apply (insert_by_title_ok x r c Hc Hx).
  apply Forall_forall. intros y Hy. rewrite Forall_forall in Hl.
  apply Hl. exact (Permutation_in _ (sort_by_title_perm l r Hr) Hy).
Qed.

Lemma sort_by_title_class (l : list StationItem) (r : list StationItem) :
  sort_by_title l = inr r ->
  List.length l <= 1 \/
  exists c, c <> 0 /\ Forall (fun y => key_class (fst (fst y)) = c) l.
Proof.
  revert r. induction l as [| x l IH]; simpl; intros r H; [left; lia|].
  destruct (sort_by_title l) as [e | r'] eqn:Hs; [discriminate|]. simpl in H.
  destruct r' as [| y r''].
  - left. pose proof (sort_by_title_perm l [] Hs) as Hp. apply Permutation_nil in Hp.
    subst l. simpl. lia.
  - right. simpl in H.
    destruct (title_lt (fst (fst y)) (fst (fst x))) as [e | v] eqn:Hyx; [discriminate|].
    destruct (proj1 (title_lt_defined (fst (fst y)) (fst (fst x))) (ex_intro _ v Hyx))
      as [Hcl Hnz].
    assert (Hy : In y l) by exact (Permutation_in _ (sort_by_title_perm l _ Hs) (or_introl eq_refl)).
    exists (key_class (fst (fst x))). split; [congruence|]. constructor; [reflexivity|].
    destruct (IH _ eq_refl) as [Hlen | (c & _ & Hall)].
    + destruct l as [| z [| w l]]; [destruct Hy | | simpl in Hlen; lia].
      destruct Hy as [<- | []]. constructor; [exact Hcl | constructor].
    + rewrite Forall_forall in Hall |- *. intros z Hz.
      rewrite (Hall z Hz), <- (Hall y Hy). exact Hcl.
Qed.

(** [station] with its ['city'] replaced. *)
Definition with_city (f : ChannelInfo -> Json) (s : ChannelInfo) : ChannelInfo :=
  mkChannelInfo (ci_title s) (ci_stream_url s) (ci_logo_url s) (ci_group_title s) (f s).

(** The entry that [parse_m3u] would build from the two lines written
    for [station]. *)
Definition station_entry (repr : Json -> string) (station : ChannelInfo) : Entry :=
  mkEntry (station_line_info repr station) None (ci_stream_url station).

(** A station whose fields survive the write: no line break inside the
    "#EXTINF" line, no trailing whitespace after the title, and a stream
    URL as [parse_m3u] stores it. *)
Definition station_ok (repr : Json -> string) (s : ChannelInfo) : Prop :=
  no_break (py_str repr (ci_title s)) /\ no_break (py_str repr (ci_group_title s)) /\
  no_break (ci_logo_url s) /\
  Py.rstrip (py_str repr (ci_title s)) = py_str repr (ci_title s) /\
  clean_line (ci_stream_url s) /\ Py.startswith (ci_stream_url s) "#" = false.

Lemma keyed_map (g : ChannelInfo -> ChannelInfo) (l : list ChannelInfo) :
  (forall s, station_key (g s) = station_key s) ->
  keyed (map g l) = (kl <-! keyed l ;; inr (map (fun it => (fst it, g (snd it))) kl)).
Proof.
  intros Hg. induction l as [| s l IH]; [reflexivity|].
  simpl. rewrite Hg. destruct (station_key s) as [e | k]; [reflexivity|]. simpl.
  rewrite IH. destruct (keyed l); reflexivity.
Qed.

Lemma first_occ_map (h : StationItem -> StationItem) (seen : list (TitleKey * string))
    (l : list StationItem) :
  (forall it, fst (h it) = fst it) -> first_occ seen (map h l) = map h (first_occ seen l).
Proof.
  intros Hh. revert seen. induction l as [| x l IH]; intros seen; [reflexivity|].
  simpl. rewrite Hh. destruct (existsb _ seen); [apply IH | simpl; rewrite IH; reflexivity].
Qed.

Lemma sort_by_title_map (h : StationItem -> StationItem) (l : list StationItem) :
  (forall it, fst (h it) = fst it) ->
  sort_by_title (map h l) = (r <-! sort_by_title l ;; inr (map h r)).
Proof.
  intros Hh. induction l as [| x l IH]; [reflexivity|].
  simpl. rewrite IH. destruct (sort_by_title l) as [e | r]; [reflexivity|]. simpl.
  clear IH. induction r as [| y r IHr]; [reflexivity|].
  simpl. rewrite !Hh. destruct (title_lt (fst (fst y)) (fst (fst x))) as [e | b]; [reflexivity|].
  simpl. destruct b; [|reflexivity].
  rewrite IHr. destruct (insert_by_title x r); reflexivity.
Qed.

Lemma final_list_in (stations fl : list ChannelInfo) (s : ChannelInfo) :
  final_list stations = inr fl -> In s fl -> In s stations.
Proof.
  unfold final_list. rewrite unique_items_keyed.
  destruct (keyed stations) as [e | kl] eqn:Hk; [discriminate|]. simpl.
  destruct (sort_by_title (first_occ [] kl)) as [e | r] eqn:Hs; [discriminate|]. simpl.
  intros H Hin. injection H as <-.
  apply in_map_iff in Hin as (it & <- & Hit).
  apply (Permutation_in _ (sort_by_title_perm _ _ Hs)) in Hit.
  apply (proj1 (proj2 (first_occ_props [] kl)) it) in Hit as [Hit _].
  rewrite <- (proj1 (keyed_spec stations kl Hk)). apply in_map. exact Hit.
Qed.

Lemma rstrip_app_fixed (a b : string) :
  Py.rstrip b = b -> b <> "" -> Py.rstrip (a ++ b) = a ++ b.
Proof.
  intros Hb Hne. induction a as [| c a IH]; [exact Hb|].
  change (String c a ++ b) with (String c (a ++ b)). simpl. rewrite IH.
  destruct (a ++ b) eqn:E; [destruct a, b; simpl in E; congruence | reflexivity].
Qed.

Lemma display_title_str (repr : Json -> string) (s : ChannelInfo) :
  py_str repr (if truthy (ci_city s) then JStr (py_str repr (ci_title s)) else ci_title s) =
  py_str repr (ci_title s).
Proof. destruct (truthy (ci_city s)); reflexivity. Qed.

Lemma station_entry_wf (repr : Json -> string) (s : ChannelInfo) :
  station_ok repr s -> entry_wf (station_entry repr s).
Proof.
  intros ([Ht1 Ht2] & [Hg1 Hg2] & [Hl1 Hl2] & Htr & Hu & Hu').
  unfold entry_wf, station_entry, station_line_info. cbn [extinf tags url tags_list].
  rewrite display_title_str.
  set (P := "#EXTINF:-1 group-title=" ++ DQ ++ py_str repr (ci_group_title s) ++ DQ ++
            " tvg-logo=" ++ DQ ++ ci_logo_url s ++ DQ).
  assert (Hline : "#EXTINF:-1 group-title=" ++ DQ ++ py_str repr (ci_group_title s) ++ DQ ++
                  " tvg-logo=" ++ DQ ++ ci_logo_url s ++ DQ ++ "," ++ py_str repr (ci_title s) =
                  P ++ ("," ++ py_str repr (ci_title s))).
  { unfold P. rewrite !str_app_assoc. reflexivity. }
  rewrite Hline.
  assert (Hcomma : Py.rstrip ("," ++ py_str repr (ci_title s)) = "," ++ py_str repr (ci_title s)).
  { change ("," ++ py_str repr (ci_title s)) with (String "," (py_str repr (ci_title s))).
    simpl. rewrite Htr. destruct (py_str repr (ci_title s)); reflexivity. }
  split; [| split; [| split; [intros t [] | split; [exact Hu | exact Hu']]]].
  - split; [| split; [| split]].
    + unfold Py.strip. unfold P. cbn [String.append Py.lstrip].
      change (Py.is_space "#"%char) with false. cbv iota.
      change (String "#" _) with (P ++ ("," ++ py_str repr (ci_title s))).
      apply rstrip_app_fixed; [exact Hcomma | discriminate].
    + unfold P. discriminate.
    + unfold P. rewrite !has_char_app, Hg1, Hl1, Ht1. reflexivity.
    + unfold P. rewrite !has_char_app, Hg2, Hl2, Ht2. reflexivity.
  - reflexivity.
Qed.

Lemma save_to_m3u_final (repr : Json -> string) (fs : FileSystem) (stations : list ChannelInfo)
    (filename : string) :
  save_to_m3u repr fs stations filename =
  match final_list stations with
  | inl e => inl e
  | inr fl =>
      match open_write fs filename (save_text repr fl) with
      | inl e => inl (OpenError e)
      | inr fs' => inr (fs', List.length fl)
      end
  end.
Proof. reflexivity. Qed.

(** X ([save_to_m3u]): a station whose title is a list or a dict makes
    the de-duplication loop raise [TypeError] (unhashable type), so
    nothing is written.  When the de-duplication and the sort return, the
    written stations have pairwise distinct (title, stream_url) keys,
    every input station's key is written, and each written station is
    the first input station with its key. *)
Theorem save_to_m3u_unique (repr : Json -> string) (fs : FileSystem)
    (stations : list ChannelInfo) (filename : string) :
  ((exists s, In s stations /\ station_key s = inl TypeErr) ->
     unique_items stations = inl TypeErr /\ final_list stations = inl TypeErr /\
     save_to_m3u repr fs stations filename = inl TypeErr) /\
  (forall fl, final_list stations = inr fl ->
     NoDup (map station_key fl) /\
     (forall s, In s stations -> exists s', In s' fl /\ station_key s' = station_key s) /\
     (forall s', In s' fl ->
        exists pre post, stations = (pre ++ s' :: post)%list /\
                         ~ In (station_key s') (map station_key pre))).
Proof.
  split.
  - intros (s & Hs & Hbad).
    assert (Hu : unique_items stations = inl TypeErr)
      by (rewrite unique_items_keyed, (keyed_bad stations s Hs Hbad); reflexivity).
    assert (Hf : final_list stations = inl TypeErr) by (unfold final_list; rewrite Hu; reflexivity).
    split; [exact Hu | split; [exact Hf|]].
    rewrite save_to_m3u_final, Hf. reflexivity.
  - intros fl Hfl. unfold final_list in Hfl. rewrite unique_items_keyed in Hfl.
    destruct (keyed stations) as [e | kl] eqn:Hk; [discriminate|]. simpl in Hfl.
    destruct (sort_by_title (first_occ [] kl)) as [e | r] eqn:Hs; [discriminate|].
    simpl in Hfl. injection Hfl as <-.
    destruct (keyed_spec stations kl Hk) as [Hm Hkeys].
    pose proof (sort_by_title_perm _ _ Hs) as Hp.
    destruct (first_occ_props [] kl) as (Hnd & Hns & Hcov & Hfirst).
    assert (Hkey : forall it, In it kl -> station_key (snd it) = inr (fst it))
      by (rewrite Forall_forall in Hkeys; exact Hkeys).
    assert (Hin_r : forall it, In it r -> In it (first_occ [] kl))
      by (intros it Hit; exact (Permutation_in _ Hp Hit)).
    assert (Hkey_r : forall it, In it r -> station_key (snd it) = inr (fst it))
      by (intros it Hit; exact (Hkey it (proj1 (Hns it (Hin_r it Hit))))).
    assert (Hmap : map station_key (map snd r) = map (fun it => inr (fst it)) r).
    { rewrite map_map. apply map_ext_in. intros it Hit. exact (Hkey_r it Hit). }
    split; [| split].
    + rewrite Hmap. rewrite <- (map_map fst (fun k => @inr DbError _ k)).
      apply NoDup_map_NoDup_ForallPairs; [intros a b _ _ H; injection H as H; exact H|].
      exact (Permutation_NoDup (Permutation_map _ (Permutation_sym Hp)) Hnd).
    + intros s Hs'. rewrite <- Hm in Hs'. apply in_map_iff in Hs' as (it & <- & Hit).
      destruct (Hcov it Hit) as [[] | (it' & Hit' & Hk')].
      exists (snd it'). split.
      * apply in_map. exact (Permutation_in _ (Permutation_sym Hp) Hit').
      * rewrite (Hkey it Hit), (Hkey it' (proj1 (Hns it' Hit'))), Hk'. reflexivity.
    + intros s' Hs'. apply in_map_iff in Hs' as (it & <- & Hit).
      pose proof (Hin_r it Hit) as Hit'.
      destruct (Hfirst it Hit') as (pre & post & Hkl & Hnin).
      exists (map snd pre), (map snd post). split.
      * rewrite <- Hm, Hkl, map_app. reflexivity.
      * rewrite (Hkey_r it Hit). intros Hin. apply Hnin.
        apply in_map_iff in Hin as (s & Hks & Hs2). apply in_map_iff in Hs2 as (it2 & <- & Hit2).
        assert (Hit2' : In it2 kl) by (rewrite Hkl; apply in_or_app; left; exact Hit2).
        rewrite (Hkey it2 Hit2') in Hks. injection Hks as Hks.
        rewrite <- Hks. apply in_map. exact Hit2.
Qed.

(** X ([save_to_m3u]): once the de-duplication has returned, the sort
    raises [TypeError] exactly when two or more stations are kept and
    their titles are neither all numbers nor all str (a [None] title
    cannot be compared even with [None]), and then nothing is written.
    When it returns, the written stations are the kept ones sorted by
    title, and stations with equal titles keep the order in which their
    keys first appeared (the sort is stable). *)
Theorem save_to_m3u_sorted (repr : Json -> string) (fs : FileSystem)
    (stations : list ChannelInfo) (filename : string) (u : list StationItem) :
  unique_items stations = inr u ->
  (final_list stations = inl TypeErr <->
     ~ (List.length u <= 1 \/ Forall (fun it => exists z, fst (fst it) = KNum z) u \/
        Forall (fun it => exists s, fst (fst it) = KStr s) u)) /\
  (final_list stations = inl TypeErr -> save_to_m3u repr fs stations filename = inl TypeErr) /\
  (forall fl, final_list stations = inr fl ->
     exists r, fl = map snd r /\ Sorted title_le_item r /\ Permutation r u /\
       (forall k, filter (fun it => tkey_eqb (fst (fst it)) k) r =
                  filter (fun it => tkey_eqb (fst (fst it)) k) u)).
Proof.
  intros Hu.
  assert (Hfl : final_list stations = (r <-! sort_by_title u ;; inr (map snd r)))
    by (unfold final_list; rewrite Hu; reflexivity).
  assert (Hclass : forall c, (c = 1 -> Forall (fun it => exists z, fst (fst it) = KNum z) u ->
                              Forall (fun it => key_class (fst (fst it)) = c) u) /\
                             (c = 2 -> Forall (fun it => exists s, fst (fst it) = KStr s) u ->
                              Forall (fun it => key_class (fst (fst it)) = c) u)).
  { intros c. split; intros -> H; eapply Forall_impl; try exact H;
      intros it [x Hx]; rewrite Hx; reflexivity. }
  split; [| split].
  - rewrite Hfl. split.
    + intros Herr Hok. destruct (sort_by_title u) as [e | r] eqn:Hs; [|discriminate].
      destruct Hok as [Hlen | [Hn | Hs']].
      * destruct u as [| x [| y u']]; simpl in Hs, Hlen; try lia; discriminate.
      * destruct (sort_by_title_ok_class u 1 ltac:(discriminate) (proj1 (Hclass 1) eq_refl Hn))
          as [r Hr]. congruence.
      * destruct (sort_by_title_ok_class u 2 ltac:(discriminate) (proj2 (Hclass 2) eq_refl Hs'))
          as [r Hr]. congruence.
    + intros Hnot. destruct (sort_by_title u) as [e | r] eqn:Hs.
      * rewrite (sort_by_title_error u e Hs). reflexivity.
      * exfalso. apply Hnot.
        destruct (sort_by_title_class u r Hs) as [Hlen | (c & Hc & Hall)]; [left; exact Hlen|].
        right. rewrite Forall_forall in Hall.
        destruct c as [| [| [| c]]]; [congruence | left | right |].
        -- apply Forall_forall. intros it Hit. specialize (Hall it Hit).
           destruct (fst (fst it)); simpl in Hall; try discriminate. eexists; reflexivity.
        -- apply Forall_forall. intros it Hit. specialize (Hall it Hit).
           destruct (fst (fst it)); simpl in Hall; try discriminate. eexists; reflexivity.
        -- exfalso. destruct u as [| it u']; [simpl in Hs; injection Hs as <-;
             exact (Hnot (or_introl (Nat.le_0_l 1)))|].
           specialize (Hall it (or_introl eq_refl)).
           destruct (fst (fst it)); simpl in Hall; discriminate.
  - intros Herr. rewrite save_to_m3u_final, Herr. reflexivity.
  - intros fl H. rewrite Hfl in H. destruct (sort_by_title u) as [e | r] eqn:Hs; [discriminate|].
    injection H as <-. exists r. split; [reflexivity|].
    split; [exact (sort_by_title_sorted u r Hs)|].
    split; [exact (sort_by_title_perm u r Hs)|].
    intros k. exact (sort_by_title_stable k u r Hs).
Qed.

(** X ([save_to_m3u]): the ['city'] field of a station has no effect on
    what the function does: the file written, the count logged, or the
    exception raised (both branches of the [display_title] conditional
    render the title). *)
Theorem save_to_m3u_city_ignored (repr : Json -> string) (fs : FileSystem)
    (stations : list ChannelInfo) (filename : string) (f : ChannelInfo -> Json) :
  save_to_m3u repr fs (map (with_city f) stations) filename = save_to_m3u repr fs stations filename.
Proof.
  set (h := fun it : StationItem => (fst it, with_city f (snd it))).
  assert (Hfl : final_list (map (with_city f) stations) =
                (fl <-! final_list stations ;; inr (map (with_city f) fl))).
  { unfold final_list. rewrite !unique_items_keyed, keyed_map by reflexivity.
    destruct (keyed stations) as [e | kl]; [reflexivity|]. simpl.
    fold h. rewrite (first_occ_map h) by reflexivity.
    rewrite (sort_by_title_map h) by reflexivity.
    destruct (sort_by_title (first_occ [] kl)) as [e | r]; [reflexivity|]. simpl.
    rewrite !map_map. reflexivity. }
  rewrite !save_to_m3u_final, Hfl.
  destruct (final_list stations) as [e | fl]; [reflexivity|]. simpl.
  assert (Htext : save_text repr (map (with_city f) fl) = save_text repr fl).
  { unfold save_text. rewrite map_map. do 3 f_equal. apply map_ext. intros s.
    unfold station_line_info. rewrite !display_title_str. reflexivity. }
  rewrite Htext, length_map. reflexivity.
Qed.

(** X ([save_to_m3u]): the file written has the layout of the validator's
    output (header, then an "#EXTINF" line and the URL per station, no
    tags).  When the de-duplication and the sort return, the file can be
    opened, and every station's rendered title, country and logo hold no
    line break and the title no trailing whitespace, the function returns
    and [parse_m3u] reads back exactly one entry per written station, in
    order. *)
Theorem save_to_m3u_reparses (repr : Json -> string) (fs : FileSystem)
    (stations : list ChannelInfo) (filename : string) (fl : list ChannelInfo) :
  Forall (station_ok repr) stations ->
  final_list stations = inr fl ->
  open_w_error fs filename = None ->
  save_text repr fl = write_playlist (map (station_entry repr) fl) /\
  exists fs', save_to_m3u repr fs stations filename = inr (fs', List.length fl) /\
              snd (parse_m3u fs' filename) = map (station_entry repr) fl.
Proof.
  intros Hall Hfl Hw.
  assert (Htext : save_text repr fl = write_playlist (map (station_entry repr) fl)).
  { unfold save_text, write_playlist. rewrite map_map. reflexivity. }
  split; [exact Htext|].
  exists (write_file fs filename (save_text repr fl)).
  rewrite save_to_m3u_final, Hfl. unfold open_write. rewrite Hw.
  split; [reflexivity|].
  rewrite read_written. cbn [snd].
  rewrite Htext, parse_written.
  - rewrite map_map. apply map_ext. reflexivity.
  - apply Forall_map, Forall_forall. intros s Hs. apply station_entry_wf.
    rewrite Forall_forall in Hall. apply Hall, (final_list_in stations fl s Hfl Hs).
Qed.

(** ** [radio-broser-search.py] *)

Section RbSearch.

(** [LOGO_DEV_TOKEN], the URL library's checks, and [int(s)] on a str:
    its value, or [None] for the [ValueError]. *)
Variable token : string.
Variable chk : UrlChecks.
Variable int_of_str : string -> option Z.

(** The sort key [int(x.get('clickcount', 0))]; [bool] is a subclass of
    [int], and [int] of [None], a list or a dict raises [TypeError]. *)
Definition rb_clickcount (x : Json) : DbError + Z :=
  v <-! attr (jget x "clickcount" (JInt 0)) ;;
  match v with
  | JInt z => inr z
  | JBool b => inr (if b then 1 else 0)%Z
  | JStr s => match int_of_str s with Some z => inr z | None => inl ConvError end
  | _ => inl ConvError
  end.

(** [list.sort] computes every key first, from left to right; the first
    key that raises aborts the sort. *)
Fixpoint rb_keys (data : list Json) : DbError + list (Z * Json) :=
  match data with
  | [] => inr []
  | x :: rest =>
      k <-! rb_clickcount x ;;
      ks <-! rb_keys rest ;;
      inr ((k, x) :: ks)
  end.

(** [sort(..., reverse=True)] is stable: items with equal keys keep their
    order; this is the stable insertion sort by decreasing key. *)
Fixpoint insert_desc (p : Z * Json) (l : list (Z * Json)) : list (Z * Json) :=
  match l with
  | [] => [p]
  | q :: l' => if (fst q <=? fst p)%Z then p :: l else q :: insert_desc p l'
  end.

Definition sort_desc (ks : list (Z * Json)) : list (Z * Json) := fold_right insert_desc [] ks.

(** [item.get(k, default).strip()] *)
Definition get_str (item : Json) (k default : string) : DbError + string :=
  v <-! attr (jget item k (JStr default)) ;;
  match v with JStr s => inr (Py.strip s) | _ => inl AttrError end.

Definition rb_line (logo display_title : string) : string :=
  "#EXTINF:-1 group-title=" ++ DQ ++ TARGET_COUNTRY ++ DQ ++ " radio=" ++ DQ ++ "true" ++ DQ ++
  " tvg-logo=" ++ DQ ++ logo ++ DQ ++ "," ++ display_title.

(** The [try] body of the loop: the two lines it writes, [None] when
    [url] is empty, or the exception that makes it [continue]. *)
Definition rb_item (item : Json) : DbError + option (string * string) :=
  name <-! get_str item "name" "Unknown" ;;
  logo <-! get_str item "favicon" "" ;;
  url <-! get_str item "url_resolved" "" ;;
  homepage <-! get_str item "homepage" "" ;;
  state <-! get_str item "state" "" ;;
  let logo1 := if String.eqb logo "" && negb (String.eqb homepage "")
               then rb_get_logo_from_website token chk homepage
               else Some logo in
  let logo2 := match logo1 with
               | Some l => if String.eqb l "" then avatar_url name else l
               | None => avatar_url name
               end in
  let display_title := if negb (String.eqb state "") then name ++ " - " ++ state else name in
  inr (if negb (String.eqb url "") then Some (rb_line logo2 display_title, url) else None).

Definition rb_item_text (item : Json) : string :=
  match rb_item item with
  | inr (Some (line, url)) => line ++ NL ++ url ++ NL
  | _ => ""
  end.

Definition rb_text (data : list Json) : string :=
  "#EXTM3U" ++ NL ++ cat (map rb_item_text data).

Definition RB_OUTPUT_FILE : string := "Radio Browser - " ++ TARGET_COUNTRY ++ ".m3u".

(** The script, from the outcome of [requests.get(url, timeout=30)]: the
    file is opened only after [raise_for_status], the 200 test, [len],
    and the sort have passed; any exception before, or from [open]
    itself, goes to the outer [except] and only prints. *)
Definition rb_script (fs : FileSystem) (r : DbExc + DbResponse) : FileSystem :=
  match r with
  | inl _ => fs
  | inr resp =>
      if raises_for_status (db_status resp) then fs
      else if (db_status resp =? 200)%Z then
        match db_json resp with
        | Some (JList data) =>
            match rb_keys data with
            | inl _ => fs
            | inr ks =>
                match open_write fs RB_OUTPUT_FILE (rb_text (map snd (sort_desc ks))) with
                | inl _ => fs
                | inr fs' => fs'
                end
            end
        | _ => fs   (* no JSON body, [len] of a non-sized value, or no [.sort] *)
        end
      else fs
  end.

(** The stations written, as pairs of lines. *)
Definition rb_written (data : list Json) : list (string * string) :=
  flat_map (fun item => match rb_item item with inr (Some p) => [p] | _ => [] end) data.

Definition rb_entry (p : string * string) : Entry := mkEntry (fst p) None (snd p).

(** What an item's str fields must satisfy for its lines to read back:
    no line break, and a stream URL that does not start with "#". *)
Definition rb_field_ok (item : Json) (k : string) (P : string -> Prop) : Prop :=
  forall s, jget item k JNull = Some (JStr s) -> P s.

Definition rb_item_ok (item : Json) : Prop :=
  rb_field_ok item "name" no_break /\ rb_field_ok item "favicon" no_break /\
  rb_field_ok item "url_resolved" (fun s => no_break s /\ Py.startswith (Py.strip s) "#" = false) /\
  rb_field_ok item "state" no_break.

End RbSearch.

Lemma rb_keys_spec (int_of_str : string -> option Z) (data : list Json) (ks : list (Z * Json)) :
  rb_keys int_of_str data = inr ks ->
  map snd ks = data /\ Forall (fun p => rb_clickcount int_of_str (snd p) = inr (fst p)) ks.
Proof.
  revert ks. induction data as [| x data IH]; intros ks H.
  - injection H as <-. split; [reflexivity | constructor].
  - simpl in H. destruct (rb_clickcount int_of_str x) as [e | k] eqn:Hk; [discriminate|].
    simpl in H. destruct (rb_keys int_of_str data) as [e | ks'] eqn:Hks; [discriminate|].
    injection H as <-. destruct (IH ks' eq_refl) as [Hm Hf].
    split; [simpl; rewrite Hm; reflexivity | constructor; [exact Hk | exact Hf]].
Qed.

Lemma insert_desc_perm (p : Z * Json) (l : list (Z * Json)) :
  Permutation (insert_desc p l) (p :: l).
Proof.
  induction l as [| q l IH]; simpl; [reflexivity|].
  destruct (fst q <=? fst p)%Z; [reflexivity|].
  rewrite IH. apply perm_swap.
Qed.

Lemma sort_desc_perm (l : list (Z * Json)) : Permutation (sort_desc l) l.
Proof.
  induction l as [| x l IH]; simpl; [reflexivity|].
  rewrite insert_desc_perm. apply perm_skip, IH.
Qed.

Lemma insert_desc_sorted (p : Z * Json) (l : list (Z * Json)) :
  Sorted (fun a b => (fst b <=? fst a)%Z = true) l ->
  Sorted (fun a b => (fst b <=? fst a)%Z = true) (insert_desc p l).
Proof.
  induction 1 as [| q l Hl IH Hhd]; simpl.
  - repeat constructor.
  - destruct (fst q <=? fst p)%Z eqn:Hqp.
    + constructor; [constructor; assumption | constructor; exact Hqp].
    + assert (Hpq : (fst p <=? fst q)%Z = true) by (apply Z.leb_gt in Hqp; apply Z.leb_le; lia).
      constructor; [exact IH|].
      destruct l as [| z l]; simpl.
      * constructor. exact Hpq.
      * inversion Hhd; subst. destruct (fst z <=? fst p)%Z; constructor; [exact Hpq | assumption].
Qed.

Lemma insert_desc_split (p : Z * Json) (l : list (Z * Json)) :
  exists pre post, l = (pre ++ post)%list /\ insert_desc p l = (pre ++ p :: post)%list /\
                   Forall (fun q => (fst q <=? fst p)%Z = false) pre.
Proof.
  induction l as [| q l IH]; simpl.
  - exists [], []. auto.
  - destruct (fst q <=? fst p)%Z eqn:Hqp.
    + exists [], (q :: l). auto.
    + destruct IH as (pre & post & Hl & Hi & Hf).
      exists (q :: pre), post. rewrite Hi, Hl. auto.
Qed.

Lemma sort_desc_stable (z : Z) (l : list (Z * Json)) :
  filter (fun p => (fst p =? z)%Z) (sort_desc l) = filter (fun p => (fst p =? z)%Z) l.
Proof.
  induction l as [| x l IH]; [reflexivity|].
  simpl sort_desc. fold (sort_desc l).
  destruct (insert_desc_split x (sort_desc l)) as (pre & post & Hl & Hi & Hf).
  rewrite Hi. rewrite Hl in IH. rewrite filter_app in IH |- *. simpl filter.
  destruct (fst x =? z)%Z eqn:Hx; [|exact IH].
  apply Z.eqb_eq in Hx.
  assert (Hpre : filter (fun p => (fst p =? z)%Z) pre = []).
  { clear -Hf Hx. induction Hf as [| y pre Hy _ IHf]; [reflexivity|].
    simpl. destruct (fst y =? z)%Z eqn:Hyz; [|exact IHf].
    apply Z.eqb_eq in Hyz. apply Z.leb_gt in Hy. lia. }
  rewrite Hpre in IH |- *. simpl. rewrite <- IH. reflexivity.
Qed.

Lemma rb_text_layout (token : string) (chk : UrlChecks) (data : list Json) :
  rb_text token chk data = write_playlist (map rb_entry (rb_written token chk data)).
Proof.
  unfold rb_text, write_playlist. do 2 f_equal.
  induction data as [| x data IH]; [reflexivity|].
  simpl. rewrite map_app, map_app, cat_app, <- IH. f_equal.
  unfold rb_item_text. destruct (rb_item token chk x) as [e | [[l u]|]]; try reflexivity.
  cbn [map cat fold_right]. rewrite str_app_nil_r. reflexivity.
Qed.

Lemma rb_item_some (token : string) (chk : UrlChecks) (item : Json) (p : string * string) :
  rb_item token chk item = inr (Some p) ->
  exists name logo url homepage state,
    get_str item "name" "Unknown" = inr name /\ get_str item "favicon" "" = inr logo /\
    get_str item "url_resolved" "" = inr url /\ get_str item "homepage" "" = inr homepage /\
    get_str item "state" "" = inr state /\ url <> "" /\
    p = (rb_line
           (match (if String.eqb logo "" && negb (String.eqb homepage "")
                   then rb_get_logo_from_website token chk homepage else Some logo) with
            | Some l => if String.eqb l "" then avatar_url name else l
            | None => avatar_url name
            end)
           (if negb (String.eqb state "") then name ++ " - " ++ state else name), url).
Proof.
  unfold rb_item.
  destruct (get_str item "name" "Unknown") as [|name]; [discriminate|]. cbn [dbind].
  destruct (get_str item "favicon" "") as [|logo]; [discriminate|]. cbn [dbind].
  destruct (get_str item "url_resolved" "") as [|url]; [discriminate|]. cbn [dbind].
  destruct (get_str item "homepage" "") as [|homepage]; [discriminate|]. cbn [dbind].
  destruct (get_str item "state" "") as [|state]; [discriminate|]. cbn [dbind].
  destruct (String.eqb url "") eqn:Hu; [discriminate|]. cbn [negb].
  intros H. injection H as <-. apply String.eqb_neq in Hu.
  exists name, logo, url, homepage, state. repeat split; auto.
Qed.

Lemma avatar_url_nonempty (title : string) : avatar_url title <> "".
Proof. unfold avatar_url. discriminate. Qed.

Lemma rb_logo_nonempty (token : string) (chk : UrlChecks) (w x : string) :
  rb_get_logo_from_website token chk w = Some x -> x <> "".
Proof.
  unfold rb_get_logo_from_website, logo_of_website.
  destruct (String.eqb w ""); [discriminate|].
  destruct (Url.netloc chk w); [|discriminate]. cbn zeta.
  destruct (existsb _ _); [discriminate|]. destruct (negb _); [|discriminate].
  intros H. injection H as <-. unfold LOGO_DEV_PREFIX. discriminate.
Qed.

(** A written logo: the favicon, the logo.dev URL, or the placeholder. *)
Lemma rb_final_logo_cases (token : string) (chk : UrlChecks) (name logo homepage : string) :
  let l := match (if String.eqb logo "" && negb (String.eqb homepage "")
                  then rb_get_logo_from_website token chk homepage else Some logo) with
           | Some l => if String.eqb l "" then avatar_url name else l
           | None => avatar_url name
           end in
  (l = logo /\ logo <> "") \/
  (logo = "" /\ rb_get_logo_from_website token chk homepage = Some l) \/
  l = avatar_url name.
Proof.
  cbv zeta. destruct (String.eqb logo "") eqn:Hl; cbn [andb].
  - apply String.eqb_eq in Hl. subst logo.
    destruct (negb (String.eqb homepage "")).
    + destruct (rb_get_logo_from_website token chk homepage) as [x|] eqn:Hx; [|auto].
      destruct (String.eqb x "") eqn:Hx0; [auto|]. right. left. auto.
    + cbn [String.eqb]. auto.
  - rewrite Hl. left. apply String.eqb_neq in Hl. auto.
Qed.

Lemma remove_unsafe_no_break (s : string) : no_break (Url.remove_unsafe s).
Proof.
  induction s as [| a r IH]; [split; reflexivity|]. simpl.
  destruct ((nat_of_ascii a =? 9)%nat || (nat_of_ascii a =? 10)%nat || (nat_of_ascii a =? 13)%nat)
    eqn:E; [exact IH|].
  destruct IH as [H1 H2]. split; cbn [has_char]; [rewrite H1 | rewrite H2]; rewrite orb_false_r.
  - destruct (Ascii.eqb a LF) eqn:Ea; [|reflexivity].
    apply Ascii.eqb_eq in Ea. subst a. vm_compute in E. discriminate E.
  - destruct (Ascii.eqb a CR) eqn:Ea; [|reflexivity].
    apply Ascii.eqb_eq in Ea. subst a. vm_compute in E. discriminate E.
Qed.

Lemma has_char_take_netloc (c : ascii) (s : string) :
  has_char c s = false -> has_char c (Url.take_netloc s) = false.
Proof.
  induction s as [| d s IH]; simpl; intros H; [reflexivity|].
  apply orb_false_iff in H as [Hd Hs].
  destruct (Url.is_netloc_delim d); [reflexivity|]. simpl. rewrite Hd, IH by exact Hs. reflexivity.
Qed.

Lemma has_char_double_slash (c : ascii) (url : string) :
  has_char c url = false ->
  has_char c (match url with
              | String "/" (String "/" rest) => Url.take_netloc rest
              | _ => EmptyString
              end) = false.
Proof.
  intros H. destruct url as [| a [| b rest]]; [reflexivity | destruct a as [[] [] [] [] [] [] [] []]; reflexivity |].
  destruct a as [[] [] [] [] [] [] [] []]; try reflexivity.
  destruct b as [[] [] [] [] [] [] [] []]; try reflexivity.
  cbn [has_char] in H. apply orb_false_iff in H as [_ H]. apply orb_false_iff in H as [_ H].
  apply has_char_take_netloc, H.
Qed.

Lemma has_char_drop (c : ascii) (n : nat) (s : string) :
  has_char c s = false -> has_char c (Py2.drop n s) = false.
Proof.
  revert n. induction s as [| d s IH]; intros [| n] H; simpl; try exact H.
  apply IH. simpl in H. apply orb_false_iff in H as [_ H]. exact H.
Qed.

Lemma netloc_no_break (chk : UrlChecks) (w nl : string) :
  Url.netloc chk w = Some nl -> no_break nl.
Proof.
  unfold Url.netloc. cbv zeta.
  destruct (remove_unsafe_no_break (Url.lstrip_c0 w)) as [H1 H2].
  apply (has_char_strip_scheme LF) in H1. apply (has_char_strip_scheme CR) in H2.
  apply (has_char_double_slash LF) in H1. apply (has_char_double_slash CR) in H2.
  set (m := match Url.strip_scheme (Url.remove_unsafe (Url.lstrip_c0 w)) with
            | String "/" (String "/" rest) => Url.take_netloc rest
            | _ => EmptyString
            end) in *.
  intros H.
  repeat match type of H with context [if ?b then _ else _] => destruct b end;
    try discriminate H.
  injection H as <-. split; assumption.
Qed.

Lemma rb_logo_no_break (token : string) (chk : UrlChecks) (w x : string) :
  no_break token -> rb_get_logo_from_website token chk w = Some x -> no_break x.
Proof.
  intros [T1 T2]. unfold rb_get_logo_from_website, logo_of_website.
  destruct (String.eqb w ""); [discriminate|].
  destruct (Url.netloc chk w) as [nl|] eqn:Hnl; [|discriminate]. cbv zeta.
  destruct (existsb _ _); [discriminate|]. destruct (negb _); [|discriminate].
  intros H.
  assert (Hx : x = LOGO_DEV_PREFIX ++ www_stripped nl ++ "?token=" ++ token)
    by (injection H as <-; reflexivity).
  rewrite Hx. destruct (netloc_no_break chk w nl Hnl) as [N1 N2].
  unfold no_break, www_stripped. rewrite !has_char_app, T1, T2.
  destruct (Py.startswith nl "www.");
    [rewrite (has_char_drop LF 4 nl N1), (has_char_drop CR 4 nl N2) | rewrite N1, N2];
    split; reflexivity.
Qed.

Lemma has_char_substring (c : ascii) (n m : nat) (s : string) :
  has_char c s = false -> has_char c (String.substring n m s) = false.
Proof.
  revert n m. induction s as [| d s IH]; intros [| n] [| m] H; simpl; try reflexivity.
  - simpl in H. apply orb_false_iff in H as [Hd Hs]. rewrite Hd. apply IH, Hs.
  - simpl in H. apply orb_false_iff in H as [_ Hs]. apply IH, Hs.
  - simpl in H. apply orb_false_iff in H as [_ Hs]. apply IH, Hs.
Qed.

Lemma has_char_replace_fuel (c : ascii) (fuel : nat) (old new s : string) :
  has_char c s = false -> has_char c new = false ->
  has_char c (Py.replace_fuel fuel old new s) = false.
Proof.
  revert s. induction fuel as [| fuel IH]; intros s Hs Hn; [exact Hs|].
  destruct s as [| d r]; [reflexivity|]. cbn [Py.replace_fuel].
  destruct (String.prefix old (String d r)).
  - rewrite has_char_app, Hn. apply IH; [apply has_char_substring, Hs | exact Hn].
  - simpl in Hs |- *. apply orb_false_iff in Hs as [Hd Hr]. rewrite Hd. apply IH; assumption.
Qed.

Lemma avatar_url_no_break (title : string) : no_break title -> no_break (avatar_url title).
Proof.
  intros [H1 H2]. unfold avatar_url, Py.replace, no_break. rewrite !has_char_app.
  rewrite (has_char_replace_fuel LF), (has_char_replace_fuel CR) by (assumption || reflexivity).
  split; reflexivity.
Qed.

Lemma rstrip_strip (s : string) : Py.rstrip (Py.strip s) = Py.strip s.
Proof. unfold Py.strip. apply rstrip_idem. Qed.

Lemma rstrip_comma (d : string) : Py.rstrip d = d -> Py.rstrip ("," ++ d) = "," ++ d.
Proof.
  intros H. change ("," ++ d) with (String "," d). simpl. rewrite H. destruct d; reflexivity.
Qed.

Lemma no_break_app (a b : string) : no_break a -> no_break b -> no_break (a ++ b).
Proof.
  intros [A1 A2] [B1 B2]. unfold no_break. rewrite !has_char_app, A1, A2, B1, B2. auto.
Qed.

Lemma no_break_strip (s : string) : no_break s -> no_break (Py.strip s).
Proof. intros [H1 H2]. split; apply has_char_strip; assumption. Qed.

Lemma rb_line_wf (logo display u : string) :
  no_break logo -> no_break display -> Py.rstrip display = display ->
  clean_line u -> Py.startswith u "#" = false ->
  entry_wf (rb_entry (rb_line logo display, u)).
Proof.
  intros Hl Hd Hdr Hu Hu'. unfold entry_wf, rb_entry. cbn [fst snd extinf tags url tags_list].
  set (P := "#EXTINF:-1 group-title=" ++ DQ ++ TARGET_COUNTRY ++ DQ ++ " radio=" ++ DQ ++
            "true" ++ DQ ++ " tvg-logo=" ++ DQ ++ logo ++ DQ).
  assert (Hline : rb_line logo display = P ++ ("," ++ display)).
  { unfold rb_line, P. rewrite !str_app_assoc. reflexivity. }
  assert (HP : no_break P).
  { unfold P. repeat (apply no_break_app; [split; reflexivity |]).
    apply no_break_app; [exact Hl | split; reflexivity]. }
  rewrite Hline.
  split; [| split; [| split; [intros t [] | split; [exact Hu | exact Hu']]]].
  - split; [| split; [| exact (no_break_app _ _ HP (no_break_app "," _ (conj eq_refl eq_refl) Hd))]].
    + unfold Py.strip. unfold P. cbn [String.append Py.lstrip].
      change (Py.is_space "#"%char) with false. cbv iota.
      change (String "#" _) with (P ++ ("," ++ display)).
      apply rstrip_app_fixed; [apply rstrip_comma, Hdr | discriminate].
    + unfold P. discriminate.
  - unfold P. reflexivity.
Qed.

Lemma get_str_field (P : string -> Prop) (item : Json) (k d v : string) :
  P d -> rb_field_ok item k P -> get_str item k d = inr v -> exists s, P s /\ v = Py.strip s.
Proof.
  unfold get_str, rb_field_ok, jget. intros Hd Hf.
  destruct item as [| | | | | kv]; try discriminate. cbn [attr dbind].
  destruct (find (fun p => String.eqb (fst p) k) kv) as [[k' x]|] eqn:E.
  - destruct x; try discriminate. intros H. injection H as <-.
    exists s. split; [apply Hf; reflexivity | reflexivity].
  - intros H. injection H as <-. exists d. auto.
Qed.

Lemma rb_item_wf (token : string) (chk : UrlChecks) (item : Json) (p : string * string) :
  no_break token -> rb_item_ok item -> rb_item token chk item = inr (Some p) ->
  entry_wf (rb_entry p).
Proof.
  intros Ht (Hn & Hf & Hu & Hs) H.
  destruct (rb_item_some token chk item p H)
    as (name & logo & url & homepage & state & Gn & Gf & Gu & Gh & Gs & Hne & ->).
  destruct (get_str_field no_break item "name" "Unknown" name ltac:(split; reflexivity) Hn Gn) as (s1 & Hs1 & ->).
  destruct (get_str_field no_break item "favicon" "" logo ltac:(split; reflexivity) Hf Gf) as (s2 & Hs2 & ->).
  destruct (get_str_field (fun s => no_break s /\ Py.startswith (Py.strip s) "#" = false)
              item "url_resolved" "" url ltac:(repeat split) Hu Gu) as (s3 & [Hs3 Hs3'] & ->).
  destruct (get_str_field no_break item "state" "" state ltac:(split; reflexivity) Hs Gs) as (s4 & Hs4 & ->).
  apply no_break_strip in Hs1, Hs2, Hs3, Hs4.
  apply rb_line_wf.
  - destruct (String.eqb (Py.strip s2) "") eqn:E2; cbn [andb].
    + destruct (negb (String.eqb homepage "")).
      * destruct (rb_get_logo_from_website token chk homepage) as [x|] eqn:Hx.
        -- destruct (String.eqb x ""); [apply avatar_url_no_break, Hs1|].
           exact (rb_logo_no_break token chk homepage x Ht Hx).
        -- apply avatar_url_no_break, Hs1.
      * rewrite E2. apply avatar_url_no_break, Hs1.
    + rewrite E2. exact Hs2.
  - destruct (negb (String.eqb (Py.strip s4) "")); [|exact Hs1].
    apply no_break_app; [exact Hs1 | apply no_break_app; [split; reflexivity | exact Hs4]].
  - destruct (negb (String.eqb (Py.strip s4) "")) eqn:E4; [|apply rstrip_strip].
    rewrite <- str_app_assoc. apply rstrip_app_fixed; [apply rstrip_strip|].
    apply negb_true_iff, String.eqb_neq in E4. exact E4.
  - destruct Hs3 as [H1 H2]. split; [apply strip_idem | split; [exact Hne | split; assumption]].
  - exact Hs3'.
Qed.

Lemma rb_written_wf (token : string) (chk : UrlChecks) (data : list Json) :
  no_break token -> Forall rb_item_ok data -> Forall (fun p => entry_wf (rb_entry p)) (rb_written token chk data).
Proof.
  intros Ht. induction 1 as [| x data Hx _ IH]; [constructor|].
  simpl. apply Forall_app. split; [|exact IH].
  destruct (rb_item token chk x) as [e | [p|]] eqn:E; try constructor.
  - exact (rb_item_wf token chk x p Ht Hx E).
  - constructor.
Qed.

(** X ([radio-broser-search.py], the sort): when every key
    [int(x.get('clickcount', 0))] computes, the sorted list holds the
    same items, by non-increasing click count, and items with equal
    click counts keep their input order. *)
Theorem rb_sort_order (int_of_str : string -> option Z) (data : list Json) (ks : list (Z * Json)) :
  rb_keys int_of_str data = inr ks ->
  map snd ks = data /\
  Forall (fun p => rb_clickcount int_of_str (snd p) = inr (fst p)) ks /\
  Sorted (fun a b => (fst b <=? fst a)%Z = true) (sort_desc ks) /\
  Permutation (map snd (sort_desc ks)) data /\
  (forall z, filter (fun p => (fst p =? z)%Z) (sort_desc ks) = filter (fun p => (fst p =? z)%Z) ks).
Proof.
  intros H. destruct (rb_keys_spec int_of_str data ks H) as [Hm Hf].
  split; [exact Hm | split; [exact Hf | split; [| split]]].
  - clear. induction ks as [| x ks IH]; simpl; [constructor|]. apply insert_desc_sorted, IH.
  - rewrite <- Hm. apply Permutation_map, sort_desc_perm.
  - intros z. apply sort_desc_stable.
Qed.

(** X ([radio-broser-search.py]): the script changes no file unless the
    request returns status 200 with a JSON list body whose every item
    has a computable click count and [OUTPUT_FILE] can be opened for
    writing; then it writes [OUTPUT_FILE] with the items in sorted
    order. *)
Theorem rb_script_cases (token : string) (chk : UrlChecks) (int_of_str : string -> option Z)
    (fs : FileSystem) (r : DbExc + DbResponse) :
  rb_script token chk int_of_str fs r = fs \/
  exists resp data ks,
    r = inr resp /\ db_status resp = 200%Z /\ db_json resp = Some (JList data) /\
    rb_keys int_of_str data = inr ks /\ open_w_error fs RB_OUTPUT_FILE = None /\
    rb_script token chk int_of_str fs r =
      write_file fs RB_OUTPUT_FILE (rb_text token chk (map snd (sort_desc ks))).
Proof.
  unfold rb_script. destruct r as [e | resp]; [left; reflexivity|].
  destruct (raises_for_status (db_status resp)); [left; reflexivity|].
  destruct (db_status resp =? 200)%Z eqn:Hs; [|left; reflexivity].
  destruct (db_json resp) as [[| | | | data |]|] eqn:Hj; try (left; reflexivity).
  destruct (rb_keys int_of_str data) as [e | ks] eqn:Hk; [left; reflexivity|].
  unfold open_write. destruct (open_w_error fs RB_OUTPUT_FILE) eqn:Hw; [left; reflexivity|].
  right. exists resp, data, ks. apply Z.eqb_eq in Hs. auto 6.
Qed.

(** X ([radio-broser-search.py], the loop): the file is the header then,
    for each item in order whose [try] body completes with a non-empty
    stripped [url_resolved], its "#EXTINF" line and that URL; every
    written line carries a non-empty [tvg-logo] (the favicon, the
    logo.dev URL or the ui-avatars placeholder). *)
Theorem rb_written_lines (token : string) (chk : UrlChecks) (data : list Json) :
  rb_text token chk data = write_playlist (map rb_entry (rb_written token chk data)) /\
  Forall (fun p => snd p <> "" /\ Py.strip (snd p) = snd p /\
                   exists logo display_title, logo <> "" /\ fst p = rb_line logo display_title)
         (rb_written token chk data).
Proof.
  split; [apply rb_text_layout|].
  induction data as [| x data IH]; [constructor|].
  simpl. apply Forall_app. split; [|exact IH].
  destruct (rb_item token chk x) as [e | [p|]] eqn:E; try constructor; [|constructor].
  destruct (rb_item_some token chk x p E)
    as (name & logo & url & homepage & state & _ & _ & Gu & _ & _ & Hne & ->).
  cbn [fst snd]. split; [exact Hne | split].
  - unfold get_str in Gu. destruct (attr _) as [|v]; [discriminate|]. cbn [dbind] in Gu.
    destruct v; try discriminate. injection Gu as <-. apply strip_idem.
  - eexists _, _. split; [| reflexivity].
    destruct (rb_final_logo_cases token chk name logo homepage) as [[-> Hl] | [[_ Hx] | ->]].
    + exact Hl.
    + exact (rb_logo_nonempty token chk homepage _ Hx).
    + apply avatar_url_nonempty.
Qed.

(** X ([radio-broser-search.py] and [validate_m3u.py]): when the script
    writes its file, the output file can be opened, the string fields it
    reads hold no line break, the stripped [url_resolved] does not start
    with "#", and the token holds no line break, [parse_m3u] reads the file back as one entry per
    written station, in the sorted order. *)
Theorem rb_script_reparses (token : string) (chk : UrlChecks) (int_of_str : string -> option Z)
    (fs : FileSystem) (resp : DbResponse) (data : list Json) (ks : list (Z * Json)) :
  db_status resp = 200%Z -> db_json resp = Some (JList data) ->
  rb_keys int_of_str data = inr ks ->
  no_break token -> Forall rb_item_ok data -> open_w_error fs RB_OUTPUT_FILE = None ->
  snd (parse_m3u (rb_script token chk int_of_str fs (inr resp)) RB_OUTPUT_FILE) =
    map rb_entry (rb_written token chk (map snd (sort_desc ks))).
Proof.
  intros Hs Hj Hk Ht Hall Hw. unfold rb_script. rewrite Hs, Hj, Hk.
  cbn -[open_write write_file rb_text RB_OUTPUT_FILE]. unfold open_write. rewrite Hw.
  rewrite read_written. cbn [snd]. rewrite rb_text_layout, parse_written.
  - rewrite map_map. apply map_ext. reflexivity.
  - apply Forall_map. apply rb_written_wf; [exact Ht|].
    destruct (rb_keys_spec int_of_str data ks Hk) as [Hm _].
    apply Forall_forall. intros x Hx. rewrite Forall_forall in Hall. apply Hall.
    rewrite <- Hm. exact (Permutation_in _ (Permutation_map snd (sort_desc_perm ks)) Hx).
Qed.

(* ================================================================== *)
(** * Instances of the further properties *)

(** Closes a proposition about concrete values by evaluation. *)
Ltac closed_prop :=
  repeat (unfold station_ok, rb_item_ok, tag_line, extinf_line, url_line, clean_line, no_break;
          match goal with
          | |- Forall _ _ => constructor
          | |- _ /\ _ => split
          | |- _ <> _ => discriminate
          | |- rb_field_ok _ _ _ =>
              let s := fresh "s" in let H := fresh "H" in
              intros s H; vm_compute in H; inversion H; subst
          | |- _ = _ => vm_compute; reflexivity
          end).

Definition fs_blank : FileSystem := writable (fun _ => inr "").

Definition radio_text : string :=
  "#EXTM3U" ++ NL ++ "#EXTINF:-1,Radio ZU" ++ NL ++ "http://a.example/zu" ++ NL
  ++ "#EXTINF:-1,Kiss FM" ++ NL ++ "http://b.example/kiss" ++ NL.

Definition fs_radio : FileSystem := writable (fun _ => inr radio_text).

Lemma parse_m3u_ignores_blank_and_header_witness :
  Forall no_break ["#EXTINF:-1,Radio ZU"; " #EXTM3U"; "http://a.example/zu"] /\
  snd (parse_m3u (write_file fs_blank "a.m3u"
                    (text_of_lines ["#EXTINF:-1,Radio ZU"; " #EXTM3U"; "http://a.example/zu"])) "a.m3u") =
  snd (parse_m3u (write_file fs_blank "a.m3u"
                    (text_of_lines ["#EXTINF:-1,Radio ZU"; "http://a.example/zu"])) "a.m3u").
Proof.
  assert (H : Forall no_break ["#EXTINF:-1,Radio ZU"; " #EXTM3U"; "http://a.example/zu"])
    by closed_prop.
  split; [exact H|].
  exact (parse_m3u_ignores_blank_and_header fs_blank "a.m3u" ["#EXTINF:-1,Radio ZU"]
           ["http://a.example/zu"] " #EXTM3U" H (or_intror eq_refl)).
Defined.

Lemma parse_m3u_tags_around_extinf_witness :
  snd (parse_m3u (write_file fs_blank "a.m3u"
                    (text_of_lines ["#EXTVLCOPT:network-caching=1000"; "#EXTINF:-1,Radio ZU";
                                    "#EXTGRP:Pop"; "http://a.example/zu"])) "a.m3u") =
  [mkEntry "#EXTINF:-1,Radio ZU" (Some ["#EXTVLCOPT:network-caching=1000"; "#EXTGRP:Pop"])
           "http://a.example/zu"].
Proof.
  exact (parse_m3u_tags_around_extinf fs_blank "a.m3u" ["#EXTVLCOPT:network-caching=1000"]
           ["#EXTGRP:Pop"] "#EXTINF:-1,Radio ZU" "http://a.example/zu"
           ltac:(closed_prop) ltac:(closed_prop) ltac:(closed_prop) ltac:(closed_prop)).
Defined.

Lemma parse_m3u_extinf_overwritten_witness :
  snd (parse_m3u (write_file fs_blank "a.m3u"
                    (text_of_lines ["#EXTINF:-1,Old"; "#EXTINF:-1,New"; "http://a.example/zu"])) "a.m3u") =
  snd (parse_m3u (write_file fs_blank "a.m3u"
                    (text_of_lines ["#EXTINF:-1,New"; "http://a.example/zu"])) "a.m3u").
Proof.
  exact (parse_m3u_extinf_overwritten fs_blank "a.m3u" [] ["http://a.example/zu"]
           "#EXTINF:-1,Old" "#EXTINF:-1,New" ltac:(closed_prop) eq_refl eq_refl).
Defined.

Lemma parse_m3u_line_endings_witness :
  snd (parse_m3u (write_file fs_blank "a.m3u"
                    (text_of_lines_crlf ["#EXTM3U"; "#EXTINF:-1,Radio ZU"; "http://a.example/zu"])) "a.m3u") =
  snd (parse_m3u (write_file fs_blank "a.m3u"
                    (text_of_lines ["#EXTM3U"; "#EXTINF:-1,Radio ZU"; "http://a.example/zu"])) "a.m3u").
Proof.
  exact (proj1 (parse_m3u_line_endings fs_blank "a.m3u"
                  ["#EXTM3U"; "#EXTINF:-1,Radio ZU"; "http://a.example/zu"] ltac:(closed_prop))).
Defined.

(** A server that answers every request with an MP3 stream. *)
Definition net_mp3 : Net := fun _ => inr (mkResponse 200 (Some "Audio/MPEG")).

Lemma is_stream_playable_true_evidence_witness :
  fst (is_stream_playable net_mp3 "http://a.example/zu") = true /\
  exists r v, (status_code r < 400)%Z /\ content_type_header r = Some v.
Proof.
  assert (H : fst (is_stream_playable net_mp3 "http://a.example/zu") = true)
    by (vm_compute; reflexivity).
  split; [exact H|].
  destruct (is_stream_playable_true_evidence net_mp3 "http://a.example/zu" H)
    as (r & v & _ & Hs & Hc & _).
  exists r, v. split; [exact Hs | exact Hc].
Defined.

(** A playlist whose only URL line comes before its only "#EXTINF" line. *)
Definition unpaired_text : string :=
  "#EXTM3U" ++ NL ++ "http://a.example/live" ++ NL ++ "#EXTINF:-1,Alpha" ++ NL.

Definition fs_unpaired : FileSystem := writable (fun _ => inr unpaired_text).

Lemma validate_m3u_file_nothing_to_do_witness :
  fs_missing "radio.m3u" =
    inl (mkExc false false "[Errno 2] No such file or directory: 'radio.m3u'") /\
  validate_m3u_file fs_missing "radio.m3u" mixed_results [0] = (fs_missing, inr None) /\
  fs_unpaired "radio.m3u" = inr unpaired_text /\
  urls_after_extinf false (readlines unpaired_text) = 0 /\
  validate_m3u_file fs_unpaired "radio.m3u" mixed_results [0] = (fs_unpaired, inr None).
Proof.
  split; [reflexivity|]. split.
  - exact (validate_m3u_file_nothing_to_do fs_missing "radio.m3u" mixed_results [0]
             (or_introl (ex_intro _ _ eq_refl))).
  - split; [reflexivity|]. split; [vm_compute; reflexivity|].
    apply (validate_m3u_file_nothing_to_do fs_unpaired "radio.m3u" mixed_results [0]).
    right. exists unpaired_text. split; [reflexivity | vm_compute; reflexivity].
Defined.

Lemma validate_output_reparses_witness :
  completion_order (List.length (snd (parse_m3u fs_radio "radio.m3u"))) [1; 0] /\
  snd (parse_m3u (fst (validate_m3u_file fs_radio "radio.m3u" (fun _ => Returned (true, "OK")) [1; 0]))
                 (output_file_of "radio.m3u")) =
  map normalize_entry (playable_in_completion_order (snd (parse_m3u fs_radio "radio.m3u"))
                         (fun _ => Returned (true, "OK")) [1; 0]).
Proof.
  assert (Hc : completion_order (List.length (snd (parse_m3u fs_radio "radio.m3u"))) [1; 0])
    by (vm_compute; apply perm_swap).
  split; [exact Hc|].
  exact (validate_output_reparses fs_radio "radio.m3u" _ [1; 0] Hc
           ltac:(vm_compute; discriminate) eq_refl).
Defined.

(** URL checks that accept every netloc. *)
Definition chk_all : UrlChecks := mkUrlChecks (fun _ => true) (fun _ => true).

Lemma logo_of_website_needs_slashes_witness :
  has_char SLASH "www.radiozu.ro" = false /\
  logo_of_website db_generic_domains "tok" chk_all "www.radiozu.ro" = None.
Proof.
  split; [reflexivity|].
  exact (logo_of_website_needs_slashes db_generic_domains "tok" chk_all "www.radiozu.ro" eq_refl).
Defined.

Lemma logo_of_website_https_witness :
  all_chars host_char "www.radiozu.ro" = true /\
  logo_of_website db_generic_domains "tok" chk_all ("https://" ++ "www.radiozu.ro" ++ "") =
    Some (LOGO_DEV_PREFIX ++ "radiozu.ro" ++ "?token=" ++ "tok").
Proof.
  split; [reflexivity|].
  apply (proj2 (logo_of_website_https db_generic_domains "tok" chk_all "www.radiozu.ro" ""
                  eq_refl (or_introl eq_refl))).
  - intros g Hg. simpl in Hg.
    repeat (destruct Hg as [<- | Hg]; [vm_compute; reflexivity |]). destruct Hg.
  - vm_compute. discriminate.
Defined.

Lemma rb_logo_implies_db_logo_witness :
  rb_get_logo_from_website "tok" chk_all "http://www.radiozu.ro/live" =
    Some "https://img.logo.dev/radiozu.ro?token=tok" /\
  db_get_logo_from_website "tok" chk_all (JStr "http://www.radiozu.ro/live") =
    Some "https://img.logo.dev/radiozu.ro?token=tok".
Proof.
  assert (H : rb_get_logo_from_website "tok" chk_all "http://www.radiozu.ro/live" =
              Some "https://img.logo.dev/radiozu.ro?token=tok") by (vm_compute; reflexivity).
  split; [exact H | exact (rb_logo_implies_db_logo "tok" chk_all _ _ H)].
Defined.

(** Radio Garden answering a HEAD with a redirect, and a place page. *)
Definition net_garden : DbNet := fun rq =>
  match rq with
  | HeadNoRedirect _ => inr (mkDbResponse 302 (Some "https://s.example/zu.mp3") None)
  | GetPlaces => inr (mkDbResponse 200 None None)
  | GetChannels _ =>
      inr (mkDbResponse 200 None
             (Some (JDict [("data", JDict [("content", JList [
                      JDict [("items", JList [
                        JDict [("page", JDict [("type", JStr "channel");
                                               ("title", JStr "Radio ZU");
                                               ("url", JStr "/listen/radio-zu/abc123")])];
                        JStr "broken"])]])])])))
  end.

Definition zu_page : Json :=
  JDict [("type", JStr "channel"); ("title", JStr "Radio ZU"); ("url", JStr "/listen/radio-zu/abc123")].

Lemma get_channel_info_result_witness :
  get_channel_info "tok" chk_all net_garden zu_page "abc123" (JStr "Bucuresti") =
    inr (mkChannelInfo (JStr "Radio ZU") "https://s.example/zu.mp3" (avatar_url "Radio ZU")
                       (JStr "Romania") (JStr "Bucuresti")) /\
  avatar_url "Radio ZU" <> "".
Proof.
  assert (H : get_channel_info "tok" chk_all net_garden zu_page "abc123" (JStr "Bucuresti") =
              inr (mkChannelInfo (JStr "Radio ZU") "https://s.example/zu.mp3"
                                 (avatar_url "Radio ZU") (JStr "Romania") (JStr "Bucuresti")))
    by (vm_compute; reflexivity).
  split; [exact H | exact (proj1 (get_channel_info_result _ _ _ _ _ _ _ H))].
Defined.

(** A place with three sections: the second holds a malformed item
    between two channels. *)
Definition zu_item : Json := JDict [("page", zu_page)].

Definition garden_sections : list Json :=
  [JDict [("items", JList [zu_item])];
   JDict [("items", JList [zu_item; JStr "broken"; zu_item])];
   JDict [("items", JList [zu_item])]].

Definition net_sections : DbNet := fun rq =>
  match rq with
  | GetChannels _ =>
      inr (mkDbResponse 200 None
             (Some (JDict [("data", JDict [("content", JList garden_sections)])])))
  | _ => net_garden rq
  end.

Lemma fetch_stations_stop_at_error_witness :
  sections_loop "tok" chk_all net_sections (JStr "Bucuresti") [JDict [("items", JList [zu_item])]] =
    (fst (items_loop "tok" chk_all net_sections (JStr "Bucuresti") [zu_item]), false) /\
  fetch_stations_from_place "tok" chk_all net_sections (JStr "xyz") (JStr "Bucuresti") =
    (fst (items_loop "tok" chk_all net_sections (JStr "Bucuresti") [zu_item]) ++
     fst (items_loop "tok" chk_all net_sections (JStr "Bucuresti") [zu_item]))%list /\
  List.length (fetch_stations_from_place "tok" chk_all net_sections (JStr "xyz") (JStr "Bucuresti")) = 2.
Proof.
  assert (Hb : sections_loop "tok" chk_all net_sections (JStr "Bucuresti")
                 [JDict [("items", JList [zu_item])]] =
               (fst (items_loop "tok" chk_all net_sections (JStr "Bucuresti") [zu_item]), false))
    by (vm_compute; reflexivity).
  assert (H : fetch_stations_from_place "tok" chk_all net_sections (JStr "xyz") (JStr "Bucuresti") =
              (fst (items_loop "tok" chk_all net_sections (JStr "Bucuresti") [zu_item]) ++
               fst (items_loop "tok" chk_all net_sections (JStr "Bucuresti") [zu_item]))%list).
  { apply (fetch_stations_stop_at_error "tok" chk_all net_sections (JStr "xyz") (JStr "Bucuresti")
             _ _ _ (JDict [("items", JList [zu_item; JStr "broken"; zu_item])])
             [JDict [("items", JList [zu_item])]] [JDict [("items", JList [zu_item])]]
             [zu_item] [zu_item] (JStr "broken") _ _ AttrError
             eq_refl eq_refl eq_refl eq_refl eq_refl Hb eq_refl).
    - vm_compute. reflexivity.
    - reflexivity. }
  split; [exact Hb | split; [exact H|]]. rewrite H. vm_compute. reflexivity.
Defined.

(** [repr] for the fixtures: none of their titles or countries is a list
    or a dict, so it is never reached. *)
Definition fixture_repr (v : Json) : string := "[...]".

Definition zu_station : ChannelInfo :=
  mkChannelInfo (JStr "Radio ZU") "https://s.example/zu.mp3"
                "https://img.logo.dev/radiozu.ro?token=tok" (JStr "Romania") (JStr "Bucuresti").

Definition kiss_station : ChannelInfo :=
  mkChannelInfo (JStr "Kiss FM") "https://s.example/kiss.mp3"
                "https://img.logo.dev/kissfm.ro?token=tok" (JStr "Romania") JNull.

(** A station whose title is a number, one whose title is a list, and
    two without a title. *)
Definition num_station : ChannelInfo :=
  mkChannelInfo (JInt 1) "https://s.example/one.mp3" "" (JStr "Romania") JNull.

Definition list_station : ChannelInfo :=
  mkChannelInfo (JList [JStr "Magic"]) "https://s.example/magic.mp3" "" (JStr "Romania") JNull.

Definition none_station_a : ChannelInfo :=
  mkChannelInfo JNull "https://s.example/a.mp3" "" (JStr "Romania") JNull.

Definition none_station_b : ChannelInfo :=
  mkChannelInfo JNull "https://s.example/b.mp3" "" (JStr "Romania") JNull.

Lemma save_to_m3u_unique_witness :
  save_to_m3u fixture_repr fs_blank [zu_station; list_station] "Romania.m3u" = inl TypeErr /\
  final_list [zu_station; kiss_station; zu_station] = inr [kiss_station; zu_station] /\
  NoDup (map station_key [kiss_station; zu_station]).
Proof.
  split.
  - destruct (proj1 (save_to_m3u_unique fixture_repr fs_blank [zu_station; list_station]
                       "Romania.m3u")) as (_ & _ & H).
    + exists list_station. split; [right; left; reflexivity | reflexivity].
    + exact H.
  - assert (Hf : final_list [zu_station; kiss_station; zu_station] = inr [kiss_station; zu_station])
      by (vm_compute; reflexivity).
    split; [exact Hf|].
    exact (proj1 (proj2 (save_to_m3u_unique fixture_repr fs_blank
                           [zu_station; kiss_station; zu_station] "Romania.m3u")
                   _ Hf)).
Defined.

Lemma save_to_m3u_sorted_witness :
  save_to_m3u fixture_repr fs_blank [zu_station; num_station] "Romania.m3u" = inl TypeErr /\
  save_to_m3u fixture_repr fs_blank [none_station_a; none_station_b] "Romania.m3u" = inl TypeErr /\
  (exists r, final_list [zu_station; kiss_station] = inr (map snd r) /\ Sorted title_le_item r).
Proof.
  split; [| split].
  - assert (Hu : unique_items [zu_station; num_station] =
                 inr [((KStr "Radio ZU", "https://s.example/zu.mp3"), zu_station);
                      ((KNum 1, "https://s.example/one.mp3"), num_station)])
      by (vm_compute; reflexivity).
    destruct (save_to_m3u_sorted fixture_repr fs_blank _ "Romania.m3u" _ Hu) as ([_ Herr] & Hsave & _).
    apply Hsave, Herr.
    intros [Hl | [Hn | Hs]].
    + simpl in Hl. lia.
    + inversion Hn as [| ? ? [z Hz] _]. discriminate Hz.
    + inversion Hs as [| ? ? _ Hs']. inversion Hs' as [| ? ? [s Hz] _]. discriminate Hz.
  - assert (Hu : unique_items [none_station_a; none_station_b] =
                 inr [((KNone, "https://s.example/a.mp3"), none_station_a);
                      ((KNone, "https://s.example/b.mp3"), none_station_b)])
      by (vm_compute; reflexivity).
    destruct (save_to_m3u_sorted fixture_repr fs_blank _ "Romania.m3u" _ Hu) as ([_ Herr] & Hsave & _).
    apply Hsave, Herr.
    intros [Hl | [Hn | Hs]].
    + simpl in Hl. lia.
    + inversion Hn as [| ? ? [z Hz] _]. discriminate Hz.
    + inversion Hs as [| ? ? [s Hz] _]. discriminate Hz.
  - assert (Hu : unique_items [zu_station; kiss_station] =
                 inr [((KStr "Radio ZU", "https://s.example/zu.mp3"), zu_station);
                      ((KStr "Kiss FM", "https://s.example/kiss.mp3"), kiss_station)])
      by (vm_compute; reflexivity).
    assert (Hf : final_list [zu_station; kiss_station] = inr [kiss_station; zu_station])
      by (vm_compute; reflexivity).
    destruct (proj2 (proj2 (save_to_m3u_sorted fixture_repr fs_blank _ "Romania.m3u" _ Hu)) _ Hf)
      as (r & Hr & Hs & _).
    exists r. rewrite <- Hr. split; [exact Hf | exact Hs].
Defined.

Lemma save_to_m3u_reparses_witness :
  Forall (station_ok fixture_repr) [zu_station; kiss_station; zu_station] /\
  final_list [zu_station; kiss_station; zu_station] = inr [kiss_station; zu_station] /\
  open_w_error fs_blank "Romania.m3u" = None /\
  exists fs', save_to_m3u fixture_repr fs_blank [zu_station; kiss_station; zu_station]
                          "Romania.m3u" = inr (fs', 2) /\
              snd (parse_m3u fs' "Romania.m3u") =
                map (station_entry fixture_repr) [kiss_station; zu_station].
Proof.
  assert (H : Forall (station_ok fixture_repr) [zu_station; kiss_station; zu_station])
    by closed_prop.
  assert (Hf : final_list [zu_station; kiss_station; zu_station] = inr [kiss_station; zu_station])
    by (vm_compute; reflexivity).
  split; [exact H | split; [exact Hf | split; [reflexivity|]]].
  exact (proj2 (save_to_m3u_reparses fixture_repr fs_blank _ "Romania.m3u" _ H Hf eq_refl)).
Defined.

(** Radio Browser items: two with click counts, one without. *)
Definition rb_items : list Json :=
  [JDict [("name", JStr "Radio ZU"); ("url_resolved", JStr " https://s.example/zu.mp3 ");
          ("clickcount", JInt 5)];
   JDict [("name", JStr "Kiss FM"); ("url_resolved", JStr "https://s.example/kiss.mp3");
          ("state", JStr "Cluj"); ("clickcount", JInt 9)];
   JDict [("name", JStr "Europa FM"); ("url_resolved", JStr "")]].

Definition no_int : string -> option Z := fun _ => None.

Lemma rb_sort_order_witness :
  rb_keys no_int rb_items = inr (combine [5; 9; 0]%Z rb_items) /\
  Sorted (fun a b => (fst b <=? fst a)%Z = true) (sort_desc (combine [5; 9; 0]%Z rb_items)).
Proof.
  assert (H : rb_keys no_int rb_items = inr (combine [5; 9; 0]%Z rb_items))
    by (vm_compute; reflexivity).
  split; [exact H | exact (proj1 (proj2 (proj2 (rb_sort_order no_int _ _ H))))].
Defined.

Lemma rb_script_reparses_witness :
  Forall rb_item_ok rb_items /\
  snd (parse_m3u (rb_script "tok" chk_all no_int fs_blank
                    (inr (mkDbResponse 200 None (Some (JList rb_items))))) RB_OUTPUT_FILE) =
    map rb_entry (rb_written "tok" chk_all (map snd (sort_desc (combine [5; 9; 0]%Z rb_items)))).
Proof.
  assert (H : Forall rb_item_ok rb_items) by closed_prop.
  split; [exact H|].
  exact (rb_script_reparses "tok" chk_all no_int fs_blank (mkDbResponse 200 None (Some (JList rb_items)))
           rb_items _ eq_refl eq_refl ltac:(vm_compute; reflexivity) ltac:(closed_prop) H eq_refl).
Defined.
